(** * BM-Algo-LINE-Bot: the allocation core of [bot_logic.py]

    A shallow embedding of [GroupDecisionBot]: the ranking validator, the
    session store with its three-state lifecycle, the probabilistic-serial
    ("simultaneous eating") solver and the randomized rounding step.

    Modelling conventions.
    - Python [str] values that are parsed ([text], [ranking_text]) are lists
      of Unicode code points ([N]); identifiers that are only compared
      ([group_id], [user_id], item labels) are [string].
    - numpy [float64] arrays are lists of exact rationals ([Q]); the
      thresholds [1e-9] of the source are kept as they are written.
    - numpy [int] arrays of item indices are lists of [nat]; the sentinel
      [-1] of [top_choice] is [None].
    - a raised exception is [None] in the [option] monad.
    - [self.sessions] is a [gmap]; a session's [preferences] dict keeps its
      insertion order (it fixes the row order of the matrix) and is an
      association list with the dict's update-in-place behaviour.
    - the message handlers of [app.py] are functions from the store, the
      generator and a message event to the new store, the new generator and
      the reply sent; the calls to the LINE API are left out. *)

From Stdlib Require Import Ascii String QArith Qminmax Qabs Qround Lqa.
From stdpp Require Import base option list gmap strings sorting.

(** ** Characters of the Python runtime *)

(** The character database the [re] module and [int()] consult: [\s] and
    [\d] on [str] patterns are the Unicode whitespace and decimal-digit
    classes.  The tables belong to the interpreter, not to the repository,
    so they are an interface; the two laws are the only facts about them the
    validator relies on. *)
Class CharDB := {
  is_space : N → bool;
  decimal : N → option nat;
  newline_is_space : is_space 10 = true;
  comma_not_decimal : decimal 44 = None
}.

Definition ascii_space (c : N) : bool :=
  ((9 <=? c) && (c <=? 13) || (28 <=? c) && (c <=? 32))%N.

Definition ascii_decimal (c : N) : option nat :=
  if ((48 <=? c) && (c <=? 57))%N then Some (N.to_nat (c - 48)) else None.

(** The ASCII fragment of the database, used to run the model on examples. *)
Definition ascii_db : CharDB :=
  {| is_space := ascii_space; decimal := ascii_decimal;
     newline_is_space := eq_refl; comma_not_decimal := eq_refl |}.

(** Code points of a string literal. *)
Fixpoint codes (s : string) : list N :=
  match s with
  | EmptyString => []
  | String a s' => N_of_ascii a :: codes s'
  end.

Definition comma : N := 44.
Definition newline : N := 10.

(** ** RankingValidator: [is_ranking_format] *)

Section Validator.
Context `{CharDB}.

Definition is_digit (c : N) : bool :=
  match decimal c with Some _ => true | None => false end.

(** [re.sub(r'\s+', '', text)] *)
Definition remove_whitespace (text : list N) : list N :=
  List.filter (λ c, negb (is_space c)) text.

(** [re.match(r'^\d+(,\d+)*$', cleaned)], run as the two-state automaton of
    the pattern: [true] in the first argument means that a token has been
    opened (at least one digit read since the start or the last comma).
    [$] matches at the end and before a final newline. *)
Fixpoint match_ranking_re (in_token : bool) (s : list N) : bool :=
  match s with
  | [] => in_token
  | c :: s' =>
      if is_digit c then match_ranking_re true s'
      else if in_token && (c =? comma)%N then match_ranking_re false s'
      else in_token && (c =? newline)%N && match s' with [] => true | _ => false end
  end.

(** [str.split(',')] *)
Fixpoint split (sep : N) (s : list N) : list (list N) :=
  match s with
  | [] => [[]]
  | c :: s' =>
      if (c =? sep)%N then [] :: split sep s'
      else match split sep s' with
           | t :: ts => (c :: t) :: ts
           | [] => [[c]]
           end
  end.

(** The decimal value of a non-empty run of digits; [None] for anything
    else the validator could pass. *)
Definition int_digits (acc : option nat) (c : N) : option nat :=
  a ← acc; d ← decimal c; Some (10 * a + d).

Definition decimal_value (tok : list N) : option nat :=
  match tok with
  | [] => None
  | _ => foldl int_digits (Some 0) tok
  end.

(** [sys.int_info.default_max_str_digits]: the longest run of digits
    [int()] converts; leading zeros count. *)
Definition int_max_str_digits : nat := 4300.

(** [int(x)] on a token; [None] is its [ValueError], raised on a token that
    is longer than the limit or is not a run of digits. *)
Definition py_int (tok : list N) : option nat :=
  if decide (int_max_str_digits < length tok) then None else decimal_value tok.

(** [sorted(numbers)] *)
Definition sorted (numbers : list nat) : list nat := merge_sort (≤) numbers.

(** [is_ranking_format]; [None] is the [ValueError] of an [int(x)] of the
    list comprehension, which the function does not catch: once the pattern
    has matched, that of a number of more than [int_max_str_digits] digits
    ([is_ranking_format_raises]). *)
Definition is_ranking_format (text : list N) (expected_length : option nat)
  : option bool :=
  let cleaned := remove_whitespace text in
  if negb (match_ranking_re false cleaned) then Some false
  else
    numbers ← mapM py_int (split comma cleaned);
    let expected := seq 1 (length numbers) in
    match expected_length with
    | Some n => if decide (length numbers ≠ n) then Some false
                else Some (bool_decide (sorted numbers = expected))
    | None => Some (bool_decide (sorted numbers = expected))
    end.

End Validator.

(** ** ProbabilisticSerialSolver: [_bogomolnaia_moulin] *)

Section Solver.
Local Open Scope Q_scope.

(** The threshold [1e-9] below which a remaining quantity counts as
    exhausted. *)
Definition eps : Q := 1 # 1000000000.

(** The three arrays the eating loop mutates. *)
Record eat_state := EatState {
  item_remaining : list Q;
  person_remaining : list Q;
  prob : list (list Q)
}.

(** [if x < 0: x = 0.0] *)
Definition clamp0 (x : Q) : Q := if Qlt_le_dec x 0 then 0 else x.

(** [prob.sum(axis=1)] on one row. *)
Definition Qsum (l : list Q) : Q := foldr Qplus 0 l.

(** [pref_matrix[i] = preferences[uid]]: numpy assigns a sequence of the
    row's length, broadcasts a sequence of length one and raises
    [ValueError] on any other length. *)
Definition assign_row (n_items : nat) (ranking : list nat) : option (list nat) :=
  if decide (length ranking = n_items) then Some ranking
  else match ranking with
       | [x] => Some (replicate n_items x)
       | _ => None
       end.

Definition build_pref_matrix (n_items : nat) (preferences : list (string * list nat))
  : option (list (list nat)) :=
  mapM (λ kv, assign_row n_items kv.2) preferences.

(** The inner scan [for item in pref_matrix[p]]: the first item of the row
    with supply above the threshold; [Some None] when there is none (the
    entry of [top_choice] stays [-1]); [None] when [item_remaining[item]]
    raises [IndexError]. *)
Fixpoint first_available (item_remaining : list Q) (row : list nat) : option (option nat) :=
  match row with
  | [] => Some None
  | item :: rest =>
      r ← item_remaining !! item;
      if Qlt_le_dec eps r then Some (Some item)
      else first_available item_remaining rest
  end.

Definition top_choice_of (item_remaining : list Q) (pr : Q * list nat) : option (option nat) :=
  if Qlt_le_dec eps pr.1 then first_available item_remaining pr.2 else Some None.

Definition top_choice (pref_matrix : list (list nat)) (st : eat_state)
  : option (list (option nat)) :=
  mapM (top_choice_of st.(item_remaining)) (zip st.(person_remaining) pref_matrix).

(** [eaters_per_item[itm].append(p)] for [itm >= 0]. *)
Definition add_eater (acc : list (list nat)) (entry : nat * option nat) : list (list nat) :=
  match entry.2 with
  | Some itm => alter (λ eaters, eaters ++ [entry.1]) itm acc
  | None => acc
  end.

(** The dict [{j: [] for j in range(n_items)}] filled over
    [enumerate(top_choice)], as the list of its values in key order. *)
Definition eaters_per_item (n_items : nat) (tc : list (option nat)) : list (list nat) :=
  foldl add_eater (replicate n_items []) (imap pair tc).

Definition of_nat (k : nat) : Q := inject_Z (Z.of_nat k).

(** The first loop over [eaters_per_item.items()]: time until each eaten
    item is exhausted. *)
Definition item_candidate (re : Q * list nat) : option Q :=
  match re.2 with
  | [] => None
  | _ => Some (re.1 / of_nat (length re.2))
  end.

(** The loop over [range(n_participants)]: time until each eating person
    is full. *)
Definition person_candidate (rt : Q * option nat) : option Q :=
  if Qlt_le_dec eps rt.1 then
    match rt.2 with Some _ => Some rt.1 | None => None end
  else None.

Definition dt_candidates (st : eat_state) (tc : list (option nat))
    (eaters : list (list nat)) : list Q :=
  omap item_candidate (zip st.(item_remaining) eaters)
  ++ omap person_candidate (zip st.(person_remaining) tc).

(** [min(dt_candidates)], [None] on the empty list. *)
Definition py_min (l : list Q) : option Q :=
  match l with
  | [] => None
  | x :: xs => Some (foldl Qmin x xs)
  end.

(** The body of [for p in eaters]. *)
Definition eat_person (dt : Q) (itm : nat) (st : eat_state) (p : nat) : eat_state :=
  {| item_remaining := st.(item_remaining);
     person_remaining := alter (λ r, clamp0 (r - dt)) p st.(person_remaining);
     prob := alter (alter (λ x, x + dt) itm) p st.(prob) |}.

(** The body of the second loop over [eaters_per_item.items()]. *)
Definition eat_item (dt : Q) (st : eat_state) (entry : nat * list nat) : eat_state :=
  match entry.2 with
  | [] => st
  | _ =>
      let k := of_nat (length entry.2) in
      let consume_amount_item := dt * k in
      foldl (eat_person dt entry.1)
        {| item_remaining :=
             alter (λ r, clamp0 (r - consume_amount_item)) entry.1 st.(item_remaining);
           person_remaining := st.(person_remaining);
           prob := st.(prob) |}
        entry.2
  end.

Definition eat (dt : Q) (st : eat_state) (eaters : list (list nat)) : eat_state :=
  foldl (eat_item dt) st (imap pair eaters).

(** One pass through the body of the [while] loop. *)
Inductive round := Raised | Broke | Next (st : eat_state).

Definition eat_round (pref_matrix : list (list nat)) (n_items : nat) (st : eat_state) : round :=
  match top_choice pref_matrix st with
  | None => Raised
  | Some tc =>
      let eaters := eaters_per_item n_items tc in
      match py_min (dt_candidates st tc eaters) with
      | None => Broke
      | Some dt => Next (eat dt st eaters)
      end
  end.

(** [np.any(person_remaining > 1e-9)] *)
Definition hungry (st : eat_state) : bool :=
  existsb (λ r, if Qlt_le_dec eps r then true else false) st.(person_remaining).

(** The [while] loop, with a budget of rounds. *)
Inductive loop_result := Finished (st : eat_state) | Failed | OutOfFuel.

Fixpoint eat_loop (fuel : nat) (pref_matrix : list (list nat)) (n_items : nat)
    (st : eat_state) : loop_result :=
  if hungry st then
    match fuel with
    | O => OutOfFuel
    | S fuel' =>
        match eat_round pref_matrix n_items st with
        | Raised => Failed
        | Broke => Finished st
        | Next st' => eat_loop fuel' pref_matrix n_items st'
        end
    end
  else Finished st.

(** The post-processing: [prob[prob < 0] = 0], the row sums with the guard
    [row_sums[row_sums == 0] = 1.0], and the division. *)
Definition normalize_row (row : list Q) : list Q :=
  let row_sum := Qsum row in
  let row_sum := if Qeq_bool row_sum 0 then 1 else row_sum in
  map (λ x, x / row_sum) row.

Definition normalize (prob : list (list Q)) : list (list Q) :=
  map normalize_row (map (map clamp0) prob).

Definition initial_state (n_participants n_items : nat) : eat_state :=
  {| item_remaining := replicate n_items 1;
     person_remaining := replicate n_participants 1;
     prob := replicate n_participants (replicate n_items 0) |}.

Definition solve (fuel : nat) (items : list string)
    (preferences : list (string * list nat)) : loop_result :=
  let n_participants := length preferences in
  let n_items := length items in
  match build_pref_matrix n_items preferences with
  | None => Failed
  | Some pref_matrix =>
      eat_loop fuel pref_matrix n_items (initial_state n_participants n_items)
  end.

(** [_bogomolnaia_moulin]: the loop is given [n_participants + n_items]
    rounds, which it never uses up whatever the input ([solve_fuel]);
    [None] is a raised exception. *)
Definition _bogomolnaia_moulin (items : list string)
    (preferences : list (string * list nat)) : option (list (list Q)) :=
  match solve (length preferences + length items) items preferences with
  | Finished st => Some (normalize st.(prob))
  | _ => None
  end.

End Solver.

(** ** AssignmentSampler: [_probabilities_to_assignments] *)

Section Sampler.
Local Open Scope Q_scope.

(** The state of numpy's global generator, as the stream of uniform
    variates in [[0, 1)] it is going to hand out. *)
Definition rng := nat → Q.

(** [random_sample()]: the next variate and the advanced generator. *)
Definition random_sample (g : rng) : Q * rng := (g 0%nat, λ i, g (S i)).

(** A generator whose variates lie in [[0, 1)]. *)
Definition uniform (g : rng) : Prop := ∀ i, 0 <= g i ∧ g i < 1.

(** [p.cumsum()] *)
Fixpoint cumsum_from (acc : Q) (p : list Q) : list Q :=
  match p with
  | [] => []
  | x :: p' => (acc + x) :: cumsum_from (acc + x) p'
  end.

Definition cumsum (p : list Q) : list Q := cumsum_from 0 p.

(** [cdf.searchsorted(u, side='right')] on a nondecreasing [cdf]: the
    index [i] with [cdf[i-1] <= u < cdf[i]]. *)
Fixpoint searchsorted_right (cdf : list Q) (u : Q) : nat :=
  match cdf with
  | [] => 0%nat
  | c :: cdf' => if Qlt_le_dec u c then 0%nat else S (searchsorted_right cdf' u)
  end.

(** numpy's tolerance on the sum of [p]: [sqrt(finfo(float64).eps)],
    which is [2^-26]. *)
Definition atol : Q := 1 # 67108864.

(** Modelled from the spec: [np.random.choice(a, p=p)] belongs to numpy,
    not to the repository; the spec has it draw one index "according to
    that participant's row as a categorical probability distribution".
    This is numpy's inverse-CDF draw with its argument checks, each of
    which raises [ValueError]. *)
Definition random_choice (a : nat) (p : list Q) (g : rng) : option (nat * rng) :=
  if decide (a = 0%nat) then None
  else if decide (length p ≠ a) then None
  else if existsb (λ x, if Qlt_le_dec x 0 then true else false) p then None
  else if Qlt_le_dec atol (Qabs (Qsum p - 1)) then None
  else
    let cdf := cumsum p in
    let cdf := map (λ c, c / default 0 (last cdf)) cdf in
    let (u, g') := random_sample g in
    Some (searchsorted_right cdf u, g').

(** The loop [for person in range(n_participants)], appending one draw per
    row. *)
Fixpoint sample_rows (n_items : nat) (rows : list (list Q)) (g : rng)
  : option (list nat * rng) :=
  match rows with
  | [] => Some ([], g)
  | row :: rest =>
      ag ← random_choice n_items row g;
      rg ← sample_rows n_items rest ag.2;
      Some (ag.1 :: rg.1, rg.2)
  end.

(** [probabilities.shape[1]] of a rectangular matrix (unused when there is
    no row). *)
Definition n_columns (probabilities : list (list Q)) : nat :=
  match probabilities with
  | [] => 0%nat
  | row :: _ => length row
  end.

Definition _probabilities_to_assignments (probabilities : list (list Q)) (g : rng)
  : option (list nat * rng) :=
  sample_rows (n_columns probabilities) probabilities g.

End Sampler.

(** ** SessionStore: the [GroupDecisionBot] methods *)

(** The three values of [session['status']]. *)
Inductive session_status := collecting | algorithm_run | completed.

Global Instance session_status_eq_dec : EqDecision session_status.
Proof. solve_decision. Defined.

Record session := Session {
  items : list string;
  preferences : list (string * list nat);
  status : session_status;
  probabilities : option (list (list Q));
  final_assignments : option (list nat)
}.

(** [d[k] = v] on an insertion-ordered dict: an existing key keeps its
    place, a new key goes to the end. *)
Fixpoint dict_set {V : Type} (k : string) (v : V) (d : list (string * V))
  : list (string * V) :=
  match d with
  | [] => [(k, v)]
  | kv :: d' => if decide (kv.1 = k) then (k, v) :: d' else kv :: dict_set k v d'
  end.

(** [list(d.keys())] *)
Definition keys {V : Type} (d : list (string * V)) : list string := d.*1.

(** What a method hands back to the chat adapter: one constructor per
    message of the source, with the values the message is formatted from. *)
Inductive reply :=
  | NoActiveSessionStart                      (* "No active session. Type 'start assignment' to begin." *)
  | NoActiveSession                           (* "No active session." *)
  | NoLongerCollected                         (* "Rankings are no longer being collected." *)
  | InvalidRankingFormat                      (* "Invalid ranking format. ..." *)
  | ExpectedItems (expected got : nat)        (* "Expected {} items, got {}." *)
  | RankingSubmitted (collected total : nat)  (* "Ranking submitted! ({}/{} people have ranked)" *)
  | AlgorithmAlreadyRun                       (* "Algorithm already run. ..." *)
  | NeedRankings (need got : nat)             (* "Need {} rankings, got {}." *)
  | AlgorithmResults (shown : list (string * list (string * Z)))
  | ErrorRunningAlgorithm                     (* "Error running algorithm: {}" *)
  | RunAlgorithmFirst                         (* "Run the algorithm first with 'run algorithm'." *)
  | FinalAssignments (shown : list (string * string))
  | SessionStatus (items : list string) (st : session_status)
      (collected total : nat) (ranked : list string) (ready : bool).

Definition start_session (sessions : gmap string session) (group_id : string)
    (items : list string) : gmap string session * bool :=
  match sessions !! group_id with
  | Some _ => (sessions, false)
  | None =>
      (<[group_id := {| items := items; preferences := []; status := collecting;
                        probabilities := None; final_assignments := None |}]> sessions,
       true)
  end.

Definition cancel_session (sessions : gmap string session) (group_id : string)
  : gmap string session * bool :=
  match sessions !! group_id with
  | Some _ => (delete group_id sessions, true)
  | None => (sessions, false)
  end.

Section Submit.
Context `{CharDB}.

(** [[int(x) - 1 for x in ranking_text.split(',')]]; [None] is the
    [ValueError] of an [int(x)].  The tokens have passed [is_ranking_format],
    so every [int(x)] succeeds and is at least 1 ([to_indices_accepted]). *)
Definition to_indices (ranking_text : list N) : option (list nat) :=
  mapM (λ x, Nat.pred <$> py_int x) (split comma ranking_text).

(** [submit_ranking]; it has no [try]: a result of [None] is the
    [ValueError] of an [int(x)], which reaches the caller before the session
    is touched. *)
Definition submit_ranking (sessions : gmap string session) (group_id user_id : string)
    (ranking_text : list N) : gmap string session * option (bool * reply) :=
  match sessions !! group_id with
  | None => (sessions, Some (false, NoActiveSessionStart))
  | Some session =>
      if decide (session.(status) ≠ collecting) then
        (sessions, Some (false, NoLongerCollected))
      else
        let ranking_text := remove_whitespace ranking_text in
        match is_ranking_format ranking_text (Some (length session.(items))) with
        | None => (sessions, None)
        | Some false => (sessions, Some (false, InvalidRankingFormat))
        | Some true =>
            match to_indices ranking_text with
            | None => (sessions, None)
            | Some ranking =>
                if decide (length ranking ≠ length session.(items)) then
                  (sessions,
                   Some (false, ExpectedItems (length session.(items)) (length ranking)))
                else
                  let preferences := dict_set user_id ranking session.(preferences) in
                  (<[group_id := {| items := session.(items);
                                    preferences := preferences;
                                    status := session.(status);
                                    probabilities := session.(probabilities);
                                    final_assignments := session.(final_assignments) |}]>
                     sessions,
                   Some (true,
                         RankingSubmitted (length preferences) (length session.(items))))
            end
        end
  end.

End Submit.

Definition get_status (sessions : gmap string session) (group_id : string) : reply :=
  match sessions !! group_id with
  | None => NoActiveSessionStart
  | Some session =>
      SessionStatus session.(items) session.(status)
        (length session.(preferences)) (length session.(items))
        (keys session.(preferences))
        (bool_decide (session.(status) = collecting
                      ∧ length session.(items) ≤ length session.(preferences)))
  end.

(** [user_id[:8]]: the first eight characters of an id. *)
Definition first8 (user_id : string) : string := substring 0 8 user_id.

(** [f"{prob:.1%}"]: the share as a number of tenths of a percent, rounded
    to the nearest one, a tie to the even one. *)
Definition percent_tenths (prob : Q) : Z :=
  let scaled := (prob * 1000)%Q in
  let lower := Qfloor scaled in
  let rest := (scaled - inject_Z lower)%Q in
  if Qlt_le_dec rest (1 # 2) then lower
  else if Qlt_le_dec (1 # 2) rest then (lower + 1)%Z
  else if Z.even lower then lower else (lower + 1)%Z.

(** [_format_probabilities]: per participant, a heading with the first
    eight characters of the user id and a line for every item with a
    positive share, which is shown as a percentage with one decimal.  The
    indexing [probabilities[i, j]] is in range on the matrix the solver
    returns for the same [items] and [preferences]. *)
Definition _format_probabilities (probabilities : list (list Q)) (items : list string)
    (preferences : list (string * list nat)) : list (string * list (string * Z)) :=
  zip_with (λ user_id row,
      (first8 user_id,
       (λ ip, (ip.1, percent_tenths ip.2))
         <$> List.filter (λ ip, if Qlt_le_dec 0 ip.2 then true else false)
               (zip items row)))
    (keys preferences) probabilities.

(** [_format_assignments]: [items[assignments[i]]] for every participant;
    [None] is its [IndexError]. *)
Definition _format_assignments (assignments : list nat) (items : list string)
    (preferences : list (string * list nat)) : option (list (string * string)) :=
  mapM (λ ui, a ← assignments !! ui.1; item ← items !! a; Some (ui.2, item))
    (imap pair (keys preferences)).

(** [run_algorithm]; the [except Exception] branch leaves the session as it
    was, since both assignments follow the call that can raise. *)
Definition run_algorithm (sessions : gmap string session) (group_id : string)
  : gmap string session * reply :=
  match sessions !! group_id with
  | None => (sessions, NoActiveSession)
  | Some session =>
      if decide (session.(status) ≠ collecting) then (sessions, AlgorithmAlreadyRun)
      else if decide (length session.(preferences) < length session.(items)) then
        (sessions, NeedRankings (length session.(items)) (length session.(preferences)))
      else
        match _bogomolnaia_moulin session.(items) session.(preferences) with
        | None => (sessions, ErrorRunningAlgorithm)
        | Some probabilities =>
            (<[group_id := {| items := session.(items);
                              preferences := session.(preferences);
                              status := algorithm_run;
                              probabilities := Some probabilities;
                              final_assignments := session.(final_assignments) |}]>
               sessions,
             AlgorithmResults
               (_format_probabilities probabilities session.(items) session.(preferences)))
        end
  end.

(** [make_final_assignments]; it has no [try]: a reply of [None] is an
    exception that reaches the caller, before the session is touched when
    the sampler raises, after it when the formatting does. *)
Definition make_final_assignments (sessions : gmap string session) (group_id : string)
    (g : rng) : gmap string session * option reply * rng :=
  match sessions !! group_id with
  | None => (sessions, Some NoActiveSession, g)
  | Some session =>
      if decide (session.(status) ≠ algorithm_run) then
        (sessions, Some RunAlgorithmFirst, g)
      else
        match session.(probabilities) ≫= λ m, _probabilities_to_assignments m g with
        | None => (sessions, None, g)
        | Some (assignments, g') =>
            (<[group_id := {| items := session.(items);
                              preferences := session.(preferences);
                              status := completed;
                              probabilities := session.(probabilities);
                              final_assignments := Some assignments |}]>
               sessions,
             FinalAssignments
               <$> _format_assignments assignments session.(items) session.(preferences),
             g')
        end
  end.

(** The commands of the chat adapter and the bot's reaction to each. *)
Inductive command :=
  | StartSession (group_id : string) (items : list string)
  | CancelSession (group_id : string)
  | SubmitRanking (group_id user_id : string) (ranking_text : list N)
  | GetStatus (group_id : string)
  | RunAlgorithm (group_id : string)
  | MakeFinalAssignments (group_id : string).

Section Bot.
Context `{CharDB}.

Definition step (w : gmap string session * rng) (c : command)
  : gmap string session * rng :=
  match c with
  | StartSession group_id items => ((start_session w.1 group_id items).1, w.2)
  | CancelSession group_id => ((cancel_session w.1 group_id).1, w.2)
  | SubmitRanking group_id user_id text =>
      ((submit_ranking w.1 group_id user_id text).1, w.2)
  | GetStatus _ => w
  | RunAlgorithm group_id => ((run_algorithm w.1 group_id).1, w.2)
  | MakeFinalAssignments group_id =>
      let r := make_final_assignments w.1 group_id w.2 in (r.1.1, r.2)
  end.

Definition run_commands (w : gmap string session * rng) (cs : list command)
  : gmap string session * rng :=
  foldl step w cs.

End Bot.

(** Position of a status on the line [collecting], [algorithm_run],
    [completed]. *)
Definition status_rank (s : session_status) : nat :=
  match s with collecting => 0 | algorithm_run => 1 | completed => 2 end.

(** ** ChatAdapter: the message handlers of [app.py] *)

(** What the handlers need from the runtime beyond [CharDB]: [str.lower],
    and the passage from a parsed text to the label the store keeps (the
    identity in Python, where both are [str]; here a parsed text is a list
    of code points and a stored label is a [string]). *)
Class TextOps := {
  lower : list N → list N;
  label : list N → string
}.

Definition ascii_lower (s : list N) : list N :=
  map (λ c, if ((65 <=? c) && (c <=? 90))%N then (c + 32)%N else c) s.

Definition ascii_label (s : list N) : string :=
  foldr (λ c acc, String (ascii_of_N c) acc) EmptyString s.

(** The ASCII fragment, used to run the model on examples. *)
Definition ascii_text : TextOps := {| lower := ascii_lower; label := ascii_label |}.

Section Text.
Context `{CharDB}.

(** [str.lstrip()], [str.rstrip()] and [str.strip()]: the whitespace they
    remove is the class [\s] matches. *)
Fixpoint lstrip (s : list N) : list N :=
  match s with
  | [] => []
  | c :: s' => if is_space c then lstrip s' else s
  end.

Definition rstrip (s : list N) : list N := reverse (lstrip (reverse s)).

Definition strip (s : list N) : list N := rstrip (lstrip s).

End Text.

(** [s.startswith(prefix)] *)
Fixpoint startswith (s prefix : list N) : bool :=
  match prefix, s with
  | [], _ => true
  | _ :: _, [] => false
  | p :: prefix', c :: s' => (c =? p)%N && startswith s' prefix'
  end.

(** [s.replace(old, '')] for a non-empty [old]: the occurrences of [old]
    are removed from left to right, without overlap; [skip] counts the
    characters of the current occurrence still to drop. *)
Fixpoint remove_from (skip : nat) (old s : list N) : list N :=
  match s with
  | [] => []
  | c :: s' =>
      match skip with
      | S k => remove_from k old s'
      | O => if startswith s old then remove_from (length old - 1) old s'
             else c :: remove_from 0 old s'
      end
  end.

Definition replace_with_empty (old s : list N) : list N := remove_from 0 old s.

(** A [MessageEvent]: [event.source.user_id], [event.source.group_id]
    ([None] when the source has no such attribute) and
    [event.message.text]. *)
Record event := Event {
  source_user_id : string;
  source_group_id : option string;
  message_text : list N
}.

(** The texts the handlers send back, with the values they are formatted
    from. *)
Inductive chat_reply :=
  | OnlyInGroupChats                      (* "This command only works in group chats!" *)
  | PleaseSpecifyItems                    (* "Please specify items! ..." *)
  | AtLeastTwoItems                       (* "Please provide at least 2 items to assign!" *)
  | StartingSession (items : list string) (* "Starting fair assignment session! ..." *)
  | SessionInProgress                     (* "A session is already in progress. ..." *)
  | HelpText                              (* "Fair Assignment Bot Commands: ..." *)
  | BotReply (r : reply)                  (* the text a method of the bot returned *)
  | SessionCancelled                      (* "Session cancelled." *)
  | NoSessionToCancel                     (* "No active session to cancel." *)
  | DidNotUnderstand.                     (* "I didn't understand that command. ..." *)

(** The test [if not group_id]: [None] and the empty string are falsy. *)
Definition in_group (group_id : option string) : option string :=
  match group_id with
  | Some g => if decide (g = EmptyString) then None else Some g
  | None => None
  end.

Section Handlers.
Context `{CharDB} `{TextOps}.

(** The handlers work on [decision_bot.sessions] and numpy's generator;
    each sends one reply, and a reply of [None] is an exception that leaves
    the handler. *)
Definition handle_start_assignment (w : gmap string session * rng) (text : list N)
    (group_id : option string) : gmap string session * rng * option chat_reply :=
  match in_group group_id with
  | None => (w, Some OnlyInGroupChats)
  | Some g =>
      let items_text := strip (replace_with_empty (codes "start assignment") text) in
      match items_text with
      | [] => (w, Some PleaseSpecifyItems)
      | _ =>
          let items := (λ item, label (strip item)) <$> split comma items_text in
          if decide (length items < 2) then (w, Some AtLeastTwoItems)
          else
            let (sessions, success) := start_session w.1 g items in
            (sessions, w.2,
             Some (if success then StartingSession items else SessionInProgress))
      end
  end.

Definition handle_status (w : gmap string session * rng) (group_id : option string)
  : gmap string session * rng * option chat_reply :=
  match in_group group_id with
  | None => (w, Some OnlyInGroupChats)
  | Some g => (w, Some (BotReply (get_status w.1 g)))
  end.

Definition handle_run_algorithm (w : gmap string session * rng) (group_id : option string)
  : gmap string session * rng * option chat_reply :=
  match in_group group_id with
  | None => (w, Some OnlyInGroupChats)
  | Some g =>
      let (sessions, result) := run_algorithm w.1 g in
      (sessions, w.2, Some (BotReply result))
  end.

Definition handle_make_assignments (w : gmap string session * rng)
    (group_id : option string) : gmap string session * rng * option chat_reply :=
  match in_group group_id with
  | None => (w, Some OnlyInGroupChats)
  | Some g =>
      let '(sessions, result, g') := make_final_assignments w.1 g w.2 in
      (sessions, g', BotReply <$> result)
  end.

Definition handle_cancel (w : gmap string session * rng) (group_id : option string)
  : gmap string session * rng * option chat_reply :=
  match in_group group_id with
  | None => (w, Some OnlyInGroupChats)
  | Some g =>
      let (sessions, success) := cancel_session w.1 g in
      (sessions, w.2, Some (if success then SessionCancelled else NoSessionToCancel))
  end.

Definition handle_ranking (w : gmap string session * rng) (text : list N)
    (user_id : string) (group_id : option string)
  : gmap string session * rng * option chat_reply :=
  match in_group group_id with
  | None => (w, Some OnlyInGroupChats)
  | Some g =>
      let ranking_text :=
        if startswith (lower text) (codes "rank")
        then strip (replace_with_empty (codes "rank") text)
        else text in
      let (sessions, result) := submit_ranking w.1 g user_id ranking_text in
      (sessions, w.2, (λ sm, BotReply sm.2) <$> result)
  end.

(** [handle_message]: the dispatch on the stripped text. *)
Definition handle_message (w : gmap string session * rng) (e : event)
  : gmap string session * rng * option chat_reply :=
  let user_id := e.(source_user_id) in
  let group_id := e.(source_group_id) in
  let text := strip e.(message_text) in
  if startswith (lower text) (codes "start assignment") then
    handle_start_assignment w text group_id
  else if decide (lower text = codes "help") then (w, Some HelpText)
  else if decide (lower text = codes "status") then handle_status w group_id
  else if decide (lower text = codes "run algorithm") then handle_run_algorithm w group_id
  else if decide (lower text = codes "make assignments") then
    handle_make_assignments w group_id
  else if decide (lower text = codes "cancel") then handle_cancel w group_id
  else if startswith (lower text) (codes "rank") then
    handle_ranking w text user_id group_id
  else
    match in_group group_id with
    | Some _ =>
        match is_ranking_format text None with
        | None => (w, None)
        | Some true => handle_ranking w text user_id group_id
        | Some false => (w, Some DidNotUnderstand)
        end
    | None => (w, Some DidNotUnderstand)
    end.

(** The webhook receiving one message after the other. *)
Definition handle_messages (w : gmap string session * rng) (es : list event)
  : gmap string session * rng :=
  foldl (λ w e, (handle_message w e).1) w es.

End Handlers.

(** * Specification vocabulary *)

(** [sep.join(tokens)] *)
Fixpoint join (sep : N) (tokens : list (list N)) : list N :=
  match tokens with
  | [] => []
  | [t] => t
  | t :: ts => t ++ sep :: join sep ts
  end.

Section ValidatorVocabulary.
Context `{CharDB}.

(** A token of the pattern: a non-empty run of decimal digits. *)
Definition digits (t : list N) : Prop := t ≠ [] ∧ Forall (λ c, is_digit c = true) t.

(** The text, after whitespace removal, is the digit groups [tokens]
    separated by single commas. *)
Definition ranking_shape (text : list N) (tokens : list (list N)) : Prop :=
  tokens ≠ [] ∧ Forall digits tokens ∧ remove_whitespace text = join comma tokens.

(** No number of the text is longer than [int()] converts. *)
Definition numbers_within_limit (text : list N) : Prop :=
  Forall (λ t, length t ≤ int_max_str_digits) (split comma (remove_whitespace text)).

(** The validator's contract in the words of the specification: after
    whitespace removal the text is digit groups separated by single commas,
    and the groups parse to exactly [n] numbers that are a permutation of
    [1..n]. *)
Definition ranking_spec (text : list N) (n : nat) : Prop :=
  ∃ tokens numbers,
    tokens ≠ [] ∧ Forall digits tokens
    ∧ remove_whitespace text = join comma tokens
    ∧ Forall2 (λ t k, decimal_value t = Some k) tokens numbers
    ∧ length numbers = n ∧ numbers ≡ₚ seq 1 n.

End ValidatorVocabulary.

Section SolverVocabulary.
Local Open Scope Q_scope.

(** The persons whose top choice is item [j]. *)
Definition eaters_of (tc : list (option nat)) (j : nat) : list nat :=
  filter (λ p, tc !! p = Some (Some j)) (seq 0 (length tc)).

(** Each list of eaters is duplicate free and no person eats two items. *)
Definition eaters_wf (eaters : list (list nat)) : Prop :=
  (∀ j es, eaters !! j = Some es → NoDup es) ∧
  (∀ j j' es es' p, eaters !! j = Some es → eaters !! j' = Some es' →
     p ∈ es → p ∈ es' → j = j').

(** The sum of column [j] of a matrix, [M.sum(axis=0)[j]]. *)
Definition column (j : nat) (M : list (list Q)) : Q :=
  Qsum ((λ row, default 0 (row !! j)) <$> M).

(** [x < y] on rationals is decidable. *)
Global Instance Qlt_decision (x y : Q) : Decision (x < y) :=
  match Qlt_le_dec x y with
  | left H => left H
  | right H => right (Qle_not_lt _ _ H)
  end.

(** Number of items and persons that are not yet exhausted. *)
Definition above (l : list Q) : nat := length (filter (λ r, eps < r) l).

(** The measure of the loop. *)
Definition active (st : eat_state) : nat :=
  (above st.(item_remaining) + above st.(person_remaining))%nat.

(** The invariant of the loop on [n] participants and [m] items: the
    shapes, nothing negative, and the two balance equations (what a person
    holds and still wants is 1, what was eaten of an item and what is left
    of it is 1). *)
Record state_inv (n m : nat) (st : eat_state) : Prop := {
  inv_items : length st.(item_remaining) = m;
  inv_persons : length st.(person_remaining) = n;
  inv_prob : length st.(prob) = n;
  inv_item_nonneg : ∀ j r, st.(item_remaining) !! j = Some r → 0 <= r;
  inv_person_nonneg : ∀ p r, st.(person_remaining) !! p = Some r → 0 <= r;
  inv_rows : ∀ p row, st.(prob) !! p = Some row →
    length row = m ∧ Forall (λ x, 0 <= x) row
    ∧ ∃ r, st.(person_remaining) !! p = Some r ∧ Qsum row + r == 1;
  inv_columns : ∀ j r, st.(item_remaining) !! j = Some r →
    column j st.(prob) + r == 1
}.

(** What a completed round did, with the clamps resolved. *)
Record round_facts (n_items : nat) (st st' : eat_state)
    (tc : list (option nat)) (dt : Q) : Prop := {
  rf_length : length tc = length st.(person_remaining);
  rf_items_length : length st'.(item_remaining) = length st.(item_remaining);
  rf_pos : 0 < dt;
  rf_range : ∀ p j, tc !! p = Some (Some j) → (j < n_items)%nat;
  rf_item_bound : ∀ j r, st.(item_remaining) !! j = Some r → eaters_of tc j ≠ [] →
    eps < r ∧ dt * of_nat (length (eaters_of tc j)) <= r;
  rf_person_bound : ∀ p r j, st.(person_remaining) !! p = Some r →
    tc !! p = Some (Some j) → eps < r ∧ dt <= r;
  rf_items : ∀ j, st'.(item_remaining) !! j =
    (λ r, if decide (eaters_of tc j = []) then r
          else r - dt * of_nat (length (eaters_of tc j))) <$> st.(item_remaining) !! j;
  rf_persons : st'.(person_remaining) =
    zip_with (λ r t, match t with Some _ => r - dt | None => r end)
      st.(person_remaining) tc;
  rf_prob : st'.(prob) =
    zip_with (λ row t, match t with Some j => alter (λ x, x + dt) j row | None => row end)
      st.(prob) tc;
  rf_event :
    (∃ j r, st.(item_remaining) !! j = Some r ∧ eaters_of tc j ≠ []
       ∧ r - dt * of_nat (length (eaters_of tc j)) == 0)
    ∨ (∃ p r j, st.(person_remaining) !! p = Some r ∧ tc !! p = Some (Some j)
       ∧ r - dt == 0)
}.

(** Leaving the loop through [break]: no hungry person has an item left. *)
Definition no_eligible (pm : list (list nat)) (st : eat_state) : Prop :=
  ∀ p rp row, st.(person_remaining) !! p = Some rp → pm !! p = Some row →
    eps < rp → ∀ j, j ∈ row → ∃ r, st.(item_remaining) !! j = Some r ∧ r <= eps.

(** Every participant ranks every item exactly once. *)
Definition full_rankings (n_items : nat) (preferences : list (string * list nat)) : Prop :=
  ∀ kv, kv ∈ preferences → kv.2 ≡ₚ seq 0 n_items.

(** A row that is a categorical distribution over [m] items. *)
Definition distribution (m : nat) (row : list Q) : Prop :=
  length row = m ∧ Forall (λ x, 0 <= x) row ∧ Qsum row == 1.

(** Entrywise equality of two matrices of rationals. *)
Definition matrix_eq (M M' : list (list Q)) : Prop := Forall2 (Forall2 Qeq) M M'.


End SolverVocabulary.

(** The three updates a session goes through. *)
Definition with_preferences (s : session) (prefs : list (string * list nat)) : session :=
  {| items := s.(items); preferences := prefs; status := s.(status);
     probabilities := s.(probabilities); final_assignments := s.(final_assignments) |}.

Definition with_probabilities (s : session) (M : list (list Q)) : session :=
  {| items := s.(items); preferences := s.(preferences); status := algorithm_run;
     probabilities := Some M; final_assignments := s.(final_assignments) |}.

Definition with_assignments (s : session) (assignments : list nat) : session :=
  {| items := s.(items); preferences := s.(preferences); status := completed;
     probabilities := s.(probabilities); final_assignments := Some assignments |}.

(** What every session the bot can hold satisfies. *)
Record session_wf (s : session) : Prop := {
  wf_keys : NoDup (keys s.(preferences));
  wf_rankings : full_rankings (length s.(items)) s.(preferences);
  wf_items : s.(preferences) ≠ [] → s.(items) ≠ [];
  wf_collecting : s.(status) = collecting →
    s.(probabilities) = None ∧ s.(final_assignments) = None;
  wf_algorithm_run : s.(status) ≠ collecting →
    length s.(items) ≤ length s.(preferences)
    ∧ is_Some s.(probabilities)
    ∧ s.(probabilities) = _bogomolnaia_moulin s.(items) s.(preferences);
  wf_final : is_Some s.(final_assignments) ↔ s.(status) = completed
}.

(** The invariant of the store. *)
Definition bot_wf (sessions : gmap string session) : Prop :=
  ∀ g s, sessions !! g = Some s → session_wf s.

(** [session['probabilities']] of a group's session. *)
Definition stored_matrix (sessions : gmap string session) (g : string)
  : option (list (list Q)) :=
  s ← sessions !! g; s.(probabilities).

(** The classic three-by-three case of the tests: a session in which
    participants 1 and 2 rank A > B > C and participant 3 ranks B > A > C. *)
Definition classic_session : session :=
  {| items := ["A"; "B"; "C"];
     preferences := [("user1", [0; 1; 2]); ("user2", [0; 1; 2]); ("user3", [1; 0; 2])];
     status := collecting; probabilities := None; final_assignments := None |}.

(** Three participants who all rank the same two items the same way. *)
Definition crowded_session : session :=
  {| items := ["A"; "B"];
     preferences := [("user1", [0; 1]); ("user2", [0; 1]); ("user3", [0; 1])];
     status := collecting; probabilities := None; final_assignments := None |}.

(** The commands of [test_algorithm_correctness] up to the last ranking. *)
Definition classic_commands : list command :=
  [ StartSession "correctness_test" ["A"; "B"; "C"];
    SubmitRanking "correctness_test" "user1" (codes "1,2,3");
    SubmitRanking "correctness_test" "user2" (codes "1,2,3");
    SubmitRanking "correctness_test" "user3" (codes "2,1,3") ].

(** The store those commands build, on ASCII text. *)
Definition classic_store : gmap string session :=
  (run_commands (H:=ascii_db) (∅, λ _, 0%Q) classic_commands).1.


Section StoreVocabulary.
Context `{CharDB}.

(** The stores the bot can be in: those a run of commands builds from the
    empty store. *)
Definition reachable (sessions : gmap string session) : Prop :=
  ∃ cs rng, (run_commands (∅, rng) cs).1 = sessions.

(** Whether a command is a [run_algorithm] on group [g] that succeeds. *)
Definition run_succeeds (g : string) (w : gmap string session * rng) (c : command)
  : bool :=
  match c with
  | RunAlgorithm g' =>
      bool_decide (g' = g)
      && match (run_algorithm w.1 g).2 with
         | AlgorithmResults _ => true
         | _ => false
         end
  | _ => false
  end.

(** Number of successful [run_algorithm] calls on group [g] along a run of
    commands. *)
Fixpoint successful_runs (g : string) (w : gmap string session * rng)
    (cs : list command) : nat :=
  match cs with
  | [] => 0
  | c :: cs' =>
      (if run_succeeds g w c then 1 else 0) + successful_runs g (step w c) cs'
  end.

End StoreVocabulary.

(** ** Further vocabulary *)

(** The session [start_session] creates. *)
Definition new_session (items : list string) : session :=
  {| items := items; preferences := []; status := collecting;
     probabilities := None; final_assignments := None |}.

(** The group a command is addressed to. *)
Definition command_group (c : command) : string :=
  match c with
  | StartSession g _ | CancelSession g | SubmitRanking g _ _
  | GetStatus g | RunAlgorithm g | MakeFinalAssignments g => g
  end.

(** [d[k]] on an insertion-ordered dict; [None] is its [KeyError]. *)
Fixpoint dict_get {V : Type} (k : string) (d : list (string * V)) : option V :=
  match d with
  | [] => None
  | kv :: d' => if decide (kv.1 = k) then Some kv.2 else dict_get k d'
  end.


(** Every stored list of final assignments has one entry per participant. *)
Definition assignments_wf (sessions : gmap string session) : Prop :=
  ∀ g s a, sessions !! g = Some s → s.(final_assignments) = Some a →
    length a = length s.(preferences).

Section SolverVocabulary2.
Local Open Scope Q_scope.

(** The item a ranking puts first. *)
Definition first_choice (ranking : list nat) : option nat := head ranking.

(** A ranking the solver cannot work with: numpy refuses to store it as a
    row of [n_items] entries (it has neither [n_items] entries nor one), or
    its first entry is not an index of [item_remaining]. *)
Definition malformed (n_items : nat) (ranking : list nat) : Prop :=
  (length ranking ≠ n_items ∧ length ranking ≠ 1%nat)
  ∨ (∃ j rest, ranking = j :: rest ∧ (n_items ≤ j)%nat ∧ (0 < n_items)%nat).

(** The row that gives all of item [j] and nothing else. *)
Definition sure_of (j : nat) (row : list Q) : Prop :=
  ∀ k x, row !! k = Some x → x == (if decide (k = j) then 1 else 0).

(** The draws that make the rounding step hand out the items [want], one
    per participant: for each row the point of [[0, 1)] where the share of
    the wanted item begins. *)
Definition draws_for (M : list (list Q)) (want : list nat) : rng :=
  λ p, match M !! p, want !! p with
       | Some row, Some j => Qsum (take j row)
       | _, _ => 0
       end.

End SolverVocabulary2.

(** What the handlers add to the invariant of the store: a session is
    filed under a non-empty group id and has at least two items. *)
Definition chat_wf (sessions : gmap string session) : Prop :=
  ∀ g s, sessions !! g = Some s → g ≠ EmptyString ∧ 2 ≤ length s.(items).

Section AdapterVocabulary.
Context `{CharDB} `{TextOps}.

(** The stores the chat can bring about: those a run of messages builds
    from the empty store. *)
Definition chat_reachable (sessions : gmap string session) : Prop :=
  ∃ es rng, (handle_messages (∅, rng) es).1 = sessions.

End AdapterVocabulary.

(** * Proofs *)

(** ** Folds of in-place updates *)

Section FoldAlter.
Context {A : Type}.

(** A run of updates [l[p] = h j (l[p])] over pairs [(p, j)] with distinct
    first components changes exactly the listed positions. *)
Lemma foldl_alter_lookup_notin (h : nat → A → A) (pairs : list (nat * nat))
    (l : list A) (p : nat) :
  p ∉ pairs.*1 →
  foldl (λ l pj, alter (h pj.2) pj.1 l) l pairs !! p = l !! p.
Proof.
  revert l. induction pairs as [|[p' j'] pairs IH]; intros l Hp; [done|].
  apply not_elem_of_cons in Hp as [Hne Hp]. simpl.
  rewrite IH by done. by apply list_lookup_alter_ne.
Qed.

Lemma foldl_alter_lookup_in (h : nat → A → A) (pairs : list (nat * nat))
    (l : list A) (p j : nat) :
  NoDup pairs.*1 → (p, j) ∈ pairs →
  foldl (λ l pj, alter (h pj.2) pj.1 l) l pairs !! p = h j <$> l !! p.
Proof.
  revert l. induction pairs as [|[p' j'] pairs IH]; intros l Hnd Hin.
  - by apply elem_of_nil in Hin.
  - apply NoDup_cons in Hnd as [Hp' Hnd]. simpl.
    apply elem_of_cons in Hin as [[= <- <-]|Hin].
    + rewrite foldl_alter_lookup_notin by done. apply list_lookup_alter_eq.
    + rewrite IH by done. rewrite list_lookup_alter_ne; [done|].
      intros ->. apply Hp'. apply list_elem_of_fmap. by exists (p, j).
Qed.

Lemma foldl_alter_length (h : nat → A → A) (pairs : list (nat * nat)) (l : list A) :
  length (foldl (λ l pj, alter (h pj.2) pj.1 l) l pairs) = length l.
Proof.
  revert l. induction pairs as [|pj pairs IH]; intros l; [done|].
  simpl. by rewrite IH, length_alter.
Qed.

End FoldAlter.

(** ** The eating step, position by position *)

Section Eat.
Local Open Scope Q_scope.

Lemma eat_person_foldl (dt : Q) (itm : nat) (es : list nat) (st : eat_state) :
  foldl (eat_person dt itm) st es =
  {| item_remaining := st.(item_remaining);
     person_remaining :=
       foldl (λ l pj, alter (λ r, clamp0 (r - dt)) pj.1 l) st.(person_remaining)
         ((λ p, (p, itm)) <$> es);
     prob :=
       foldl (λ l pj, alter (alter (λ x, x + dt) pj.2) pj.1 l) st.(prob)
         ((λ p, (p, itm)) <$> es) |}.
Proof.
  revert st. induction es as [|p es IH]; intros st; [by destruct st|].
  simpl. by rewrite IH.
Qed.

Lemma eat_item_item_remaining dt st itm es :
  item_remaining (eat_item dt st (itm, es)) =
  match es with
  | [] => st.(item_remaining)
  | _ => alter (λ r, clamp0 (r - dt * of_nat (length es))) itm st.(item_remaining)
  end.
Proof.
  unfold eat_item. destruct es as [|e es]; [done|].
  cbn [snd fst]. by rewrite eat_person_foldl.
Qed.

Lemma eat_item_person_remaining dt st itm es :
  person_remaining (eat_item dt st (itm, es)) =
  foldl (λ l pj, alter (λ r, clamp0 (r - dt)) pj.1 l) st.(person_remaining)
    ((λ p, (p, itm)) <$> es).
Proof.
  unfold eat_item. destruct es as [|e es]; [done|].
  cbn [snd fst]. by rewrite eat_person_foldl.
Qed.

Lemma eat_item_prob dt st itm es :
  prob (eat_item dt st (itm, es)) =
  foldl (λ l pj, alter (alter (λ x, x + dt) pj.2) pj.1 l) st.(prob)
    ((λ p, (p, itm)) <$> es).
Proof.
  unfold eat_item. destruct es as [|e es]; [done|].
  cbn [snd fst]. by rewrite eat_person_foldl.
Qed.

Lemma eat_snoc dt st eaters es :
  eat dt st (eaters ++ [es]) = eat_item dt (eat dt st eaters) (length eaters, es).
Proof.
  unfold eat. rewrite imap_app, foldl_app. simpl. by rewrite Nat.add_0_r.
Qed.

Lemma fmap_pair_fst (itm : nat) (es : list nat) : ((λ p, (p, itm)) <$> es).*1 = es.
Proof. rewrite <- list_fmap_compose. apply list_fmap_id. Qed.


Lemma eaters_wf_app eaters es : eaters_wf (eaters ++ [es]) → eaters_wf eaters.
Proof.
  intros [Hnd Hdisj]. split.
  - intros j es' Hj. apply (Hnd j). by apply lookup_app_l_Some.
  - intros j j' e e' p Hj Hj'. apply Hdisj; by apply lookup_app_l_Some.
Qed.

Lemma eat_item_remaining_lookup dt st eaters j :
  item_remaining (eat dt st eaters) !! j =
  match eaters !! j with
  | Some (e :: es) =>
      (λ r, clamp0 (r - dt * of_nat (length (e :: es)))) <$> st.(item_remaining) !! j
  | _ => st.(item_remaining) !! j
  end.
Proof.
  induction eaters as [|es eaters IH] using rev_ind; [done|].
  rewrite eat_snoc, eat_item_item_remaining.
  destruct (decide (j = length eaters)) as [->|Hne].
  - rewrite list_lookup_middle by done.
    rewrite (lookup_ge_None_2 eaters (length eaters)) in IH by lia.
    destruct es as [|e es]; [done|].
    by rewrite list_lookup_alter_eq, IH.
  - assert ((eaters ++ [es]) !! j = eaters !! j) as ->.
    { destruct (decide (j < length eaters)%nat).
      - by apply lookup_app_l.
      - rewrite !lookup_ge_None_2; [done|lia|]. rewrite length_app. simpl. lia. }
    destruct es as [|e es]; [done|].
    by rewrite list_lookup_alter_ne.
Qed.

Lemma eat_lookup_person dt st eaters p :
  eaters_wf eaters →
  (∀ j es, eaters !! j = Some es → p ∈ es →
     person_remaining (eat dt st eaters) !! p
       = (λ r, clamp0 (r - dt)) <$> st.(person_remaining) !! p
     ∧ prob (eat dt st eaters) !! p = alter (λ x, x + dt) j <$> st.(prob) !! p)
  ∧ ((∀ j es, eaters !! j = Some es → p ∉ es) →
     person_remaining (eat dt st eaters) !! p = st.(person_remaining) !! p
     ∧ prob (eat dt st eaters) !! p = st.(prob) !! p).
Proof.
  induction eaters as [|es0 eaters IH] using rev_ind; intros Hwf.
  { split; [intros j es Hj; by rewrite lookup_nil in Hj|done]. }
  destruct (IH (eaters_wf_app _ _ Hwf)) as [IH1 IH2]. clear IH.
  destruct Hwf as [Hnd Hdisj].
  rewrite eat_snoc, eat_item_person_remaining, eat_item_prob.
  assert (Hlast : (eaters ++ [es0]) !! length eaters = Some es0)
    by by apply list_lookup_middle.
  split.
  - intros j es Hj Hp.
    destruct (decide (j = length eaters)) as [->|Hne].
    + assert (es = es0) as -> by congruence.
      destruct IH2 as [E1 E2].
      { intros j' es' Hj' Hp'.
        assert (j' = length eaters); [|subst j'].
        { eapply Hdisj; [|exact Hlast|done..]. by apply lookup_app_l_Some. }
        apply lookup_lt_Some in Hj'. lia. }
      assert (NoDup ((λ p0, (p0, length eaters)) <$> es0).*1).
      { rewrite fmap_pair_fst. by eapply Hnd. }
      assert ((p, length eaters) ∈ (λ p0, (p0, length eaters)) <$> es0).
      { apply list_elem_of_fmap. by exists p. }
      split.
      * by rewrite (foldl_alter_lookup_in (λ _ r, clamp0 (r - dt)) _ _ p (length eaters)), E1.
      * by rewrite (foldl_alter_lookup_in (λ j x, alter (λ x, x + dt) j x) _ _ p (length eaters)), E2.
    + assert (Hj0 : eaters !! j = Some es).
      { rewrite lookup_app_l in Hj; [done|].
        apply lookup_lt_Some in Hj. rewrite length_app in Hj. simpl in Hj. lia. }
      destruct (IH1 j es Hj0 Hp) as [E1 E2].
      assert (p ∉ ((λ p0, (p0, length eaters)) <$> es0).*1).
      { rewrite fmap_pair_fst. intros Hp0. apply Hne.
        by eapply (Hdisj j (length eaters) es es0 p). }
      split.
      * by rewrite (foldl_alter_lookup_notin (λ _ r, clamp0 (r - dt))), E1.
      * by rewrite (foldl_alter_lookup_notin (λ j x, alter (λ x, x + dt) j x)), E2.
  - intros Hnone.
    destruct IH2 as [E1 E2].
    { intros j es Hj. apply (Hnone j). by apply lookup_app_l_Some. }
    assert (p ∉ ((λ p0, (p0, length eaters)) <$> es0).*1).
    { rewrite fmap_pair_fst. by apply (Hnone (length eaters)). }
    split.
    * by rewrite (foldl_alter_lookup_notin (λ _ r, clamp0 (r - dt))), E1.
    * by rewrite (foldl_alter_lookup_notin (λ j x, alter (λ x, x + dt) j x)), E2.
Qed.

Lemma eat_lengths dt st eaters :
  length (item_remaining (eat dt st eaters)) = length st.(item_remaining)
  ∧ length (person_remaining (eat dt st eaters)) = length st.(person_remaining)
  ∧ length (prob (eat dt st eaters)) = length st.(prob).
Proof.
  induction eaters as [|es0 eaters IH] using rev_ind; [done|].
  rewrite eat_snoc, eat_item_item_remaining, eat_item_person_remaining, eat_item_prob.
  destruct IH as (IH1 & IH2 & IH3).
  rewrite (foldl_alter_length (λ _ r, clamp0 (r - dt))).
  rewrite (foldl_alter_length (λ j x, alter (λ x, x + dt) j x)).
  split; [|done]. destruct es0; [done|]. by rewrite length_alter.
Qed.

End Eat.

(** ** Who eats what: [eaters_per_item] *)


Lemma filter_ext_in {A} (P1 P2 : A → Prop) `{∀ x, Decision (P1 x)}
    `{∀ x, Decision (P2 x)} (l : list A) :
  (∀ x, x ∈ l → P1 x ↔ P2 x) → filter P1 l = filter P2 l.
Proof.
  induction l as [|x l IH]; intros Hext; [done|].
  rewrite !filter_cons.
  rewrite IH by (intros y Hy; apply Hext; by right).
  destruct (decide (P1 x)) as [HP|HP], (decide (P2 x)) as [HQ|HQ]; try done;
    exfalso; apply HQ || apply HP; apply (Hext x); (by left) || done.
Qed.

Lemma eaters_of_snoc tc t j :
  eaters_of (tc ++ [t]) j =
  eaters_of tc j ++ (if decide (t = Some j) then [length tc] else []).
Proof.
  unfold eaters_of. rewrite length_app. simpl.
  rewrite seq_app, filter_app. f_equal.
  - apply filter_ext_in. intros p Hp. apply elem_of_seq in Hp.
    rewrite lookup_app_l by lia. done.
  - simpl. rewrite filter_cons, filter_nil.
    rewrite list_lookup_middle by done.
    destruct (decide (t = Some j)) as [->|Hne].
    + by rewrite decide_True.
    + rewrite decide_False; [done|]. by intros [= ?].
Qed.

Lemma eaters_per_item_snoc n_items tc t :
  eaters_per_item n_items (tc ++ [t]) =
  add_eater (eaters_per_item n_items tc) (length tc, t).
Proof.
  unfold eaters_per_item. rewrite imap_app, foldl_app. simpl.
  by rewrite Nat.add_0_r.
Qed.

Lemma eaters_per_item_length n_items tc :
  length (eaters_per_item n_items tc) = n_items.
Proof.
  induction tc as [|t tc IH] using rev_ind.
  - apply length_replicate.
  - rewrite eaters_per_item_snoc. unfold add_eater. simpl.
    destruct t; [by rewrite length_alter|done].
Qed.

Lemma eaters_per_item_lookup n_items tc j :
  j < n_items → eaters_per_item n_items tc !! j = Some (eaters_of tc j).
Proof.
  intros Hj. induction tc as [|t tc IH] using rev_ind.
  - unfold eaters_per_item. simpl. by apply lookup_replicate_2.
  - rewrite eaters_per_item_snoc, eaters_of_snoc. unfold add_eater. simpl.
    destruct t as [j0|].
    + destruct (decide (j0 = j)) as [->|Hne].
      * rewrite list_lookup_alter_eq, IH. simpl. by rewrite decide_True.
      * rewrite list_lookup_alter_ne, IH by done.
        rewrite decide_False; [by rewrite app_nil_r|]. by intros [= ?].
    + rewrite IH, decide_False by done. by rewrite app_nil_r.
Qed.

Lemma elem_of_eaters_of tc j p : p ∈ eaters_of tc j ↔ tc !! p = Some (Some j).
Proof.
  unfold eaters_of. rewrite list_elem_of_filter, elem_of_seq. split; [tauto|].
  intros Hp. split; [done|]. apply lookup_lt_Some in Hp. lia.
Qed.

Lemma eaters_per_item_wf n_items tc : eaters_wf (eaters_per_item n_items tc).
Proof.
  assert (Hl : ∀ j es, eaters_per_item n_items tc !! j = Some es → es = eaters_of tc j).
  { intros j es Hj. assert (j < n_items).
    { apply lookup_lt_Some in Hj. by rewrite eaters_per_item_length in Hj. }
    rewrite eaters_per_item_lookup in Hj by done. congruence. }
  split.
  - intros j es Hj. rewrite (Hl _ _ Hj). apply NoDup_filter, NoDup_seq.
  - intros j j' es es' p Hj Hj'. rewrite (Hl _ _ Hj), (Hl _ _ Hj').
    rewrite !elem_of_eaters_of. congruence.
Qed.

(** ** Top choices and candidate durations *)

Section Round.
Local Open Scope Q_scope.

Lemma first_available_Some ir row j :
  first_available ir row = Some (Some j) →
  j ∈ row ∧ ∃ r, ir !! j = Some r ∧ eps < r.
Proof.
  induction row as [|i row IH]; [done|]. simpl.
  destruct (ir !! i) as [r|] eqn:Hi; [|done]. simpl.
  destruct (Qlt_le_dec eps r) as [Hr|Hr].
  - intros [= <-]. split; [by left|]. eauto.
  - intros Hrec. destruct (IH Hrec) as [? ?]. split; [by right|done].
Qed.

Lemma first_available_None ir row :
  first_available ir row = Some None →
  ∀ j, j ∈ row → ∃ r, ir !! j = Some r ∧ r <= eps.
Proof.
  induction row as [|i row IH]; intros Hf j Hj; [by apply elem_of_nil in Hj|].
  simpl in Hf. destruct (ir !! i) as [r|] eqn:Hi; [|done]. simpl in Hf.
  destruct (Qlt_le_dec eps r) as [Hr|Hr]; [done|].
  apply elem_of_cons in Hj as [->|Hj]; eauto.
Qed.

Lemma first_available_is_Some ir row :
  Forall (λ j, (j < length ir)%nat) row → is_Some (first_available ir row).
Proof.
  induction 1 as [|i row Hi _ IH]; [by eexists|]. simpl.
  destruct (lookup_lt_is_Some_2 ir i Hi) as [r ->]. simpl.
  destruct (Qlt_le_dec eps r); [by eexists|done].
Qed.

Lemma top_choice_length pm st tc :
  top_choice pm st = Some tc → length pm = length st.(person_remaining) →
  length tc = length st.(person_remaining).
Proof.
  intros Htc Hlen. apply length_mapM in Htc. rewrite <- Htc.
  rewrite length_zip_with. lia.
Qed.

Lemma top_choice_lookup pm st tc p t :
  top_choice pm st = Some tc → tc !! p = Some t →
  ∃ rp row, st.(person_remaining) !! p = Some rp ∧ pm !! p = Some row
    ∧ top_choice_of st.(item_remaining) (rp, row) = Some t.
Proof.
  intros Htc Hp. apply mapM_Some_1 in Htc.
  destruct (Forall2_lookup_r _ _ _ _ _ Htc Hp) as ([rp row] & Hz & Hf).
  apply lookup_zip_Some in Hz as [? ?]. eauto.
Qed.

Lemma top_choice_Some pm st tc p j :
  top_choice pm st = Some tc → tc !! p = Some (Some j) →
  ∃ rp r row, st.(person_remaining) !! p = Some rp ∧ eps < rp
    ∧ st.(item_remaining) !! j = Some r ∧ eps < r
    ∧ pm !! p = Some row ∧ j ∈ row.
Proof.
  intros Htc Hp. destruct (top_choice_lookup _ _ _ _ _ Htc Hp) as (rp & row & ? & ? & Hf).
  unfold top_choice_of in Hf. simpl in Hf.
  destruct (Qlt_le_dec eps rp); [|done].
  apply first_available_Some in Hf as (? & r & ? & ?).
  exists rp, r, row. done.
Qed.

Lemma top_choice_None pm st tc p :
  top_choice pm st = Some tc → tc !! p = Some None →
  ∃ rp row, st.(person_remaining) !! p = Some rp ∧ pm !! p = Some row
    ∧ (rp <= eps ∨ ∀ j, j ∈ row → ∃ r, st.(item_remaining) !! j = Some r ∧ r <= eps).
Proof.
  intros Htc Hp. destruct (top_choice_lookup _ _ _ _ _ Htc Hp) as (rp & row & ? & ? & Hf).
  unfold top_choice_of in Hf. simpl in Hf. exists rp, row. split_and!; [done..|].
  destruct (Qlt_le_dec eps rp); [|by left].
  right. by apply first_available_None.
Qed.

Lemma top_choice_is_Some pm st :
  Forall (Forall (λ j, (j < length st.(item_remaining))%nat)) pm →
  is_Some (top_choice pm st).
Proof.
  intros Hpm. apply mapM_is_Some, Forall_forall. intros [rp row] Hin.
  apply elem_of_zip_r in Hin. simpl.
  unfold top_choice_of. simpl. destruct (Qlt_le_dec eps rp); [|by eexists].
  apply first_available_is_Some. by eapply Forall_forall in Hpm.
Qed.

Lemma Qmin_cases x y : Qmin x y = x ∨ Qmin x y = y.
Proof.
  unfold Qmin, GenericMinMax.gmin. destruct (x ?= y); auto.
Qed.

Lemma foldl_Qmin_elem x xs : foldl Qmin x xs ∈ x :: xs.
Proof.
  revert x. induction xs as [|y xs IH]; intros x; [by left|]. simpl.
  specialize (IH (Qmin x y)). apply elem_of_cons in IH as [->|IH].
  - destruct (Qmin_cases x y) as [->| ->]; [by left|by right; left].
  - by do 2 right.
Qed.

Lemma foldl_Qmin_le_init x xs : foldl Qmin x xs <= x.
Proof.
  revert x. induction xs as [|y xs IH]; intros x; simpl; [apply Qle_refl|].
  eapply Qle_trans; [apply IH|apply Q.le_min_l].
Qed.

Lemma foldl_Qmin_le x xs c : c ∈ x :: xs → foldl Qmin x xs <= c.
Proof.
  revert x. induction xs as [|y xs IH]; intros x Hc; simpl.
  - apply list_elem_of_singleton in Hc as ->. apply Qle_refl.
  - apply elem_of_cons in Hc as [->|Hc].
    + eapply Qle_trans; [apply foldl_Qmin_le_init|apply Q.le_min_l].
    + apply elem_of_cons in Hc as [->|Hc].
      * eapply Qle_trans; [apply foldl_Qmin_le_init|apply Q.le_min_r].
      * apply IH. by right.
Qed.

Lemma py_min_Some l dt : py_min l = Some dt → dt ∈ l ∧ ∀ c, c ∈ l → dt <= c.
Proof.
  destruct l as [|x xs]; [done|]. intros [= <-]. split.
  - apply foldl_Qmin_elem.
  - intros c. apply foldl_Qmin_le.
Qed.

Lemma py_min_None l : py_min l = None → l = [].
Proof. by destruct l. Qed.

Lemma elem_of_dt_candidates st tc eaters c :
  c ∈ dt_candidates st tc eaters ↔
  (∃ j r e es, st.(item_remaining) !! j = Some r ∧ eaters !! j = Some (e :: es)
     ∧ c = r / of_nat (length (e :: es)))
  ∨ (∃ p r j, st.(person_remaining) !! p = Some r ∧ tc !! p = Some (Some j)
     ∧ eps < r ∧ c = r).
Proof.
  unfold dt_candidates. rewrite elem_of_app, !list_elem_of_omap. split.
  - intros [([r es] & Hin & Hc)|([r t] & Hin & Hc)].
    + left. apply list_elem_of_lookup in Hin as [j Hj].
      apply lookup_zip_Some in Hj as [? ?].
      unfold item_candidate in Hc. simpl in Hc. destruct es as [|e es]; [done|].
      injection Hc as <-. by exists j, r, e, es.
    + right. apply list_elem_of_lookup in Hin as [p Hp].
      apply lookup_zip_Some in Hp as [? ?].
      unfold person_candidate in Hc. simpl in Hc.
      destruct (Qlt_le_dec eps r); [|done]. destruct t as [j|]; [|done].
      injection Hc as <-. by exists p, r, j.
  - intros [(j & r & e & es & ? & ? & ->)|(p & r & j & ? & ? & ? & ->)].
    + left. exists (r, e :: es). split; [|done].
      apply list_elem_of_lookup. exists j. by apply lookup_zip_Some.
    + right. exists (r, Some j). split.
      * apply list_elem_of_lookup. exists p. by apply lookup_zip_Some.
      * unfold person_candidate. simpl. by destruct (Qlt_le_dec eps r); [|lra].
Qed.

End Round.

(** ** One round of eating *)

Section RoundFacts.
Local Open Scope Q_scope.







Lemma clamp0_nonneg x : 0 <= x → clamp0 x = x.
Proof. intros Hx. unfold clamp0. destruct (Qlt_le_dec x 0); [lra|done]. Qed.

Lemma of_nat_pos k : 0 < of_nat (S k).
Proof. unfold of_nat, Qlt. simpl. lia. Qed.

Lemma Qdiv_mult_le dt r k : 0 < k → dt <= r / k → dt * k <= r.
Proof.
  intros Hk Hdt. assert (dt * k <= r / k * k) by (apply Qmult_le_compat_r; lra).
  assert (r / k * k == r) by (field; lra). lra.
Qed.

(** A round that eats, with the choices and the duration it computed. *)
Lemma eat_round_Next_min pm n m st st' :
  state_inv n m st → length pm = n → eat_round pm m st = Next st' →
  ∃ tc dt, top_choice pm st = Some tc
    ∧ py_min (dt_candidates st tc (eaters_per_item m tc)) = Some dt
    ∧ round_facts m st st' tc dt.
Proof.
  intros Hinv Hpm Hround. unfold eat_round in Hround.
  destruct (top_choice pm st) as [tc|] eqn:Htc; [|done].
  destruct (py_min _) as [dt|] eqn:Hdt; [|done]. injection Hround as <-.
  exists tc, dt. split; [done|]. split; [done|].
  apply py_min_Some in Hdt as [Hin Hle].
  assert (Hlen : length tc = length st.(person_remaining)).
  { apply (top_choice_length pm); [done|]. by rewrite (inv_persons _ _ _ Hinv). }
  assert (Hrange : ∀ p j, tc !! p = Some (Some j) → (j < m)%nat).
  { intros p j Hp. destruct (top_choice_Some _ _ _ _ _ Htc Hp) as (_ & r & _ & _ & _ & Hj & _).
    apply lookup_lt_Some in Hj. by rewrite (inv_items _ _ _ Hinv) in Hj. }
  assert (Hitem : ∀ j r, st.(item_remaining) !! j = Some r → eaters_of tc j ≠ [] →
            eps < r ∧ dt * of_nat (length (eaters_of tc j)) <= r).
  { intros j r Hj Hne. destruct (eaters_of tc j) as [|e es] eqn:Hes; [done|].
    assert (He : e ∈ eaters_of tc j) by (rewrite Hes; by left).
    apply elem_of_eaters_of in He.
    destruct (top_choice_Some _ _ _ _ _ Htc He) as (_ & r' & _ & _ & _ & Hj' & Hr' & _).
    assert (r' = r) as -> by congruence. split; [done|].
    apply Qdiv_mult_le; [apply of_nat_pos|]. apply Hle.
    apply elem_of_dt_candidates. left. exists j, r, e, es. split_and!; [done| |done].
    rewrite eaters_per_item_lookup; [by rewrite Hes|]. by eapply Hrange. }
  assert (Hperson : ∀ p r j, st.(person_remaining) !! p = Some r →
            tc !! p = Some (Some j) → eps < r ∧ dt <= r).
  { intros p r j Hp Hj.
    destruct (top_choice_Some _ _ _ _ _ Htc Hj) as (r' & _ & _ & Hp' & Hr' & _).
    assert (r' = r) as -> by congruence. split; [done|].
    apply Hle, elem_of_dt_candidates. right. by exists p, r, j. }
  assert (Heps : 0 < eps) by done.
  assert (Hpos : 0 < dt).
  { apply elem_of_dt_candidates in Hin
      as [(j & r & e & es & Hj & Hes & ->)|(p & r & j & Hp & Hj & Hr & ->)]; [|lra].
    assert (j < m)%nat.
    { apply lookup_lt_Some in Hes. by rewrite eaters_per_item_length in Hes. }
    rewrite eaters_per_item_lookup in Hes by done. injection Hes as Hes.
    destruct (Hitem j r Hj) as [Hr _]; [by rewrite Hes|].
    apply Qlt_shift_div_l; [apply of_nat_pos|]. lra. }
  split; try done.
  - by destruct (eat_lengths dt st (eaters_per_item m tc)) as (-> & _).
  - (* items *)
    intros j. rewrite eat_item_remaining_lookup.
    destruct (decide (j < m)%nat) as [Hj|Hj].
    + rewrite eaters_per_item_lookup by done.
      destruct (st.(item_remaining) !! j) as [r|] eqn:Hr;
        [|by destruct (eaters_of tc j)].
      specialize (Hitem j r Hr).
      destruct (eaters_of tc j) as [|e es] eqn:Hes; [done|].
      cbn [fmap option_fmap option_map]. rewrite decide_False by done.
      f_equal. apply clamp0_nonneg.
      destruct Hitem as [_ ?]; [done|]. lra.
    + rewrite !lookup_ge_None_2; [done|..].
      * rewrite (inv_items _ _ _ Hinv). lia.
      * rewrite eaters_per_item_length. lia.
  - (* persons *)
    apply list_eq. intros p. rewrite lookup_zip_with.
    destruct (eat_lookup_person dt st (eaters_per_item m tc) p
                (eaters_per_item_wf m tc)) as [H1 H2].
    destruct (tc !! p) as [[j|]|] eqn:Hp.
    + destruct (H1 j (eaters_of tc j)) as [-> _].
      { apply eaters_per_item_lookup. by eapply Hrange. }
      { by apply elem_of_eaters_of. }
      destruct (st.(person_remaining) !! p) as [r|] eqn:Hr; [|done]. simpl.
      f_equal. apply clamp0_nonneg. destruct (Hperson p r j Hr Hp). lra.
    + destruct H2 as [-> _]; [|by destruct (st.(person_remaining) !! p)].
      intros j es Hj Hin'. assert (j < m)%nat.
      { apply lookup_lt_Some in Hj. by rewrite eaters_per_item_length in Hj. }
      rewrite eaters_per_item_lookup in Hj by done. injection Hj as <-.
      apply elem_of_eaters_of in Hin'. congruence.
    + apply lookup_ge_None in Hp.
      rewrite !lookup_ge_None_2; [done|lia|].
      destruct (eat_lengths dt st (eaters_per_item m tc)) as (_ & -> & _). lia.
  - (* prob *)
    apply list_eq. intros p. rewrite lookup_zip_with.
    destruct (eat_lookup_person dt st (eaters_per_item m tc) p
                (eaters_per_item_wf m tc)) as [H1 H2].
    destruct (tc !! p) as [[j|]|] eqn:Hp.
    + destruct (H1 j (eaters_of tc j)) as [_ ->].
      { apply eaters_per_item_lookup. by eapply Hrange. }
      { by apply elem_of_eaters_of. }
      by destruct (st.(prob) !! p).
    + destruct H2 as [_ ->]; [|by destruct (st.(prob) !! p)].
      intros j es Hj Hin'. assert (j < m)%nat.
      { apply lookup_lt_Some in Hj. by rewrite eaters_per_item_length in Hj. }
      rewrite eaters_per_item_lookup in Hj by done. injection Hj as <-.
      apply elem_of_eaters_of in Hin'. congruence.
    + apply lookup_ge_None in Hp.
      rewrite !lookup_ge_None_2; [done| |].
      * rewrite (inv_prob _ _ _ Hinv), <- (inv_persons _ _ _ Hinv). lia.
      * destruct (eat_lengths dt st (eaters_per_item m tc)) as (_ & _ & ->).
        rewrite (inv_prob _ _ _ Hinv), <- (inv_persons _ _ _ Hinv). lia.
  - (* the event *)
    apply elem_of_dt_candidates in Hin
      as [(j & r & e & es & Hj & Hes & Hdt)|(p & r & j & Hp & Hj & Hr & Hdt)].
    + left. exists j, r. assert (j < m)%nat.
      { apply lookup_lt_Some in Hes. by rewrite eaters_per_item_length in Hes. }
      rewrite eaters_per_item_lookup in Hes by done. injection Hes as Hes.
      rewrite Hes. split_and!; [done..|]. rewrite Hdt. field.
      pose proof (of_nat_pos (length es)). simpl in *. lra.
    + right. exists p, r, j. split_and!; [done..|]. rewrite Hdt. lra.
Qed.

Lemma eat_round_Next pm n m st st' :
  state_inv n m st → length pm = n → eat_round pm m st = Next st' →
  ∃ tc dt, top_choice pm st = Some tc ∧ round_facts m st st' tc dt.
Proof.
  intros Hinv Hpm Hround.
  destruct (eat_round_Next_min pm n m st st' Hinv Hpm Hround) as (tc & dt & ? & _ & ?).
  by exists tc, dt.
Qed.

End RoundFacts.

(** ** Sums *)

Section Sums.
Local Open Scope Q_scope.

Lemma Qsum_app l k : Qsum (l ++ k) == Qsum l + Qsum k.
Proof.
  induction l as [|x l IH]; simpl; [lra|]. unfold Qsum in *. simpl. lra.
Qed.

Lemma Qsum_nonneg l : Forall (λ x, 0 <= x) l → 0 <= Qsum l.
Proof.
  induction 1 as [|x l Hx _ IH]; unfold Qsum in *; simpl; lra.
Qed.

Lemma Qsum_alter_add dt j row :
  (j < length row)%nat → Qsum (alter (λ x, x + dt) j row) == Qsum row + dt.
Proof.
  revert j. induction row as [|x row IH]; intros j Hj; simpl in Hj; [lia|].
  destruct j as [|j]; unfold Qsum in *; simpl.
  - lra.
  - specialize (IH j ltac:(lia)). change (list_alter (λ x, x + dt) j row)
      with (alter (λ x, x + dt) j row). lra.
Qed.

Lemma of_nat_S k : of_nat (S k) == of_nat k + 1.
Proof.
  unfold of_nat. rewrite Nat2Z.inj_succ. unfold Z.succ.
  rewrite inject_Z_plus. reflexivity.
Qed.

Lemma of_nat_snoc (es : list nat) x :
  of_nat (length (es ++ [x])) == of_nat (length es) + 1.
Proof. rewrite length_app. simpl. rewrite Nat.add_1_r. apply of_nat_S. Qed.

Lemma column_snoc j M row : column j (M ++ [row]) == column j M + default 0 (row !! j).
Proof.
  unfold column. rewrite fmap_app, Qsum_app. unfold Qsum at 2. simpl. lra.
Qed.

Lemma column_eat dt j prob tc :
  length tc = length prob → Forall (λ row, (j < length row)%nat) prob →
  column j (zip_with
              (λ row t, match t with
                        | Some j' => alter (λ x, x + dt) j' row
                        | None => row
                        end) prob tc)
  == column j prob + dt * of_nat (length (eaters_of tc j)).
Proof.
  revert prob. induction tc as [|t tc IH] using rev_ind; intros prob Hlen Hrows.
  { destruct prob; [|done]. unfold column, Qsum, of_nat, eaters_of. simpl.
    change (inject_Z (Z.of_nat 0)) with 0. lra. }
  destruct prob as [|row prob _] using rev_ind.
  { rewrite length_app in Hlen. simpl in Hlen. lia. }
  rewrite !length_app in Hlen. simpl in Hlen.
  apply Forall_app in Hrows as [Hrows Hrow]. rewrite Forall_singleton in Hrow.
  rewrite zip_with_app by lia. simpl.
  rewrite !column_snoc, (IH prob) by (done || lia).
  rewrite eaters_of_snoc.
  destruct (lookup_lt_is_Some_2 row j Hrow) as [x Hx].
  destruct t as [j'|].
  - destruct (decide (j' = j)) as [->|Hne].
    + rewrite decide_True by done. rewrite of_nat_snoc.
      rewrite list_lookup_alter_eq, Hx. simpl. lra.
    + rewrite decide_False by (by intros [= ?]). rewrite app_nil_r.
      rewrite list_lookup_alter_ne by done. lra.
  - rewrite decide_False by done. rewrite app_nil_r. lra.
Qed.

End Sums.

(** ** The invariant and the measure of the loop *)

Section Invariant.
Local Open Scope Q_scope.

Lemma round_facts_inv n m st st' tc dt :
  state_inv n m st → round_facts m st st' tc dt → state_inv n m st'.
Proof.
  intros Hinv Hrf.
  pose proof (inv_items _ _ _ Hinv) as Hm.
  pose proof (inv_persons _ _ _ Hinv) as Hn.
  pose proof (inv_prob _ _ _ Hinv) as Hn'.
  pose proof (rf_length _ _ _ _ _ Hrf) as Hlen.
  pose proof (rf_pos _ _ _ _ _ Hrf) as Hpos.
  split.
  - by rewrite (rf_items_length _ _ _ _ _ Hrf).
  - rewrite (rf_persons _ _ _ _ _ Hrf), length_zip_with. lia.
  - rewrite (rf_prob _ _ _ _ _ Hrf), length_zip_with. lia.
  - intros j r'. rewrite (rf_items _ _ _ _ _ Hrf).
    destruct (st.(item_remaining) !! j) as [r|] eqn:Hr; [|done]. simpl.
    intros [= <-]. pose proof (inv_item_nonneg _ _ _ Hinv j r Hr).
    destruct (decide (eaters_of tc j = [])); [done|].
    destruct (rf_item_bound _ _ _ _ _ Hrf j r Hr) as [_ ?]; [done|]. lra.
  - intros p r'. rewrite (rf_persons _ _ _ _ _ Hrf).
    intros (r & t & -> & Hr & Ht)%lookup_zip_with_Some.
    pose proof (inv_person_nonneg _ _ _ Hinv p r Hr).
    destruct t as [j|]; [|done].
    destruct (rf_person_bound _ _ _ _ _ Hrf p r j Hr Ht). lra.
  - intros p row'. rewrite (rf_prob _ _ _ _ _ Hrf), (rf_persons _ _ _ _ _ Hrf).
    intros (row & t & -> & Hrow & Ht)%lookup_zip_with_Some.
    destruct (inv_rows _ _ _ Hinv p row Hrow) as (Hlrow & Hnn & r & Hr & Hsum).
    rewrite lookup_zip_with, Hr, Ht. simpl.
    destruct t as [j|].
    + pose proof (rf_range _ _ _ _ _ Hrf p j Ht).
      split_and!.
      * by rewrite length_alter.
      * apply Forall_alter; [done|]. intros x _ Hx. simpl in Hx. lra.
      * eexists. split; [done|].
        rewrite Qsum_alter_add by lia. lra.
    + split_and!; [done..|]. by exists r.
  - intros j r'. rewrite (rf_items _ _ _ _ _ Hrf).
    destruct (st.(item_remaining) !! j) as [r|] eqn:Hr; [|done]. simpl.
    intros [= <-]. pose proof (inv_columns _ _ _ Hinv j r Hr) as Hcol.
    assert (Hj : (j < m)%nat) by (apply lookup_lt_Some in Hr; lia).
    rewrite (rf_prob _ _ _ _ _ Hrf), column_eat.
    + destruct (decide (eaters_of tc j = [])) as [->|_]; [|lra].
      change (of_nat (length [])) with 0. lra.
    + lia.
    + apply Forall_forall. intros row Hin.
      apply list_elem_of_lookup in Hin as [p Hp].
      destruct (inv_rows _ _ _ Hinv p row Hp) as (-> & _). done.
Qed.

Lemma count_above_le (l l' : list Q) :
  Forall2 (λ a b, b <= a) l l' →
  (above l' ≤ above l)%nat.
Proof.
  unfold above. induction 1 as [|a b l l' Hab _ IH]; [done|].
  rewrite !filter_cons.
  destruct (decide (eps < b)), (decide (eps < a)); simpl; try lia. lra.
Qed.

Lemma count_above_lt (l l' : list Q) i a b :
  Forall2 (λ a b, b <= a) l l' →
  l !! i = Some a → l' !! i = Some b → eps < a → b <= eps →
  (above l' < above l)%nat.
Proof.
  intros Hall. revert i. induction Hall as [|a0 b0 l l' Hab Hall IH]; intros i Ha Hb Hgt Hle'.
  { by rewrite lookup_nil in Ha. }
  unfold above in *. rewrite !filter_cons. destruct i as [|i]; simpl in Ha, Hb.
  - injection Ha as ->. injection Hb as ->.
    pose proof (count_above_le _ _ Hall) as Hle. unfold above in Hle.
    destruct (decide (eps < b)), (decide (eps < a)); simpl; try lia; lra.
  - specialize (IH i Ha Hb Hgt Hle').
    destruct (decide (eps < b0)), (decide (eps < a0)); simpl; try lia. lra.
Qed.

Lemma round_facts_items_mono m st st' tc dt :
  round_facts m st st' tc dt →
  Forall2 (λ a b, b <= a) st.(item_remaining) st'.(item_remaining).
Proof.
  intros Hrf. apply Forall2_same_length_lookup_2.
  { by rewrite (rf_items_length _ _ _ _ _ Hrf). }
  intros j r r' Hr. rewrite (rf_items _ _ _ _ _ Hrf), Hr. simpl. intros [= <-].
  destruct (decide _); [lra|].
  pose proof (rf_pos _ _ _ _ _ Hrf).
  destruct (eaters_of tc j) as [|e es]; [done|].
  pose proof (of_nat_pos (length es)).
  assert (0 <= dt * of_nat (length (e :: es))) by (apply Qmult_le_0_compat; simpl; lra).
  lra.
Qed.

Lemma round_facts_persons_mono m st st' tc dt :
  round_facts m st st' tc dt →
  Forall2 (λ a b, b <= a) st.(person_remaining) st'.(person_remaining).
Proof.
  intros Hrf. apply Forall2_same_length_lookup_2.
  { rewrite (rf_persons _ _ _ _ _ Hrf), length_zip_with.
    rewrite (rf_length _ _ _ _ _ Hrf). lia. }
  intros p r r' Hr. rewrite (rf_persons _ _ _ _ _ Hrf).
  intros (r0 & t & -> & Hr0 & Ht)%lookup_zip_with_Some.
  assert (r0 = r) as -> by congruence.
  pose proof (rf_pos _ _ _ _ _ Hrf). destruct t; lra.
Qed.

(** Every round exhausts an item or a person. *)
Lemma round_facts_active m st st' tc dt :
  round_facts m st st' tc dt → (active st' < active st)%nat.
Proof.
  intros Hrf. unfold active.
  pose proof (count_above_le _ _ (round_facts_items_mono _ _ _ _ _ Hrf)).
  pose proof (count_above_le _ _ (round_facts_persons_mono _ _ _ _ _ Hrf)).
  assert (Heps : 0 < eps) by done.
  destruct (rf_event _ _ _ _ _ Hrf) as [(j & r & Hr & Hne & Hz)|(p & r & j & Hr & Ht & Hz)].
  - destruct (rf_item_bound _ _ _ _ _ Hrf j r Hr Hne) as [Hgt _].
    enough (above st'.(item_remaining) < above st.(item_remaining))%nat by lia.
    eapply (count_above_lt _ _ j r); [by eapply round_facts_items_mono|done| |done|].
    + rewrite (rf_items _ _ _ _ _ Hrf), Hr. simpl. by rewrite decide_False.
    + lra.
  - destruct (rf_person_bound _ _ _ _ _ Hrf p r j Hr Ht) as [Hgt _].
    enough (above st'.(person_remaining) < above st.(person_remaining))%nat by lia.
    eapply (count_above_lt _ _ p r); [by eapply round_facts_persons_mono|done| |done|].
    + rewrite (rf_persons _ _ _ _ _ Hrf), lookup_zip_with, Hr, Ht. done.
    + lra.
Qed.

End Invariant.

(** ** The loop *)

Section Loop.
Local Open Scope Q_scope.
Variables (pm : list (list nat)) (n m : nat).
Hypothesis pm_length : length pm = n.

Lemma hungry_true st :
  hungry st = true ↔ ∃ p r, st.(person_remaining) !! p = Some r ∧ eps < r.
Proof.
  unfold hungry. rewrite existsb_exists. split.
  - intros (r & Hin & Hr). apply list_elem_of_In, list_elem_of_lookup in Hin as [p Hp].
    exists p, r. split; [done|]. by destruct (Qlt_le_dec eps r).
  - intros (p & r & Hp & Hr). exists r. split.
    + apply list_elem_of_In, list_elem_of_lookup. by exists p.
    + destruct (Qlt_le_dec eps r); [done|lra].
Qed.

Lemma hungry_false st :
  hungry st = false ↔ ∀ p r, st.(person_remaining) !! p = Some r → r <= eps.
Proof.
  split.
  - intros Hh p r Hp. destruct (Qlt_le_dec eps r) as [Hr|Hr]; [|done].
    assert (hungry st = true) by (apply hungry_true; eauto). congruence.
  - intros Hall. destruct (hungry st) eqn:Hh; [|done].
    apply hungry_true in Hh as (p & r & Hp & Hr). specialize (Hall p r Hp). lra.
Qed.

Lemma above_pos l i r : l !! i = Some r → eps < r → (0 < above l)%nat.
Proof.
  intros Hi Hr. unfold above.
  assert (r ∈ filter (λ r, eps < r) l).
  { apply list_elem_of_filter. split; [done|]. apply list_elem_of_lookup. eauto. }
  destruct (filter _ l); [by apply elem_of_nil in H|simpl; lia].
Qed.

Lemma hungry_active st : hungry st = true → (0 < active st)%nat.
Proof.
  intros (p & r & Hp & Hr)%hungry_true. unfold active.
  pose proof (above_pos _ _ _ Hp Hr). lia.
Qed.

Lemma eat_round_inv st st' :
  state_inv n m st → eat_round pm m st = Next st' →
  state_inv n m st' ∧ (active st' < active st)%nat.
Proof.
  intros Hinv Hround.
  destruct (eat_round_Next pm n m st st' Hinv pm_length Hround) as (tc & dt & _ & Hrf).
  split; [by eapply round_facts_inv|by eapply round_facts_active].
Qed.

(** The loop never runs out of a budget of [active st] rounds. *)
Lemma eat_loop_fuel fuel st :
  state_inv n m st → (active st ≤ fuel)%nat → eat_loop fuel pm m st ≠ OutOfFuel.
Proof.
  revert st. induction fuel as [|fuel IH]; intros st Hinv Hfuel; simpl.
  - destruct (hungry st) eqn:Hh; [|done]. apply hungry_active in Hh. lia.
  - destruct (hungry st) eqn:Hh; [|done].
    destruct (eat_round pm m st) as [| |st'] eqn:Hround; [done..|].
    destruct (eat_round_inv _ _ Hinv Hround) as [Hinv' Hlt].
    apply IH; [done|lia].
Qed.

(** More fuel does not change a result. *)
Lemma eat_loop_more_fuel fuel fuel' st :
  (fuel ≤ fuel')%nat → eat_loop fuel pm m st ≠ OutOfFuel →
  eat_loop fuel' pm m st = eat_loop fuel pm m st.
Proof.
  revert fuel' st. induction fuel as [|fuel IH]; intros fuel' st Hle Hres; simpl in *.
  - destruct fuel'; simpl; destruct (hungry st); done.
  - destruct fuel' as [|fuel']; [lia|]. simpl.
    destruct (hungry st); [|done].
    destruct (eat_round pm m st); [done..|]. apply IH; [lia|done].
Qed.

(** Loop invariants and the exit condition. *)
Lemma eat_loop_Finished (P : eat_state → Prop) fuel st st' :
  P st →
  (∀ s s', P s → hungry s = true → eat_round pm m s = Next s' → P s') →
  eat_loop fuel pm m st = Finished st' →
  P st' ∧ (hungry st' = false ∨ (hungry st' = true ∧ eat_round pm m st' = Broke)).
Proof.
  intros HP Hstep. revert st HP. induction fuel as [|fuel IH]; intros st HP; simpl.
  - destruct (hungry st) eqn:Hh; [done|]. intros [= <-]. auto.
  - destruct (hungry st) eqn:Hh; [|intros [= <-]; auto].
    destruct (eat_round pm m st) as [| |s'] eqn:Hround; [done| |].
    + intros [= <-]. auto.
    + apply IH. by eapply Hstep.
Qed.

Hypothesis pm_range : Forall (Forall (λ j, (j < m)%nat)) pm.

Lemma eat_round_not_Raised st : state_inv n m st → eat_round pm m st ≠ Raised.
Proof.
  intros Hinv. unfold eat_round.
  destruct (top_choice_is_Some pm st) as [tc ->].
  { by rewrite (inv_items _ _ _ Hinv). }
  by destruct (py_min _).
Qed.

Lemma eat_loop_not_Failed fuel st :
  state_inv n m st → eat_loop fuel pm m st ≠ Failed.
Proof.
  revert st. induction fuel as [|fuel IH]; intros st Hinv; simpl.
  - by destruct (hungry st).
  - destruct (hungry st); [|done].
    destruct (eat_round pm m st) as [| |st'] eqn:Hround; [|done|].
    + by apply eat_round_not_Raised in Hround.
    + apply IH. by eapply eat_round_inv.
Qed.

Lemma eat_loop_total fuel st :
  state_inv n m st → (active st ≤ fuel)%nat →
  ∃ st', eat_loop fuel pm m st = Finished st'.
Proof.
  intros Hinv Hfuel.
  pose proof (eat_loop_fuel fuel st Hinv Hfuel).
  pose proof (eat_loop_not_Failed fuel st Hinv).
  destruct (eat_loop fuel pm m st); [by eexists|done..].
Qed.


Lemma eat_round_Broke st :
  state_inv n m st → eat_round pm m st = Broke → no_eligible pm st.
Proof.
  intros Hinv Hround. unfold eat_round in Hround.
  destruct (top_choice pm st) as [tc|] eqn:Htc; [|done].
  destruct (py_min _) as [dt|] eqn:Hdt; [done|]. apply py_min_None in Hdt.
  intros p rp row Hp Hrow Hrp.
  assert (Hlen : length tc = length st.(person_remaining)).
  { apply (top_choice_length pm); [done|]. by rewrite (inv_persons _ _ _ Hinv). }
  destruct (lookup_lt_is_Some_2 tc p) as [t Ht].
  { rewrite Hlen. by eapply lookup_lt_Some. }
  destruct t as [j|].
  - assert (rp ∈ dt_candidates st tc (eaters_per_item m tc)) as Hin.
    { apply elem_of_dt_candidates. right. by exists p, rp, j. }
    rewrite Hdt in Hin. by apply elem_of_nil in Hin.
  - destruct (top_choice_None _ _ _ _ Htc Ht) as (rp' & row' & Hp' & Hrow' & Hcase).
    assert (rp' = rp) as -> by congruence. assert (row' = row) as -> by congruence.
    destruct Hcase; [lra|done].
Qed.

End Loop.

(** ** The solver on full rankings *)

Section SolverFacts.
Local Open Scope Q_scope.


Lemma build_pref_matrix_full m prefs :
  full_rankings m prefs → build_pref_matrix m prefs = Some prefs.*2.
Proof.
  intros Hfull. unfold build_pref_matrix. apply mapM_Some_2.
  apply Forall2_fmap_r, Forall_Forall2_diag, Forall_forall.
  intros kv Hkv. unfold assign_row.
  rewrite decide_True; [done|].
  rewrite (Permutation_length (Hfull kv Hkv)). apply length_seq.
Qed.

Lemma full_rankings_range m prefs :
  full_rankings m prefs → Forall (Forall (λ j, (j < m)%nat)) prefs.*2.
Proof.
  intros Hfull. apply Forall_fmap, Forall_forall. intros kv Hkv. simpl.
  apply Forall_forall. intros j Hj. rewrite (Hfull kv Hkv) in Hj.
  apply elem_of_seq in Hj. lia.
Qed.

Lemma Qsum_replicate_0 k : Qsum (replicate k 0) == 0.
Proof.
  induction k as [|k IH]; [done|].
  change (Qsum (replicate (S k) 0)) with (0 + Qsum (replicate k 0)). lra.
Qed.

Lemma column_replicate_0 j n m :
  column j (replicate n (replicate m 0)) == 0.
Proof.
  induction n as [|n IH]; [done|].
  change (column j (replicate (S n) (replicate m 0)))
    with (default 0 (replicate m 0 !! j) + column j (replicate n (replicate m 0))).
  destruct (replicate m 0 !! j) as [x|] eqn:Hx; simpl; [|lra].
  apply lookup_replicate in Hx as [-> _]. lra.
Qed.

Lemma initial_state_inv n m : state_inv n m (initial_state n m).
Proof.
  split; simpl.
  - apply length_replicate.
  - apply length_replicate.
  - apply length_replicate.
  - intros j r [-> _]%lookup_replicate. lra.
  - intros p r [-> _]%lookup_replicate. lra.
  - intros p row [-> Hp]%lookup_replicate. split_and!.
    + apply length_replicate.
    + apply Forall_replicate. lra.
    + exists 1. split; [by apply lookup_replicate_2|].
      pose proof (Qsum_replicate_0 m). lra.
  - intros j r [-> _]%lookup_replicate.
    pose proof (column_replicate_0 j n m). lra.
Qed.

Lemma above_replicate_1 k : above (replicate k 1) = k.
Proof.
  unfold above. induction k as [|k IH]; [done|]. cbn [replicate].
  rewrite filter_cons, decide_True by done. cbn [length]. by rewrite IH.
Qed.

Lemma initial_state_active n m : active (initial_state n m) = (m + n)%nat.
Proof. unfold active. simpl. by rewrite !above_replicate_1. Qed.

(** On any input the loop ends within [n_participants + n_items] rounds:
    [solve] never answers [OutOfFuel], and a larger budget gives the same
    answer. *)
Lemma solve_fuel items prefs fuel :
  (length prefs + length items ≤ fuel)%nat →
  solve fuel items prefs = solve (length prefs + length items) items prefs
  ∧ solve fuel items prefs ≠ OutOfFuel.
Proof.
  intros Hfuel. unfold solve.
  destruct (build_pref_matrix _ prefs) as [pm|] eqn:Hpm; [|done].
  assert (Hlen : length pm = length prefs).
  { symmetry. by eapply length_mapM. }
  set (n := length prefs) in *. set (m := length items) in *.
  assert (eat_loop (n + m) pm m (initial_state n m) ≠ OutOfFuel) as Hne.
  { apply (eat_loop_fuel pm n m Hlen); [apply initial_state_inv|].
    rewrite initial_state_active. lia. }
  rewrite (eat_loop_more_fuel pm n m Hlen (n + m) fuel) by done. done.
Qed.

(** What the loop leaves behind on full rankings over at least one item:
    the invariant, the exit condition, and a strictly positive share for
    every participant. *)
Lemma solve_full items prefs :
  full_rankings (length items) prefs →
  ∃ st, solve (length prefs + length items) items prefs = Finished st
    ∧ state_inv (length prefs) (length items) st
    ∧ (hungry st = false ∨ (hungry st = true ∧ no_eligible prefs.*2 st))
    ∧ (items ≠ [] → ∀ p r, st.(person_remaining) !! p = Some r → r < 1).
Proof.
  intros Hfull. unfold solve. rewrite build_pref_matrix_full by done.
  set (n := length prefs). set (m := length items). set (pm := prefs.*2).
  assert (Hlen : length pm = n) by apply length_fmap.
  pose proof (full_rankings_range _ _ Hfull) as Hrange. fold m pm in Hrange.
  destruct (eat_loop_total pm n m Hlen Hrange (n + m) (initial_state n m))
    as [st Hst]; [apply initial_state_inv|rewrite initial_state_active; lia|].
  exists st. split; [done|].
  set (P := λ s, state_inv n m s
    ∧ (s = initial_state n m
       ∨ ∀ p r, s.(person_remaining) !! p = Some r → r < 1)).
  assert (Hrow : items ≠ [] → ∀ p row, pm !! p = Some row →
            ∃ j row', row = j :: row' ∧ (j < m)%nat).
  { intros Hitems p row Hp.
    assert (row ≡ₚ seq 0 m) as Hperm.
    { unfold pm in Hp. apply list_lookup_fmap_Some in Hp as (kv & -> & Hkv).
      apply Hfull, list_elem_of_lookup. eauto. }
    destruct row as [|j row'].
    - apply Permutation_nil_l in Hperm. destruct items; [done|]. done.
    - exists j, row'. split; [done|].
      assert (j ∈ seq 0 m) as Hj by (rewrite <- Hperm; by left).
      apply elem_of_seq in Hj. lia. }
  destruct (eat_loop_Finished pm m P (n + m) (initial_state n m) st) as [[Hinv HP] Hexit].
  { split; [apply initial_state_inv|by left]. }
  { intros s s' [Hinv HP] Hh Hround.
    destruct (eat_round_Next pm n m s s' Hinv Hlen Hround) as (tc & dt & Htc & Hrf).
    split; [by eapply round_facts_inv|]. right.
    destruct (decide (items = [])) as [Hitems|Hitems].
    { (* no item: nobody can eat, the round breaks *)
      exfalso. destruct (rf_event _ _ _ _ _ Hrf)
        as [(j & r & Hr & _)|(p & r & j & _ & Ht & _)].
      - apply lookup_lt_Some in Hr. rewrite (inv_items _ _ _ Hinv) in Hr.
        unfold m in Hr. rewrite Hitems in Hr. simpl in Hr. lia.
      - pose proof (rf_range _ _ _ _ _ Hrf p j Ht) as Hj.
        unfold m in Hj. rewrite Hitems in Hj. simpl in Hj. lia. }
    intros p r'. rewrite (rf_persons _ _ _ _ _ Hrf).
    intros (r & t & -> & Hr & Ht)%lookup_zip_with_Some.
    pose proof (rf_pos _ _ _ _ _ Hrf) as Hpos.
    destruct HP as [->|HP].
    - destruct (top_choice_lookup _ _ _ _ _ Htc Ht) as (rp & row & Hrp & Hrow' & Hf).
      simpl in Hr, Hrp. apply lookup_replicate in Hr as [-> _].
      apply lookup_replicate in Hrp as [-> _].
      destruct (Hrow Hitems p row Hrow') as (j & row' & -> & Hj).
      unfold top_choice_of in Hf. simpl in Hf.
      rewrite lookup_replicate_2 in Hf by done. simpl in Hf.
      destruct (Qlt_le_dec eps 1) as [_|Hbad]; [|by exfalso].
      injection Hf as <-. lra.
    - specialize (HP p r Hr). destruct t; lra. }
  { done. }
  split; [done|]. split.
  - destruct Hexit as [?|[Hh Hbroke]]; [by left|right].
    split; [done|]. by eapply eat_round_Broke.
  - intros Hitems. destruct HP as [->|HP]; [|done].
    intros p r Hr. exfalso. simpl in Hr. apply lookup_replicate in Hr as [-> Hp].
    destruct Hexit as [Hh|[Hh Hbroke]].
    + rewrite hungry_false in Hh. specialize (Hh p 1). simpl in Hh.
      rewrite lookup_replicate_2 in Hh by done. specialize (Hh eq_refl).
      by apply Hh.
    + apply eat_round_Broke with (n:=n) in Hbroke; [|done|apply initial_state_inv].
      destruct (lookup_lt_is_Some_2 pm p) as [row Hrow']; [by rewrite Hlen|].
      destruct (Hrow Hitems p row Hrow') as (j & row' & -> & Hj).
      assert (Hp1 : (initial_state n m).(person_remaining) !! p = Some 1)
        by by apply lookup_replicate_2.
      assert (Hj1 : j ∈ j :: row') by by left.
      destruct (Hbroke p 1 (j :: row') Hp1 Hrow' eq_refl j Hj1) as (r & Hr & Hle).
      simpl in Hr. apply lookup_replicate in Hr as [-> _]. by apply Hle.
Qed.

End SolverFacts.

(** ** The post-processing *)

Section Normalize.
Local Open Scope Q_scope.

Lemma map_clamp0_nonneg row : Forall (λ x, 0 <= x) row → map clamp0 row = row.
Proof.
  induction 1 as [|x row Hx _ IH]; [done|]. simpl.
  by rewrite IH, clamp0_nonneg.
Qed.

Lemma normalize_row_pos row :
  0 < Qsum row → normalize_row row = map (λ x, x / Qsum row) row.
Proof.
  intros Hpos. unfold normalize_row.
  destruct (Qeq_bool (Qsum row) 0) eqn:Hz; [|done].
  apply Qeq_bool_iff in Hz. lra.
Qed.

Lemma Qsum_map_div s row : ¬ s == 0 → Qsum (map (λ x, x / s) row) == Qsum row / s.
Proof.
  intros Hs. induction row as [|x row IH].
  - unfold Qsum. simpl. field. done.
  - change (Qsum (map (λ x, x / s) (x :: row)))
      with (x / s + Qsum (map (λ x, x / s) row)).
    change (Qsum (x :: row)) with (x + Qsum row).
    rewrite IH. field. done.
Qed.

Lemma Forall_map_div s row :
  0 < s → Forall (λ x, 0 <= x) row → Forall (λ x, 0 <= x) (map (λ x, x / s) row).
Proof.
  intros Hs. induction 1 as [|x row Hx _ IH]; simpl; constructor; [|done].
  apply Qle_shift_div_l; [done|]. lra.
Qed.

(** A row of nonnegative shares with a positive sum becomes a probability
    distribution. *)
Lemma normalize_row_distribution row :
  Forall (λ x, 0 <= x) row → 0 < Qsum row →
  length (normalize_row (map clamp0 row)) = length row
  ∧ Forall (λ x, 0 <= x) (normalize_row (map clamp0 row))
  ∧ Qsum (normalize_row (map clamp0 row)) == 1.
Proof.
  intros Hnn Hpos. rewrite map_clamp0_nonneg, normalize_row_pos by done.
  split_and!.
  - apply length_map.
  - by apply Forall_map_div.
  - rewrite Qsum_map_div by lra. field. lra.
Qed.

Lemma normalize_lookup M p :
  normalize M !! p = (λ row, normalize_row (map clamp0 row)) <$> M !! p.
Proof.
  unfold normalize. revert p. induction M as [|row M IH]; intros [|p]; simpl; done.
Qed.

Lemma normalize_length M : length (normalize M) = length M.
Proof. unfold normalize. by rewrite !length_map. Qed.


End Normalize.

(** ** Conservation: what the persons ate is what the items lost *)

Section Conservation.
Local Open Scope Q_scope.

Lemma Qsum_cons x l : Qsum (x :: l) = x + Qsum l.
Proof. done. Qed.







Lemma elem_le_Qsum l i x : Forall (λ x, 0 <= x) l → l !! i = Some x → x <= Qsum l.
Proof.
  intros Hnn. revert i. induction Hnn as [|y l Hy Hnn IH]; intros i Hi.
  { by rewrite lookup_nil in Hi. }
  rewrite Qsum_cons. pose proof (Qsum_nonneg _ Hnn).
  destruct i as [|i]; simpl in Hi.
  - injection Hi as ->. lra.
  - specialize (IH i Hi). lra.
Qed.


End Conservation.

(** ** The matrix [_bogomolnaia_moulin] returns *)

Section Matrix.
Local Open Scope Q_scope.

Lemma bogomolnaia_moulin_full items prefs :
  full_rankings (length items) prefs →
  ∃ st, _bogomolnaia_moulin items prefs = Some (normalize st.(prob))
    ∧ solve (length prefs + length items) items prefs = Finished st
    ∧ state_inv (length prefs) (length items) st
    ∧ (hungry st = false ∨ (hungry st = true ∧ no_eligible prefs.*2 st))
    ∧ (items ≠ [] → ∀ p r, st.(person_remaining) !! p = Some r → r < 1).
Proof.
  intros Hfull. destruct (solve_full items prefs Hfull) as (st & Hst & ?).
  exists st. split; [|by split]. unfold _bogomolnaia_moulin. by rewrite Hst.
Qed.

Lemma bogomolnaia_moulin_rows items prefs :
  full_rankings (length items) prefs → items ≠ [] →
  ∃ M, _bogomolnaia_moulin items prefs = Some M ∧ length M = length prefs
    ∧ ∀ p row, M !! p = Some row →
        length row = length items ∧ Forall (λ x, 0 <= x) row ∧ Qsum row == 1.
Proof.
  intros Hfull Hitems.
  destruct (bogomolnaia_moulin_full items prefs Hfull) as (st & HM & _ & Hinv & _ & Hlt).
  exists (normalize st.(prob)). split; [done|]. split.
  - by rewrite normalize_length, (inv_prob _ _ _ Hinv).
  - intros p row'. rewrite normalize_lookup.
    intros (row & Hrow & ->)%fmap_Some.
    destruct (inv_rows _ _ _ Hinv p row Hrow) as (Hlen & Hnn & r & Hr & Hsum).
    specialize (Hlt Hitems p r Hr).
    destruct (normalize_row_distribution row Hnn) as (-> & ? & ?); [lra|done].
Qed.






End Matrix.

(** ** The validator against its specification *)

Section ValidatorSpec.
Context `{CharDB}.



Lemma split_not_nil sep s : split sep s ≠ [].
Proof.
  destruct s as [|c s]; [done|]. simpl.
  destruct (c =? sep)%N; [done|]. by destruct (split sep s).
Qed.

Lemma join_split sep s : join sep (split sep s) = s.
Proof.
  induction s as [|c s IH]; [done|]. simpl.
  destruct (c =? sep)%N eqn:Hc.
  - apply N.eqb_eq in Hc as ->.
    pose proof (split_not_nil sep s). destruct (split sep s) as [|t ts]; [done|].
    simpl in *. by rewrite IH.
  - pose proof (split_not_nil sep s). destruct (split sep s) as [|t ts]; [done|].
    destruct ts; simpl in *; congruence.
Qed.

Lemma split_join sep tokens :
  tokens ≠ [] → Forall (λ t, sep ∉ t) tokens → split sep (join sep tokens) = tokens.
Proof.
  intros Hne Hall. induction Hall as [|t ts Ht Hall IH]; [done|]. clear Hne.
  assert (Htok : ∀ rest r rs, split sep rest = r :: rs →
            sep ∉ t → split sep (t ++ rest) = (t ++ r) :: rs).
  { intros rest r rs Hrest. clear -Hrest. induction t as [|c t IHt]; intros Hsep; [done|].
    apply not_elem_of_cons in Hsep as [Hc Hsep]. simpl.
    destruct (c =? sep)%N eqn:Heq; [apply N.eqb_eq in Heq; congruence|].
    by rewrite IHt. }
  destruct ts as [|t' ts].
  - simpl. rewrite <- (app_nil_r t) at 1.
    rewrite (Htok [] [] []) by done. by rewrite app_nil_r.
  - change (join sep (t :: t' :: ts)) with (t ++ sep :: join sep (t' :: ts)).
    rewrite (Htok (sep :: join sep (t' :: ts)) [] (t' :: ts)); [by rewrite app_nil_r| |done].
    cbn [split]. rewrite N.eqb_refl. by rewrite IH.
Qed.

Lemma is_digit_comma : is_digit comma = false.
Proof. unfold is_digit, comma. by rewrite comma_not_decimal. Qed.

Lemma digits_no_comma t : Forall (λ c, is_digit c = true) t → comma ∉ t.
Proof.
  intros Hall Hin. eapply Forall_forall in Hall; [|done].
  rewrite is_digit_comma in Hall. done.
Qed.

(** What a successful match says about the comma-separated tokens. *)
Lemma match_ranking_re_split b s :
  match_ranking_re b s = true → newline ∉ s →
  ∃ t ts, split comma s = t :: ts ∧ Forall (λ c, is_digit c = true) t
    ∧ (b = false → t ≠ []) ∧ Forall digits ts.
Proof.
  revert b. induction s as [|c s IH]; intros b Hm Hnl; simpl in Hm.
  - exists [], []. split_and!; [done|done|by intros ->|done].
  - apply not_elem_of_cons in Hnl as [Hc Hnl]. simpl.
    destruct (is_digit c) eqn:Hd.
    + destruct (IH true Hm Hnl) as (t & ts & -> & Ht & _ & Hts).
      assert ((c =? comma)%N = false) as ->.
      { apply N.eqb_neq. intros ->. by rewrite is_digit_comma in Hd. }
      exists (c :: t), ts. split_and!; [done|by constructor|done|done].
    + destruct (b && (c =? comma)%N) eqn:Hbc.
      * apply andb_true_iff in Hbc as [-> Hcomma]. rewrite Hcomma.
        destruct (IH false Hm Hnl) as (t & ts & -> & Ht & Hne & Hts).
        exists [], (t :: ts). split_and!; [done|done|done|].
        constructor; [|done]. split; [by apply Hne|done].
      * apply andb_true_iff in Hm as [Hm _]. apply andb_true_iff in Hm as [_ Hm].
        apply N.eqb_eq in Hm. done.
Qed.

Lemma match_ranking_re_join b t ts :
  Forall (λ c, is_digit c = true) t → (b = false → t ≠ []) → Forall digits ts →
  match_ranking_re b (join comma (t :: ts)) = true.
Proof.
  intros Ht Hne Hts. revert b t Ht Hne.
  induction Hts as [|t' ts [Hne' Ht'] Hts IH]; intros b t Ht Hne.
  - simpl. revert b Hne. induction Ht as [|c t Hc Ht IHt]; intros b Hne.
    + destruct b; [done|]. by destruct Hne.
    + simpl. rewrite Hc. by apply IHt.
  - change (join comma (t :: t' :: ts)) with (t ++ comma :: join comma (t' :: ts)).
    revert b Hne. induction Ht as [|c t Hc Ht IHt]; intros b Hne.
    + destruct b; [|by destruct Hne]. simpl. rewrite is_digit_comma.
      unfold comma at 1. simpl. by apply IH.
    + simpl. rewrite Hc. by apply IHt.
Qed.

Lemma decimal_value_digits t : digits t → is_Some (decimal_value t).
Proof.
  intros [Hne Hall]. unfold decimal_value. destruct t as [|c t]; [done|].
  generalize 0. revert Hall. generalize (c :: t). clear.
  intros t Hall. induction Hall as [|c t Hc _ IH]; intros a; [by eexists|].
  simpl. unfold is_digit in Hc. destruct (decimal c) as [d|]; [|done]. apply IH.
Qed.

Lemma py_int_Some t k :
  py_int t = Some k ↔ length t ≤ int_max_str_digits ∧ decimal_value t = Some k.
Proof.
  unfold py_int. destruct (decide (int_max_str_digits < length t)); split.
  - done.
  - intros [? _]. lia.
  - intros ?. split; [lia|done].
  - by intros [_ ?].
Qed.

Lemma py_int_None t :
  digits t → (py_int t = None ↔ int_max_str_digits < length t).
Proof.
  intros [k Hk]%decimal_value_digits. unfold py_int.
  destruct (decide (int_max_str_digits < length t)); [done|].
  rewrite Hk. split; [done|lia].
Qed.

(** The list comprehension over [int(x)] succeeds exactly when every number
    is within the limit. *)
Lemma mapM_py_int tokens numbers :
  mapM py_int tokens = Some numbers ↔
  Forall (λ t, length t ≤ int_max_str_digits) tokens
  ∧ Forall2 (λ t k, decimal_value t = Some k) tokens numbers.
Proof.
  rewrite mapM_Some. split.
  - intros Hall. split.
    + induction Hall as [|t k ts ks [? _]%py_int_Some _ IH]; by constructor.
    + eapply Forall2_impl; [done|]. by intros t k [_ ?]%py_int_Some.
  - intros [Hshort Hval]. induction Hval as [|t k ts ks Htk _ IH]; [constructor|].
    apply Forall_cons in Hshort as [Ht Hts]. constructor; [|by apply IH].
    by apply py_int_Some.
Qed.

Lemma mapM_py_int_None tokens :
  Forall digits tokens →
  (mapM py_int tokens = None ↔ Exists (λ t, int_max_str_digits < length t) tokens).
Proof.
  intros Hdig. induction Hdig as [|t ts Ht Hts IH].
  - split; [done|by intros ?%Exists_nil].
  - rewrite Exists_cons, <- IH, <- (py_int_None t Ht). cbn [mapM].
    destruct (py_int t) as [k|]; simpl.
    + destruct (mapM py_int ts); simpl.
      * split; [done|]. intros [?|?]; done.
      * split; [by right|done].
    + split; [by left|done].
Qed.

(** The tokens of a text that matches the pattern. *)
Lemma match_ranking_re_tokens s :
  match_ranking_re false s = true → newline ∉ s →
  split comma s ≠ [] ∧ Forall digits (split comma s).
Proof.
  intros Hm Hnl. split; [apply split_not_nil|].
  destruct (match_ranking_re_split false s Hm Hnl) as (t & ts & -> & Ht & Hne & Hts).
  constructor; [|done]. split; [by apply Hne|done].
Qed.

Lemma remove_whitespace_no_newline text : newline ∉ remove_whitespace text.
Proof.
  intros Hin. apply list_elem_of_In, filter_In in Hin as [_ Hs].
  unfold newline in Hs. by rewrite newline_is_space in Hs.
Qed.

Lemma sorted_eq_seq numbers n :
  length numbers = n → (sorted numbers = seq 1 n ↔ numbers ≡ₚ seq 1 n).
Proof.
  intros Hlen. unfold sorted. split.
  - intros <-. symmetry. apply merge_sort_Permutation.
  - intros Hperm. apply (Sorted_unique (≤)).
    + apply Sorted_merge_sort. apply _.
    + clear. generalize 1%nat. induction n as [|n IH]; intros k; simpl; [constructor|].
      constructor; [apply IH|]. destruct n; simpl; constructor. lia.
    + by rewrite merge_sort_Permutation.
Qed.

Lemma ranking_shape_match text :
  match_ranking_re false (remove_whitespace text) = true ↔ ∃ tokens, ranking_shape text tokens.
Proof.
  split.
  - intros Hm.
    destruct (match_ranking_re_tokens _ Hm (remove_whitespace_no_newline text)) as [? ?].
    exists (split comma (remove_whitespace text)). split_and!; [done..|].
    by rewrite join_split.
  - intros (tokens & Hne & Hdig & ->). destruct tokens as [|t ts]; [done|].
    apply Forall_cons in Hdig as [[Htne Ht] Hts]. by apply match_ranking_re_join.
Qed.

Lemma ranking_shape_split text tokens :
  ranking_shape text tokens → split comma (remove_whitespace text) = tokens.
Proof.
  intros (Hne & Hdig & ->). apply split_join; [done|].
  eapply Forall_impl; [done|]. intros ? [_ ?]. by apply digits_no_comma.
Qed.

(** The validator raises exactly on the texts of the right shape that hold
    a number beyond the limit of [int()], whatever length is expected. *)
Lemma is_ranking_format_raises text n :
  is_ranking_format text n = None ↔
  ∃ tokens, ranking_shape text tokens
    ∧ Exists (λ t, int_max_str_digits < length t) tokens.
Proof.
  unfold is_ranking_format. set (cleaned := remove_whitespace text).
  destruct (match_ranking_re false cleaned) eqn:Hm; simpl.
  - pose proof Hm as (tokens & Hshape)%ranking_shape_match.
    pose proof (ranking_shape_split _ _ Hshape) as Hsplit. fold cleaned in Hsplit.
    rewrite Hsplit. pose proof Hshape as (_ & Hdig & _).
    pose proof (mapM_py_int_None tokens Hdig) as Hnone.
    destruct (mapM py_int tokens) as [numbers|] eqn:Hnum; simpl.
    + split.
      * destruct n as [n|]; [destruct (decide (length numbers ≠ n))|]; done.
      * intros (tokens' & Hshape' & Hlong).
        apply ranking_shape_split in Hshape'. fold cleaned in Hshape'.
        assert (tokens' = tokens) as -> by congruence.
        apply Hnone in Hlong. done.
    + split; [|done]. intros _. exists tokens. split; [done|]. by apply Hnone.
  - split; [done|]. intros (tokens & Hshape & _).
    assert (match_ranking_re false cleaned = true) by (apply ranking_shape_match; eauto).
    congruence.
Qed.

Lemma is_ranking_format_spec text n :
  is_ranking_format text (Some n) = Some true ↔
  ranking_spec text n ∧ numbers_within_limit text.
Proof.
  unfold is_ranking_format, ranking_spec, numbers_within_limit.
  set (cleaned := remove_whitespace text). split.
  - destruct (match_ranking_re false cleaned) eqn:Hm; [|done]. simpl.
    destruct (mapM py_int (split comma cleaned)) as [numbers|] eqn:Hnum; [|done]. simpl.
    destruct (decide (length numbers ≠ n)) as [|Hlen%dec_stable]; [done|].
    intros [= Hs%bool_decide_eq_true]. rewrite Hlen in Hs.
    destruct (match_ranking_re_tokens cleaned Hm (remove_whitespace_no_newline text))
      as [Hne Hdig].
    apply mapM_py_int in Hnum as [Hshort Hval]. split; [|done].
    exists (split comma cleaned), numbers. split_and!; [done|done| |done|done|].
    + by rewrite join_split.
    + by apply sorted_eq_seq.
  - intros [(tokens & numbers & Hne & Hdig & Hjoin & Hnum & Hlen & Hperm) Hshort].
    assert (Hsplit : split comma cleaned = tokens).
    { by apply ranking_shape_split. }
    rewrite Hsplit in Hshort.
    assert (match_ranking_re false cleaned = true) as ->.
    { apply ranking_shape_match. by exists tokens. }
    simpl. rewrite Hsplit.
    assert (mapM py_int tokens = Some numbers) as -> by by apply mapM_py_int.
    simpl. rewrite decide_False by (intros ?; done).
    f_equal. apply bool_decide_eq_true. rewrite Hlen. by apply sorted_eq_seq.
Qed.

Lemma join_shape tokens :
  tokens ≠ [] → Forall digits tokens →
  head (join comma tokens) ≠ Some comma ∧ last (join comma tokens) ≠ Some comma
  ∧ Forall (λ c, is_digit c = true ∨ c = comma) (join comma tokens).
Proof.
  intros Hne Hall. induction Hall as [|t ts [Htne Ht] Hall IH]; [done|]. clear Hne.
  assert (Hhead : ∀ rest, head (t ++ rest) ≠ Some comma).
  { intros rest. destruct Ht as [|c t Hc _]; [done|]. simpl.
    intros [= ->]. by rewrite is_digit_comma in Hc. }
  assert (Hlast : last t ≠ Some comma).
  { intros Hl. apply last_Some in Hl as [t' ->].
    apply Forall_app in Ht as [_ Hc]. rewrite Forall_singleton in Hc.
    by rewrite is_digit_comma in Hc. }
  assert (Hdig : Forall (λ c, is_digit c = true ∨ c = comma) t).
  { eapply Forall_impl; [done|]. by left. }
  destruct ts as [|t' ts].
  - simpl. split_and!; [|done..]. rewrite <- (app_nil_r t). apply Hhead.
  - change (join comma (t :: t' :: ts)) with (t ++ comma :: join comma (t' :: ts)).
    destruct IH as (_ & IHlast & IHall); [done|]. split_and!.
    + apply Hhead.
    + rewrite last_app. rewrite last_cons.
      destruct (last (join comma (t' :: ts))) as [c|] eqn:Hl; [done|].
      exfalso. apply last_None in Hl. 
      apply Forall_cons in Hall as [[Hne' _] _].
      destruct t' as [|c' t']; [done|]. by destruct ts.
    + apply Forall_app. split; [done|]. constructor; [by right|done].
Qed.

(** The numbers of an accepted text. *)
Lemma is_ranking_format_numbers text n :
  is_ranking_format text (Some n) = Some true →
  ∃ numbers, mapM py_int (split comma (remove_whitespace text)) = Some numbers
    ∧ length numbers = n ∧ numbers ≡ₚ seq 1 n.
Proof.
  unfold is_ranking_format.
  destruct (match_ranking_re false (remove_whitespace text)); [|done]. simpl.
  destruct (mapM py_int _) as [numbers|]; [|done]. simpl.
  destruct (decide (length numbers ≠ n)) as [|Hlen%dec_stable]; [done|].
  intros [= Hs%bool_decide_eq_true]. rewrite Hlen in Hs.
  exists numbers. split_and!; [done..|]. by apply sorted_eq_seq.
Qed.

(** What the validator is required to reject, read off the text it
    accepts: no leading or trailing comma, nothing but digits and commas,
    and [n] distinct numbers, each in [1..n]. *)
Lemma is_ranking_format_accepts text n :
  is_ranking_format text (Some n) = Some true →
  head (remove_whitespace text) ≠ Some comma
  ∧ last (remove_whitespace text) ≠ Some comma
  ∧ Forall (λ c, is_digit c = true ∨ c = comma) (remove_whitespace text)
  ∧ ∃ numbers, mapM py_int (split comma (remove_whitespace text)) = Some numbers
      ∧ length numbers = n ∧ NoDup numbers ∧ Forall (λ k, 1 ≤ k ≤ n) numbers.
Proof.
  intros [(tokens & numbers & Hne & Hdig & Hjoin & Hnum & Hlen & Hperm) Hshort]
    %is_ranking_format_spec.
  pose proof (ranking_shape_split text tokens (conj Hne (conj Hdig Hjoin))) as Hsplit.
  unfold numbers_within_limit in Hshort. rewrite Hsplit in *.
  rewrite Hjoin. destruct (join_shape tokens Hne Hdig) as (? & ? & ?).
  split_and!; [done..|]. exists numbers. split_and!.
  - by apply mapM_py_int.
  - done.
  - rewrite Hperm. apply NoDup_seq.
  - apply Forall_forall. intros k Hk. rewrite Hperm in Hk.
    apply elem_of_seq in Hk. lia.
Qed.

End ValidatorSpec.

(** ** The sampler *)

Section SamplerFacts.
Local Open Scope Q_scope.


Lemma last_cumsum_from acc x p :
  ∃ v, last (cumsum_from acc (x :: p)) = Some v ∧ v == acc + Qsum (x :: p).
Proof.
  revert acc x. induction p as [|y p IH]; intros acc x.
  - exists (acc + x). split; [done|]. rewrite Qsum_cons. change (Qsum []) with 0. lra.
  - destruct (IH (acc + x) y) as (v & Hv & Heq). exists v. split.
    + change (cumsum_from acc (x :: y :: p))
        with ((acc + x) :: cumsum_from (acc + x) (y :: p)).
      rewrite last_cons, Hv. done.
    + rewrite Heq, !Qsum_cons. lra.
Qed.

Lemma Qdiv_lt_inv a b s : 0 < s → a / s < b / s → a < b.
Proof.
  intros Hs Hlt. assert (a / s * s < b / s * s) by (apply Qmult_lt_compat_r; done).
  assert (a / s * s == a) by (field; lra). assert (b / s * s == b) by (field; lra). lra.
Qed.

(** The inverse-CDF search lands on an entry of positive weight. *)
Lemma searchsorted_right_positive s u p acc :
  0 < s → Forall (λ x, 0 <= x) p → acc / s <= u → u < (acc + Qsum p) / s →
  ∃ x, p !! searchsorted_right (map (λ c, c / s) (cumsum_from acc p)) u = Some x
    ∧ 0 < x.
Proof.
  intros Hs Hnn. revert acc. induction Hnn as [|x p Hx Hnn IH]; intros acc Hlo Hhi.
  - change (Qsum []) with 0 in Hhi.
    assert ((acc + 0) / s == acc / s) as Heq by (field; lra). rewrite Heq in Hhi. lra.
  - simpl. destruct (Qlt_le_dec u ((acc + x) / s)) as [Hlt|Hge].
    + exists x. split; [done|].
      assert (acc / s < (acc + x) / s) as Hax by lra.
      apply Qdiv_lt_inv in Hax; [lra|done].
    + apply IH; [done|]. rewrite Qsum_cons in Hhi.
      assert ((acc + x + Qsum p) / s == (acc + (x + Qsum p)) / s) as -> by (field; lra).
      done.
Qed.

Lemma random_choice_spec m row g :
  distribution m row → 0 <= g 0%nat → g 0%nat < 1 →
  ∃ a x, random_choice m row g = Some (a, λ i, g (S i))
    ∧ row !! a = Some x ∧ 0 < x.
Proof.
  intros (Hlen & Hnn & Hsum) Hlo Hhi. unfold random_choice.
  destruct row as [|x0 row].
  { change (Qsum []) with 0 in Hsum. lra. }
  rewrite decide_False by (simpl in Hlen; lia).
  rewrite decide_False by (intros ?; done).
  assert (existsb (λ x, if Qlt_le_dec x 0 then true else false) (x0 :: row) = false) as ->.
  { apply not_true_is_false. intros (x & Hin & Hx)%existsb_exists.
    apply list_elem_of_In in Hin. eapply Forall_forall in Hnn; [|done].
    destruct (Qlt_le_dec x 0); [lra|done]. }
  destruct (Qlt_le_dec atol (Qabs (Qsum (x0 :: row) - 1))) as [Hbad|_].
  { exfalso. assert (Qabs (Qsum (x0 :: row) - 1) <= 0) as Hz.
    { apply Qabs_Qle_condition. lra. }
    assert (0 < atol) by done. lra. }
  unfold cumsum. destruct (last_cumsum_from 0 x0 row) as (v & -> & Hv).
  simpl default. unfold random_sample.
  assert (Hv1 : v == 1) by lra.
  destruct (searchsorted_right_positive v (g 0%nat) (x0 :: row) 0) as (x & Hx & Hpos).
  - lra.
  - done.
  - assert (0 / v == 0) as -> by (field; lra). done.
  - assert ((0 + Qsum (x0 :: row)) / v == 1) as ->; [|done].
    rewrite Hv1, Hsum. reflexivity.
  - eexists _, x. split; [done|]. by split.
Qed.

Lemma uniform_tail g : uniform g → uniform (λ i, g (S i)).
Proof. intros Hg i. apply Hg. Qed.

Lemma sample_rows_spec m rows g :
  Forall (distribution m) rows → uniform g →
  ∃ assignments g', sample_rows m rows g = Some (assignments, g')
    ∧ uniform g' ∧ length assignments = length rows
    ∧ ∀ p a, assignments !! p = Some a →
        (a < m)%nat ∧ ∃ row x, rows !! p = Some row ∧ row !! a = Some x ∧ 0 < x.
Proof.
  intros Hrows. revert g. induction Hrows as [|row rows Hrow Hrows IH]; intros g Hg.
  - exists [], g. split_and!; [done..|]. intros p a Hp. by rewrite lookup_nil in Hp.
  - destruct (Hg 0%nat) as [Hlo Hhi].
    destruct (random_choice_spec m row g Hrow Hlo Hhi) as (a & x & Ha & Hx & Hpos).
    destruct (IH _ (uniform_tail g Hg)) as (assignments & g' & Hrest & Hg' & Hlen & Hall).
    exists (a :: assignments), g'. simpl. rewrite Ha. simpl. rewrite Hrest. simpl.
    split_and!; [done|done|by rewrite Hlen|].
    intros [|p] a' Hp; simpl in Hp.
    + injection Hp as <-. split.
      * destruct Hrow as (<- & _). by eapply lookup_lt_Some.
      * by exists row, x.
    + by apply Hall.
Qed.

End SamplerFacts.

(** ** The session store *)






Section DictSet.
Context {V : Type}.
Implicit Types d : list (string * V).

Lemma dict_set_keys_in k v d : k ∈ keys d → keys (dict_set k v d) = keys d.
Proof.
  unfold keys. induction d as [|[k' v'] d IH]; intros Hin; [by apply elem_of_nil in Hin|].
  cbn [dict_set fst]. destruct (decide (k' = k)) as [->|Hne]; [done|].
  rewrite !fmap_cons. f_equal. apply IH.
  rewrite fmap_cons in Hin. apply elem_of_cons in Hin as [->|Hin]; done.
Qed.

Lemma dict_set_keys_notin k v d : k ∉ keys d → keys (dict_set k v d) = keys d ++ [k].
Proof.
  unfold keys. induction d as [|[k' v'] d IH]; intros Hin; [done|].
  rewrite fmap_cons in Hin. apply not_elem_of_cons in Hin as [Hne Hin].
  cbn [dict_set fst]. rewrite decide_False by done.
  rewrite !fmap_cons. simpl. f_equal. by apply IH.
Qed.

Lemma dict_set_NoDup k v d : NoDup (keys d) → NoDup (keys (dict_set k v d)).
Proof.
  intros Hnd. destruct (decide (k ∈ keys d)) as [Hin|Hin].
  - by rewrite dict_set_keys_in.
  - rewrite dict_set_keys_notin by done. apply NoDup_app. split_and!; [done| |].
    + intros x Hx ->%list_elem_of_singleton. done.
    + apply NoDup_singleton.
Qed.

Lemma dict_set_elem_of k v d kv : kv ∈ dict_set k v d → kv = (k, v) ∨ kv ∈ d.
Proof.
  induction d as [|[k' v'] d IH]; simpl.
  - intros ->%list_elem_of_singleton. by left.
  - destruct (decide (k' = k)) as [->|Hne].
    + intros [->|Hin]%elem_of_cons; [by left|right; by right].
    + intros [->|Hin]%elem_of_cons; [right; by left|].
      destruct (IH Hin); [by left|right; by right].
Qed.

Lemma dict_set_idemp k v d : dict_set k v (dict_set k v d) = dict_set k v d.
Proof.
  induction d as [|[k' v'] d IH]; simpl.
  - by rewrite decide_True.
  - destruct (decide (k' = k)) as [->|Hne]; simpl.
    + by rewrite decide_True.
    + rewrite decide_False by done. by rewrite IH.
Qed.

Lemma dict_set_length_in k v d : k ∈ keys d → length (dict_set k v d) = length d.
Proof.
  intros Hin. rewrite <- (length_fmap fst (dict_set k v d)), <- (length_fmap fst d).
  f_equal. by apply dict_set_keys_in.
Qed.

Lemma dict_set_length_notin k v d : k ∉ keys d → length (dict_set k v d) = S (length d).
Proof.
  intros Hin. rewrite <- (length_fmap fst (dict_set k v d)), <- (length_fmap fst d).
  change (fst <$> dict_set k v d) with (keys (dict_set k v d)).
  rewrite dict_set_keys_notin by done. rewrite length_app. simpl. unfold keys. lia.
Qed.

Lemma dict_set_not_nil k v d : dict_set k v d ≠ [].
Proof. destruct d as [|[k' v'] d]; simpl; [done|]. by destruct (decide _). Qed.

End DictSet.

(** Reading an entry back through [d[k]]. *)
Section DictGet.
Context {V : Type}.
Implicit Types d : list (string * V).

Lemma dict_get_set_eq k v d : dict_get k (dict_set k v d) = Some v.
Proof.
  induction d as [|[k' v'] d IH]; simpl.
  - by rewrite decide_True.
  - destruct (decide (k' = k)) as [->|Hne]; simpl.
    + by rewrite decide_True.
    + by rewrite decide_False.
Qed.

Lemma dict_get_set_ne k k' v d : k' ≠ k → dict_get k' (dict_set k v d) = dict_get k' d.
Proof.
  intros Hne. induction d as [|[k0 v0] d IH]; simpl.
  - by rewrite decide_False.
  - destruct (decide (k0 = k)) as [->|Hne0]; simpl.
    + by rewrite !decide_False.
    + destruct (decide (k0 = k')); [done|]. apply IH.
Qed.

Lemma dict_get_elem_of k v d : NoDup (keys d) → (k, v) ∈ d ↔ dict_get k d = Some v.
Proof.
  unfold keys. induction d as [|[k0 v0] d IH]; intros Hnd.
  - split; [by intros ?%elem_of_nil|done].
  - rewrite fmap_cons in Hnd. apply NoDup_cons in Hnd as [Hk0 Hnd]. simpl.
    destruct (decide (k0 = k)) as [->|Hne].
    + split.
      * intros [[= ->]|Hin]%elem_of_cons; [done|].
        destruct Hk0. apply list_elem_of_fmap. by exists (k, v).
      * intros [= ->]. by left.
    + rewrite <- IH by done. split.
      * intros [[= -> ->]|Hin]%elem_of_cons; done.
      * intros Hin. by right.
Qed.

End DictGet.

Section StoreFacts.
Context `{CharDB}.

Lemma remove_whitespace_idemp text :
  remove_whitespace (remove_whitespace text) = remove_whitespace text.
Proof.
  unfold remove_whitespace. induction text as [|c text IH]; [done|]. simpl.
  destruct (is_space c) eqn:Hc; simpl; [done|]. by rewrite Hc, IH.
Qed.

Lemma mapM_fmap_option {A B C} (f : A → option B) (g : B → C)
    (l : list A) (ys : list B) :
  mapM f l = Some ys → mapM (λ x, g <$> f x) l = Some (g <$> ys).
Proof.
  intros Hm%mapM_Some_1. apply mapM_Some_2.
  induction Hm as [|x y l ys Hxy _ IH]; [constructor|].
  rewrite fmap_cons. constructor; [by rewrite Hxy|done].
Qed.

(** An accepted text is stored as a permutation of the item indices. *)
Lemma to_indices_accepted text m :
  is_ranking_format (remove_whitespace text) (Some m) = Some true →
  ∃ ranking, to_indices (remove_whitespace text) = Some ranking
    ∧ length ranking = m ∧ ranking ≡ₚ seq 0 m ∧ 0 < m.
Proof.
  intros (numbers & Hnum & Hlen & Hperm)%is_ranking_format_numbers.
  rewrite remove_whitespace_idemp in Hnum.
  exists (Nat.pred <$> numbers). split_and!.
  - unfold to_indices. by apply mapM_fmap_option.
  - by rewrite length_fmap.
  - rewrite Hperm, <- fmap_S_seq, <- list_fmap_compose. by rewrite list_fmap_id.
  - rewrite <- Hlen. clear Hlen Hperm. destruct numbers; [|simpl; lia].
    apply mapM_Some_1, Forall2_length in Hnum. simpl in Hnum.
    pose proof (split_not_nil comma (remove_whitespace text)).
    destruct (split _ _); done.
Qed.

Lemma submit_ranking_accepted sessions g u text s :
  sessions !! g = Some s → s.(status) = collecting →
  is_ranking_format (remove_whitespace text) (Some (length s.(items))) = Some true →
  ∃ ranking, to_indices (remove_whitespace text) = Some ranking
    ∧ ranking ≡ₚ seq 0 (length s.(items)) ∧ 0 < length s.(items)
    ∧ submit_ranking sessions g u text =
        (<[g := with_preferences s (dict_set u ranking s.(preferences))]> sessions,
         Some (true, RankingSubmitted (length (dict_set u ranking s.(preferences)))
                       (length s.(items)))).
Proof.
  intros Hg Hst Hok.
  destruct (to_indices_accepted _ _ Hok) as (ranking & Hidx & Hlen & Hperm & Hpos).
  exists ranking. split_and!; [done..|].
  unfold submit_ranking. rewrite Hg.
  rewrite decide_False by (by rewrite Hst; intros ?).
  rewrite Hok. simpl. rewrite Hidx.
  rewrite decide_False by (by intros ?). done.
Qed.

(** A submission that is not accepted: the reply, or [None] when the
    validator raised. *)
Lemma submit_ranking_refused sessions g u text s :
  sessions !! g = Some s → s.(status) = collecting →
  is_ranking_format (remove_whitespace text) (Some (length s.(items))) ≠ Some true →
  submit_ranking sessions g u text =
    (sessions,
     match is_ranking_format (remove_whitespace text) (Some (length s.(items))) with
     | None => None
     | Some _ => Some (false, InvalidRankingFormat)
     end).
Proof.
  intros Hg Hst Hok. unfold submit_ranking. rewrite Hg.
  rewrite decide_False by (by rewrite Hst; intros ?).
  by destruct (is_ranking_format _ _) as [[|]|].
Qed.

Lemma submit_ranking_cases sessions g u text :
  (submit_ranking sessions g u text).1 = sessions
  ∨ ∃ s ranking, sessions !! g = Some s ∧ s.(status) = collecting
      ∧ ranking ≡ₚ seq 0 (length s.(items)) ∧ 0 < length s.(items)
      ∧ (submit_ranking sessions g u text).1 =
          <[g := with_preferences s (dict_set u ranking s.(preferences))]> sessions.
Proof.
  destruct (sessions !! g) as [s|] eqn:Hg; [|left; unfold submit_ranking; by rewrite Hg].
  destruct (decide (s.(status) = collecting)) as [Hst|Hst].
  - destruct (decide (is_ranking_format (remove_whitespace text)
                        (Some (length s.(items))) = Some true)) as [Hok|Hok].
    + right. destruct (submit_ranking_accepted _ _ u _ _ Hg Hst Hok)
        as (ranking & _ & ? & ? & ->). by exists s, ranking.
    + left. by rewrite (submit_ranking_refused _ _ u _ s).
  - left. unfold submit_ranking. rewrite Hg. by rewrite decide_True.
Qed.

End StoreFacts.

Lemma run_algorithm_cases sessions g :
  (run_algorithm sessions g).1 = sessions
  ∨ ∃ s M, sessions !! g = Some s ∧ s.(status) = collecting
      ∧ length s.(items) ≤ length s.(preferences)
      ∧ _bogomolnaia_moulin s.(items) s.(preferences) = Some M
      ∧ run_algorithm sessions g =
          (<[g := with_probabilities s M]> sessions,
           AlgorithmResults (_format_probabilities M s.(items) s.(preferences))).
Proof.
  unfold run_algorithm. destruct (sessions !! g) as [s|] eqn:Hg; [|by left].
  destruct (decide (s.(status) ≠ collecting)) as [|Hst%dec_stable]; [by left|].
  destruct (decide (length s.(preferences) < length s.(items))); [by left|].
  destruct (_bogomolnaia_moulin _ _) as [M|] eqn:HM; [|by left].
  right. exists s, M. split_and!; [done|done|lia|done|done].
Qed.

Lemma run_algorithm_success sessions g s M :
  sessions !! g = Some s → s.(status) = collecting →
  length s.(items) ≤ length s.(preferences) →
  _bogomolnaia_moulin s.(items) s.(preferences) = Some M →
  run_algorithm sessions g =
    (<[g := with_probabilities s M]> sessions,
     AlgorithmResults (_format_probabilities M s.(items) s.(preferences))).
Proof.
  intros Hg Hst Hlen HM. unfold run_algorithm. rewrite Hg.
  rewrite decide_False by (by rewrite Hst; intros ?).
  rewrite decide_False by lia. by rewrite HM.
Qed.

Lemma stored_matrix_insert sessions g s :
  stored_matrix (<[g := s]> sessions) g = s.(probabilities).
Proof. unfold stored_matrix. by rewrite lookup_insert_eq. Qed.

Lemma make_final_assignments_cases sessions g rng :
  (make_final_assignments sessions g rng).1.1 = sessions
  ∨ ∃ s M assignments rng', sessions !! g = Some s ∧ s.(status) = algorithm_run
      ∧ s.(probabilities) = Some M
      ∧ _probabilities_to_assignments M rng = Some (assignments, rng')
      ∧ make_final_assignments sessions g rng =
          (<[g := with_assignments s assignments]> sessions,
           FinalAssignments
             <$> _format_assignments assignments s.(items) s.(preferences),
           rng').
Proof.
  unfold make_final_assignments. destruct (sessions !! g) as [s|] eqn:Hg; [|by left].
  destruct (decide (s.(status) ≠ algorithm_run)) as [|Hst%dec_stable]; [by left|].
  destruct (s.(probabilities)) as [M|] eqn:HM; [|by left]. simpl.
  destruct (_probabilities_to_assignments M rng) as [[assignments rng']|] eqn:Ha;
    [|by left].
  right. exists s, M, assignments, rng'. split_and!; try done.
  unfold with_assignments. by rewrite HM.
Qed.

Section Reachable.
Context `{CharDB}.


Lemma bot_wf_insert sessions g s :
  bot_wf sessions → session_wf s → bot_wf (<[g := s]> sessions).
Proof.
  intros Hwf Hs g' s'. destruct (decide (g = g')) as [->|Hne].
  - rewrite lookup_insert_eq. by intros [= <-].
  - rewrite lookup_insert_ne by done. apply Hwf.
Qed.

Lemma step_wf w c : bot_wf w.1 → bot_wf (step w c).1.
Proof.
  intros Hwf. destruct c as [g its|g|g u text|g|g|g]; simpl.
  - unfold start_session. destruct (w.1 !! g) eqn:Hg; [done|]. simpl.
    apply bot_wf_insert; [done|]. split; simpl; try done.
    + constructor.
    + intros kv Hkv. by apply elem_of_nil in Hkv.
  - unfold cancel_session. destruct (w.1 !! g) eqn:Hg; [|done]. simpl.
    intros g' s'. intros Hl. apply lookup_delete_Some in Hl as [_ Hl]. by eapply Hwf.
  - destruct (submit_ranking_cases w.1 g u text)
      as [->|(s & ranking & Hg & Hst & Hperm & Hpos & ->)]; [done|].
    apply bot_wf_insert; [done|]. pose proof (Hwf g s Hg) as Hs.
    split; simpl.
    + apply dict_set_NoDup, Hs.
    + intros kv [->|Hin]%dict_set_elem_of; [done|]. by apply (wf_rankings _ Hs).
    + intros _ Hnil. rewrite Hnil in Hpos. simpl in Hpos. lia.
    + apply (wf_collecting _ Hs).
    + by rewrite Hst.
    + apply (wf_final _ Hs).
  - done.
  - destruct (run_algorithm_cases w.1 g)
      as [->|(s & M & Hg & Hst & Hlen & HM & ->)]; [done|].
    apply bot_wf_insert; [done|]. pose proof (Hwf g s Hg) as Hs.
    split; simpl; try done; try apply Hs.
    destruct (wf_collecting _ Hs Hst) as [_ ->]. split; [by intros [? ?]|done].
  - destruct (make_final_assignments_cases w.1 g w.2)
      as [->|(s & M & assignments & rng' & Hg & Hst & HM & Ha & ->)]; [done|].
    apply bot_wf_insert; [done|]. pose proof (Hwf g s Hg) as Hs.
    split; simpl; try done; try apply Hs.
    intros _. apply (wf_algorithm_run _ Hs). by rewrite Hst.
Qed.

Lemma run_commands_wf w cs : bot_wf w.1 → bot_wf (run_commands w cs).1.
Proof.
  revert w. induction cs as [|c cs IH]; intros w Hwf; [done|].
  simpl. apply IH. by apply step_wf.
Qed.

Lemma reachable_wf sessions : reachable sessions → bot_wf sessions.
Proof.
  intros (cs & rng & <-). apply run_commands_wf. intros g s Hg.
  simpl in Hg. by rewrite lookup_empty in Hg.
Qed.


End Reachable.

(** * The claims *)

Section SolverClaims.
Local Open Scope Q_scope.

Lemma classic_session_full :
  full_rankings (length classic_session.(items)) classic_session.(preferences).
Proof.
  intros kv Hkv. simpl in Hkv.
  repeat (apply elem_of_cons in Hkv as [->|Hkv]); simpl; try done.
  - apply perm_swap.
  - by apply elem_of_nil in Hkv.
Qed.


(** C1, as stated: on the classic case the solver would give participants
    1 and 2 the row [0.5, 0, 0.5] and participant 3 the row [0, 1, 0].  It
    does not: participant 1 holds a sixth of B. *)
Lemma classic_case_claimed_rows_fail :
  ¬ ∃ M, _bogomolnaia_moulin classic_session.(items) classic_session.(preferences) = Some M
      ∧ matrix_eq M [[1 # 2; 0; 1 # 2]; [1 # 2; 0; 1 # 2]; [0; 1; 0]].
Proof.
  intros (M & HM & Heq). vm_compute in HM. injection HM as <-.
  apply Forall2_cons_1 in Heq as [Hrow _].
  apply Forall2_cons_1 in Hrow as [_ Hrow].
  apply Forall2_cons_1 in Hrow as [Hx _].
  by vm_compute in Hx.
Qed.

(** C1, amended: on the classic case the solver gives participants 1 and 2
    the row [1/2, 1/6, 1/3] and participant 3 the row [0, 2/3, 1/3]; the
    bot's commands build that session from the three texts and
    [run_algorithm] stores that matrix. *)
Theorem classic_case_rows :
  (∃ M, _bogomolnaia_moulin classic_session.(items) classic_session.(preferences) = Some M
     ∧ matrix_eq M [[1 # 2; 1 # 6; 1 # 3]; [1 # 2; 1 # 6; 1 # 3]; [0; 2 # 3; 1 # 3]])
  ∧ classic_store !! "correctness_test" = Some classic_session
  ∧ ∃ M, stored_matrix (run_algorithm classic_store "correctness_test").1
           "correctness_test" = Some M
     ∧ matrix_eq M [[1 # 2; 1 # 6; 1 # 3]; [1 # 2; 1 # 6; 1 # 3]; [0; 2 # 3; 1 # 3]].
Proof.
  assert (Hsolve : ∃ M,
    _bogomolnaia_moulin classic_session.(items) classic_session.(preferences) = Some M
    ∧ matrix_eq M [[1 # 2; 1 # 6; 1 # 3]; [1 # 2; 1 # 6; 1 # 3]; [0; 2 # 3; 1 # 3]]).
  { eexists. split; [vm_compute; reflexivity|]. repeat constructor; vm_compute; reflexivity. }
  assert (Hstore : classic_store !! "correctness_test" = Some classic_session).
  { vm_compute. reflexivity. }
  split_and!; [exact Hsolve|exact Hstore|].
  destruct Hsolve as (M & HM & Heq). exists M. split; [|exact Heq].
  rewrite (run_algorithm_success _ _ classic_session M);
    [apply stored_matrix_insert|exact Hstore|reflexivity|simpl; lia|exact HM].
Qed.

(** C2: on a valid session in the collecting state (full rankings, at
    least two items, at least as many rankings as items) [run_algorithm]
    succeeds and every row of the matrix it stores is nonnegative and sums
    to 1, exactly, hence within 1e-6. *)
Theorem stored_rows_sum_to_one sessions g s :
  sessions !! g = Some s → s.(status) = collecting →
  full_rankings (length s.(items)) s.(preferences) →
  (2 ≤ length s.(items))%nat → (length s.(items) ≤ length s.(preferences))%nat →
  ∃ M, run_algorithm sessions g =
         (<[g := with_probabilities s M]> sessions,
          AlgorithmResults (_format_probabilities M s.(items) s.(preferences)))
    ∧ stored_matrix (run_algorithm sessions g).1 g = Some M
    ∧ length M = length s.(preferences)
    ∧ ∀ p row, M !! p = Some row →
        length row = length s.(items) ∧ Forall (λ x, 0 <= x) row
        ∧ Qsum row == 1 ∧ Qabs (Qsum row - 1) <= 1 # 1000000.
Proof.
  intros Hg Hst Hfull Hitems Hlen.
  destruct (bogomolnaia_moulin_rows s.(items) s.(preferences) Hfull)
    as (M & HM & HlenM & Hrows).
  { intros Hnil. rewrite Hnil in Hitems. simpl in Hitems. lia. }
  exists M. rewrite (run_algorithm_success _ _ s M) by done.
  split_and!; [done|apply stored_matrix_insert|done|].
  intros p row Hrow. destruct (Hrows p row Hrow) as (? & ? & Hsum).
  split_and!; [done..|]. apply Qabs_Qle_condition. lra.
Qed.

Lemma stored_rows_sum_to_one_witness :
  ∃ M, stored_matrix
         (run_algorithm {["correctness_test" := classic_session]} "correctness_test").1
         "correctness_test" = Some M
    ∧ ∀ p row, M !! p = Some row → Qsum row == 1.
Proof.
  destruct (stored_rows_sum_to_one {["correctness_test" := classic_session]}
              "correctness_test" classic_session) as (M & _ & HM & _ & Hrows).
  - apply lookup_singleton_eq.
  - reflexivity.
  - apply classic_session_full.
  - simpl. lia.
  - simpl. lia.
  - exists M. split; [exact HM|]. intros p row Hrow. apply (Hrows p row Hrow).
Defined.





(** C8: on full rankings of [m] items by [n] participants the matrix is
    built, the loop finishes within [n + m] rounds (a larger budget changes
    nothing), in a state where every remaining appetite is at most the
    threshold or no hungry participant has an item left; each round
    exhausts at least one of the [n + m] items and participants that are
    active at the start. *)
Theorem eating_loop_terminates (items : list string) preferences :
  full_rankings (length items) preferences →
  build_pref_matrix (length items) preferences = Some preferences.*2
  ∧ active (initial_state (length preferences) (length items))
      = (length items + length preferences)%nat
  ∧ (∀ st st', state_inv (length preferences) (length items) st →
       eat_round preferences.*2 (length items) st = Next st' →
       (active st' < active st)%nat)
  ∧ ∃ st,
      (∀ fuel, (length preferences + length items ≤ fuel)%nat →
         eat_loop fuel preferences.*2 (length items)
           (initial_state (length preferences) (length items)) = Finished st)
      ∧ (∀ p r, st.(person_remaining) !! p = Some r → 0 <= r)
      ∧ ((∀ p r, st.(person_remaining) !! p = Some r → r <= eps)
         ∨ no_eligible preferences.*2 st).
Proof.
  intros Hfull.
  set (n := length preferences). set (m := length items). set (pm := preferences.*2).
  assert (Hlen : length pm = n) by apply length_fmap.
  split_and!.
  - by apply build_pref_matrix_full.
  - apply initial_state_active.
  - intros st st' Hinv Hround. by eapply (eat_round_inv pm n m Hlen).
  - destruct (solve_full items preferences Hfull) as (st & Hst & Hinv & Hexit & _).
    unfold solve in Hst. rewrite build_pref_matrix_full in Hst by done.
    fold n m pm in Hst, Hinv, Hexit.
    exists st. split_and!.
    + intros fuel Hfuel.
      rewrite (eat_loop_more_fuel pm n m Hlen (n + m) fuel); [done|done|].
      by rewrite Hst.
    + apply (inv_person_nonneg _ _ _ Hinv).
    + destruct Hexit as [Hh|[_ Hno]]; [left|by right]. by apply hungry_false.
Qed.

Lemma eating_loop_terminates_witness :
  ∃ st, eat_loop 6 [[0; 1; 2]; [0; 1; 2]; [1; 0; 2]]%nat 3 (initial_state 3 3)
        = Finished st.
Proof.
  destruct (eating_loop_terminates classic_session.(items) classic_session.(preferences)
              classic_session_full) as (_ & _ & _ & st & Hst & _).
  exists st. apply (Hst 6%nat). simpl. lia.
Defined.

(** C10: on a matrix whose rows are categorical distributions over its
    columns, and for every stream of uniform draws in [0, 1), the sampler
    returns one index per row, each within the columns and of strictly
    positive probability in its row. *)
Theorem sampler_draws_positive_items M g :
  Forall (distribution (n_columns M)) M → uniform g →
  ∃ assignments g', _probabilities_to_assignments M g = Some (assignments, g')
    ∧ length assignments = length M
    ∧ ∀ p a, assignments !! p = Some a →
        (a < n_columns M)%nat
        ∧ ∃ row x, M !! p = Some row ∧ row !! a = Some x ∧ 0 < x.
Proof.
  intros HM Hg. unfold _probabilities_to_assignments.
  destruct (sample_rows_spec (n_columns M) M g HM Hg)
    as (assignments & g' & Hs & _ & Hlen & Hall).
  by exists assignments, g'.
Qed.

Lemma sampler_draws_positive_items_witness :
  ∃ assignments g',
    _probabilities_to_assignments [[1 # 2; 1 # 2]; [0; 1]] (λ _, 1 # 2)
      = Some (assignments, g')
    ∧ length assignments = 2%nat.
Proof.
  destruct (sampler_draws_positive_items [[1 # 2; 1 # 2]; [0; 1]] (λ _, 1 # 2))
    as (assignments & g' & Ha & Hlen & _).
  - repeat constructor; simpl; try lra; try reflexivity.
  - intros i. split; lra.
  - exists assignments, g'. split; [exact Ha|exact Hlen].
Defined.

(** ** The expectations of the repository's tests *)

(** [test_ranking_validation] of [test_bot.py]. *)
Example test_ranking_validation :
  map (λ s, is_ranking_format (H:=ascii_db) (codes s) None)
    ["1,2,3"; "3,1,2"; "2,3,1"; "1,2"; "2,1"; "1,2,4"; "1,1,2"; "a,b,c"; "1,2,"; ",1,2"]
  = Some <$> [true; true; true; true; true; false; false; false; false; false]
  ∧ is_ranking_format (H:=ascii_db) (codes "1,2,3,4") (Some 3%nat) = Some false
  ∧ is_ranking_format (H:=ascii_db) (codes "1,2,3") (Some 3%nat) = Some true.
Proof. vm_compute. done. Qed.

(** Two participants who both rank the first of two items first share
    both items equally. *)
Example two_by_two_case :
  map (map Qred) <$>
    _bogomolnaia_moulin ["Task A"; "Task B"] [("user1", [0; 1]); ("user2", [0; 1])]%nat
  = Some [[1 # 2; 1 # 2]; [1 # 2; 1 # 2]].
Proof. vm_compute. reflexivity. Qed.

(** [test_sequential_conflicts]: four participants, four items, every item
    fully consumed. *)
Example sequential_conflicts_case :
  map (map Qred) <$>
    _bogomolnaia_moulin ["W"; "X"; "Y"; "Z"]
      [("user1", [0; 1; 2; 3]); ("user2", [0; 1; 3; 2]);
       ("user3", [1; 0; 2; 3]); ("user4", [1; 0; 3; 2])]%nat
  = Some [[1 # 2; 0; 1 # 2; 0]; [1 # 2; 0; 0; 1 # 2];
          [0; 1 # 2; 1 # 2; 0]; [0; 1 # 2; 0; 1 # 2]].
Proof. vm_compute. reflexivity. Qed.

(** A ranking that names an item the session does not have makes the
    solver raise, which [run_algorithm] turns into its error reply. *)
Example out_of_range_ranking_raises :
  _bogomolnaia_moulin ["A"; "B"] [("user1", [0; 5]); ("user2", [0; 1])]%nat = None.
Proof. vm_compute. reflexivity. Qed.

End SolverClaims.

Section StoreClaims.
Context `{CharDB}.

Lemma is_ranking_format_cleaned text n :
  is_ranking_format (remove_whitespace text) n = is_ranking_format text n.
Proof. unfold is_ranking_format. by rewrite remove_whitespace_idemp. Qed.

(** C4, as stated, fails on a number that [int()] refuses to convert: the
    text of 4300 zeros followed by a one is the single number 1, a
    permutation of [1..1], and the validator raises [ValueError] on it
    instead of accepting it. *)
Lemma validator_raises_on_long_number :
  ranking_spec (H:=ascii_db) (replicate 4300 48%N ++ [49%N]) 1
  ∧ is_ranking_format (H:=ascii_db) (replicate 4300 48%N ++ [49%N]) (Some 1) = None.
Proof.
  split; [|by vm_compute].
  exists [replicate 4300 48%N ++ [49%N]], [1]. split_and!.
  - done.
  - constructor; [|done]. split; [by destruct (replicate 4300 48%N)|].
    apply Forall_app. split; [by apply Forall_replicate|by constructor].
  - by vm_compute.
  - constructor; [by vm_compute|constructor].
  - done.
  - done.
Qed.


(** One command, seen from a group that keeps its session. *)
Lemma step_status w c g s :
  w.1 !! g = Some s → c ≠ CancelSession g →
  ∃ s', (step w c).1 !! g = Some s'
    ∧ if run_succeeds g w c
      then s.(status) = collecting ∧ s'.(status) = algorithm_run
      else s'.(status) = s.(status)
           ∨ (s.(status) = algorithm_run ∧ s'.(status) = completed).
Proof.
  intros Hg Hc. destruct c as [g' its|g'|g' u text|g'|g'|g']; simpl.
  - unfold start_session. destruct (w.1 !! g') eqn:Hg'; simpl; [by eauto|].
    exists s. split; [|by left]. rewrite lookup_insert_ne; [done|]. congruence.
  - unfold cancel_session. destruct (w.1 !! g') eqn:Hg'; simpl; [|by eauto].
    exists s. split; [|by left]. rewrite lookup_delete_ne; [done|]. congruence.
  - destruct (submit_ranking_cases w.1 g' u text)
      as [->|(s0 & ranking & Hg' & _ & _ & _ & ->)]; [by eauto|].
    destruct (decide (g' = g)) as [->|Hne].
    + assert (s0 = s) as -> by congruence.
      eexists. split; [apply lookup_insert_eq|by left].
    + exists s. split; [by rewrite lookup_insert_ne|by left].
  - by eauto.
  - destruct (decide (g' = g)) as [->|Hne].
    + rewrite bool_decide_eq_true_2 by done. simpl.
      destruct (run_algorithm_cases w.1 g)
        as [Hsame|(s0 & M & Hg' & Hst & _ & _ & Hrun)].
      * rewrite Hsame. exists s. split; [done|].
        assert (match (run_algorithm w.1 g).2 with AlgorithmResults _ => true | _ => false end
                = false) as ->; [|by left].
        revert Hsame. unfold run_algorithm. rewrite Hg.
        destruct (decide _) as [|Hst%dec_stable]; [done|]. destruct (decide _); [done|].
        destruct (_bogomolnaia_moulin _ _); [|done]. simpl. intros Heq.
        assert (<[g := with_probabilities s l]> w.1 !! g = w.1 !! g) as Hl
          by by (unfold with_probabilities; rewrite Heq).
        rewrite lookup_insert_eq, Hg in Hl. injection Hl as Hl.
        apply (f_equal status) in Hl. simpl in Hl. congruence.
      * assert (s0 = s) as -> by congruence. rewrite Hrun. simpl.
        eexists. split; [apply lookup_insert_eq|done].
    + rewrite bool_decide_eq_false_2 by done. simpl.
      destruct (run_algorithm_cases w.1 g')
        as [->|(s0 & M & Hg' & _ & _ & _ & ->)]; [by eauto|].
      exists s. simpl. split; [by rewrite lookup_insert_ne|by left].
  - destruct (make_final_assignments_cases w.1 g' w.2)
      as [->|(s0 & M & a & rng' & Hg' & Hst & _ & _ & ->)]; [by eauto|].
    simpl. destruct (decide (g' = g)) as [->|Hne].
    + assert (s0 = s) as -> by congruence.
      eexists. split; [apply lookup_insert_eq|by right].
    + exists s. split; [by rewrite lookup_insert_ne|by left].
Qed.

Lemma run_algorithm_wrong_state sessions g s :
  sessions !! g = Some s → s.(status) ≠ collecting →
  run_algorithm sessions g = (sessions, AlgorithmAlreadyRun).
Proof. intros Hg Hst. unfold run_algorithm. by rewrite Hg, decide_True. Qed.

Lemma make_final_assignments_wrong_state sessions g s rng :
  sessions !! g = Some s → s.(status) ≠ algorithm_run →
  make_final_assignments sessions g rng = (sessions, Some RunAlgorithmFirst, rng).
Proof. intros Hg Hst. unfold make_final_assignments. by rewrite Hg, decide_True. Qed.

Lemma run_commands_status w cs g s :
  w.1 !! g = Some s → CancelSession g ∉ cs →
  ∃ s', (run_commands w cs).1 !! g = Some s'
    ∧ status_rank s.(status) ≤ status_rank s'.(status)
    ∧ successful_runs g w cs ≤ 1
    ∧ (s.(status) = collecting →
       (s'.(status) = collecting ↔ successful_runs g w cs = 0))
    ∧ (s.(status) ≠ collecting → successful_runs g w cs = 0).
Proof.
  revert w s. induction cs as [|c cs IH]; intros w s Hg Hcs.
  { exists s. simpl. split_and!; [done|lia|lia|done|done]. }
  apply not_elem_of_cons in Hcs as [Hc Hcs].
  destruct (step_status w c g s Hg) as (s1 & Hg1 & Hstep); [done|].
  destruct (IH (step w c) s1 Hg1 Hcs) as (s' & Hg' & Hrank & Hle & Hcoll & Hnot).
  exists s'. simpl. split; [done|].
  destruct (run_succeeds g w c).
  - destruct Hstep as [Hs Hs1].
    assert (successful_runs g (step w c) cs = 0) as Hz by (apply Hnot; by rewrite Hs1).
    rewrite Hz. rewrite Hs, Hs1 in *. simpl in *. split_and!; [lia|lia| |done].
    intros _. split; [|lia]. intros Hs'. rewrite Hs' in Hrank. simpl in Hrank. lia.
  - simpl. destruct Hstep as [Hs1|[Hs Hs1]].
    + rewrite Hs1 in *. done.
    + rewrite Hs, Hs1 in *. simpl in *.
      split_and!; [lia|done|done|]. intros _. by apply Hnot.
Qed.

(** C5: as long as a group's session is not cancelled, whatever commands
    arrive, the session stays, its status never moves backward along
    collecting, algorithm_run, completed, at most one [run_algorithm]
    succeeds on it (none unless it was collecting, and it is still
    collecting exactly when none did); and in the state reached,
    [make_final_assignments] is refused unless the status is algorithm_run
    and [run_algorithm] is refused unless it is collecting. *)
Theorem status_only_moves_forward w cs g s :
  w.1 !! g = Some s → CancelSession g ∉ cs →
  ∃ s', (run_commands w cs).1 !! g = Some s'
    ∧ status_rank s.(status) ≤ status_rank s'.(status)
    ∧ successful_runs g w cs ≤ 1
    ∧ (s.(status) = collecting →
       (s'.(status) = collecting ↔ successful_runs g w cs = 0))
    ∧ (s.(status) ≠ collecting → successful_runs g w cs = 0)
    ∧ (s'.(status) ≠ algorithm_run → ∀ rng,
       make_final_assignments (run_commands w cs).1 g rng
         = ((run_commands w cs).1, Some RunAlgorithmFirst, rng))
    ∧ (s'.(status) ≠ collecting →
       run_algorithm (run_commands w cs).1 g
         = ((run_commands w cs).1, AlgorithmAlreadyRun)).
Proof.
  intros Hg Hcs.
  destruct (run_commands_status w cs g s Hg Hcs) as (s' & Hg' & ? & ? & ? & ?).
  exists s'. split_and!; [done..| |].
  - intros Hst rng. by eapply make_final_assignments_wrong_state.
  - intros Hst. by eapply run_algorithm_wrong_state.
Qed.

(** Cancelling a group that has no session fails and leaves the store as
    it was. *)
Lemma cancel_session_absent sessions g :
  sessions !! g = None → cancel_session sessions g = (sessions, false).
Proof. intros Hg. unfold cancel_session. by rewrite Hg. Qed.

(** C6: in a collecting session a valid ranking is accepted and overwrites
    the participant's previous entry: afterwards the participant's entry is
    the ranking just typed, whatever was stored before, and every other
    participant's entry is as it was; no entry is added when the participant
    had one (same participants in the same order, same count), one is
    appended otherwise; there is one entry per participant, so the
    collected count is the number of distinct participants; the reply
    reports that count; and submitting the same text again leaves the store
    as it is and reports the same count. *)
Theorem resubmission_overwrites sessions g u text s :
  reachable sessions → sessions !! g = Some s → s.(status) = collecting →
  is_ranking_format text (Some (length s.(items))) = Some true →
  ∃ ranking prefs',
    to_indices (remove_whitespace text) = Some ranking
    ∧ submit_ranking sessions g u text =
        (<[g := with_preferences s prefs']> sessions,
         Some (true, RankingSubmitted (length prefs') (length s.(items))))
    ∧ dict_get u prefs' = Some ranking
    ∧ (∀ u', u' ≠ u → dict_get u' prefs' = dict_get u' s.(preferences))
    ∧ (u ∈ keys s.(preferences) →
       keys prefs' = keys s.(preferences) ∧ length prefs' = length s.(preferences))
    ∧ (u ∉ keys s.(preferences) → keys prefs' = keys s.(preferences) ++ [u])
    ∧ NoDup (keys prefs')
    ∧ length prefs' = size (list_to_set (C:=gset string) (keys prefs'))
    ∧ submit_ranking (<[g := with_preferences s prefs']> sessions) g u text =
        (<[g := with_preferences s prefs']> sessions,
         Some (true, RankingSubmitted (length prefs') (length s.(items)))).
Proof.
  intros Hreach Hg Hst Hok. rewrite <- is_ranking_format_cleaned in Hok.
  pose proof (reachable_wf _ Hreach g s Hg) as Hs.
  destruct (submit_ranking_accepted sessions g u text s Hg Hst Hok)
    as (ranking & Hidx & _ & _ & Hsub).
  exists ranking, (dict_set u ranking s.(preferences)).
  assert (Hnd : NoDup (keys (dict_set u ranking s.(preferences)))).
  { apply dict_set_NoDup, Hs. }
  split_and!; [done|done| | | | |done| |].
  - apply dict_get_set_eq.
  - intros u' Hu'. by apply dict_get_set_ne.
  - intros Hu. split; [by apply dict_set_keys_in|by apply dict_set_length_in].
  - apply dict_set_keys_notin.
  - rewrite size_list_to_set by done. unfold keys. by rewrite length_fmap.
  - destruct (submit_ranking_accepted
                (<[g := with_preferences s (dict_set u ranking s.(preferences))]> sessions)
                g u text (with_preferences s (dict_set u ranking s.(preferences))))
      as (ranking' & Hidx' & _ & _ & ->); [apply lookup_insert_eq|done|done|].
    assert (ranking' = ranking) as -> by congruence. simpl.
    unfold with_preferences. simpl. by rewrite insert_insert_eq, dict_set_idemp.
Qed.

(** C7: on every store the bot can reach, [run_algorithm] answers "no
    active session" when the group has none, "already run" when the status
    is not collecting, "need rankings" when fewer rankings than items are
    collected, each time leaving the store as it was (in the last case the
    session is still collecting and holds no matrix); in every other case
    the solver returns a matrix, which is stored, and the status becomes
    algorithm_run. *)
Theorem run_algorithm_outcomes sessions g :
  reachable sessions →
  match sessions !! g with
  | None => run_algorithm sessions g = (sessions, NoActiveSession)
  | Some s =>
      if decide (s.(status) ≠ collecting) then
        run_algorithm sessions g = (sessions, AlgorithmAlreadyRun)
      else if decide (length s.(preferences) < length s.(items)) then
        run_algorithm sessions g =
          (sessions, NeedRankings (length s.(items)) (length s.(preferences)))
        ∧ s.(status) = collecting ∧ s.(probabilities) = None
      else
        ∃ M, _bogomolnaia_moulin s.(items) s.(preferences) = Some M
          ∧ run_algorithm sessions g =
              (<[g := with_probabilities s M]> sessions,
               AlgorithmResults (_format_probabilities M s.(items) s.(preferences)))
          ∧ (with_probabilities s M).(status) = algorithm_run
          ∧ stored_matrix (run_algorithm sessions g).1 g = Some M
  end.
Proof.
  intros Hreach. destruct (sessions !! g) as [s|] eqn:Hg.
  - pose proof (reachable_wf _ Hreach g s Hg) as Hs.
    destruct (decide (s.(status) ≠ collecting)) as [Hst|Hst%dec_stable].
    { by apply (run_algorithm_wrong_state _ _ s). }
    destruct (decide (length s.(preferences) < length s.(items))) as [Hlt|Hge].
    { split_and!; [|done|by apply (wf_collecting _ Hs)].
      unfold run_algorithm. rewrite Hg.
      rewrite decide_False by (by rewrite Hst; intros ?). by rewrite decide_True. }
    destruct (bogomolnaia_moulin_full s.(items) s.(preferences) (wf_rankings _ Hs))
      as (st & HM & _).
    exists (normalize st.(prob)).
    rewrite (run_algorithm_success _ _ s (normalize st.(prob))) by (done || lia).
    split_and!; [done..|]. apply stored_matrix_insert.
  - unfold run_algorithm. by rewrite Hg.
Qed.

(** C9: when [make_final_assignments] completes a session, the session
    stays in the store with status completed: [start_session] for the same
    group is refused, also after any further commands that do not cancel
    it; [cancel_session] succeeds and only then a new session can start. *)
Theorem completed_session_stays sessions g s M rng assignments rng' :
  sessions !! g = Some s → s.(status) = algorithm_run →
  s.(probabilities) = Some M →
  _probabilities_to_assignments M rng = Some (assignments, rng') →
  ∃ sessions',
    (make_final_assignments sessions g rng).1.1 = sessions'
    ∧ sessions' !! g = Some (with_assignments s assignments)
    ∧ (with_assignments s assignments).(status) = completed
    ∧ (∀ items, start_session sessions' g items = (sessions', false))
    ∧ (∀ cs rng0 items, CancelSession g ∉ cs →
         (start_session (run_commands (sessions', rng0) cs).1 g items).2 = false)
    ∧ cancel_session sessions' g = (delete g sessions', true)
    ∧ (∀ items, (start_session (delete g sessions') g items).2 = true).
Proof.
  intros Hg Hst HM Ha.
  exists (<[g := with_assignments s assignments]> sessions).
  assert (Hl : <[g := with_assignments s assignments]> sessions !! g
               = Some (with_assignments s assignments)) by apply lookup_insert_eq.
  split_and!.
  - unfold make_final_assignments. rewrite Hg.
    rewrite decide_False by (by rewrite Hst; intros ?).
    rewrite HM. simpl. rewrite Ha. simpl. unfold with_assignments. by rewrite HM.
  - done.
  - done.
  - intros its. unfold start_session. by rewrite Hl.
  - intros cs rng0 its Hcs.
    destruct (run_commands_status
                (<[g := with_assignments s assignments]> sessions, rng0) cs g
                (with_assignments s assignments) Hl Hcs) as (s' & Hs' & _).
    unfold start_session. by rewrite Hs'.
  - unfold cancel_session. by rewrite Hl.
  - intros its. unfold start_session. by rewrite lookup_delete_eq.
Qed.

End StoreClaims.

(** ** The claims at concrete stores *)

Section Witnesses.
Local Open Scope Q_scope.

Lemma status_only_moves_forward_witness :
  ∃ s', (run_commands (H:=ascii_db)
           ({["correctness_test" := classic_session]}, λ _, 1 # 2)
           [RunAlgorithm "correctness_test"; RunAlgorithm "correctness_test";
            MakeFinalAssignments "correctness_test"; GetStatus "correctness_test"]).1
          !! "correctness_test" = Some s'
    ∧ (status_rank classic_session.(status) ≤ status_rank s'.(status))%nat.
Proof.
  destruct (status_only_moves_forward (H:=ascii_db)
              ({["correctness_test" := classic_session]}, λ _, 1 # 2)
              [RunAlgorithm "correctness_test"; RunAlgorithm "correctness_test";
               MakeFinalAssignments "correctness_test"; GetStatus "correctness_test"]
              "correctness_test" classic_session) as (s' & Hs' & Hrank & _).
  - apply lookup_singleton_eq.
  - intros Hin. repeat (apply elem_of_cons in Hin as [Hin|Hin]; [discriminate Hin|]).
    by apply elem_of_nil in Hin.
  - exists s'. split; [exact Hs'|exact Hrank].
Defined.

Lemma classic_store_reachable : reachable (H:=ascii_db) classic_store.
Proof. by exists classic_commands, (λ _, 0). Qed.

Lemma classic_store_lookup : classic_store !! "correctness_test" = Some classic_session.
Proof. vm_compute. reflexivity. Qed.

Lemma resubmission_overwrites_witness :
  dict_get "user3" classic_session.(preferences) = Some [1; 0; 2]%nat
  ∧ ∃ prefs',
      submit_ranking (H:=ascii_db) classic_store
        "correctness_test" "user3" (codes "3, 2, 1")
      = (<["correctness_test" := with_preferences classic_session prefs']> classic_store,
         Some (true, RankingSubmitted 3 3))
      ∧ dict_get "user3" prefs' = Some [2; 1; 0]%nat.
Proof.
  split; [reflexivity|].
  destruct (resubmission_overwrites (H:=ascii_db) classic_store
              "correctness_test" "user3" (codes "3, 2, 1") classic_session)
    as (ranking & prefs' & Hidx & Hsub & Hget & _ & Hlen & _).
  - apply classic_store_reachable.
  - apply classic_store_lookup.
  - reflexivity.
  - vm_compute. reflexivity.
  - exists prefs'. vm_compute in Hidx. injection Hidx as <-.
    split; [|exact Hget]. rewrite Hsub.
    destruct Hlen as [_ ->]; [|reflexivity].
    apply (bool_decide_unpack _). vm_compute. exact I.
Defined.

Lemma run_algorithm_outcomes_witness :
  ∃ M, stored_matrix (run_algorithm classic_store "correctness_test").1
         "correctness_test" = Some M.
Proof.
  pose proof (run_algorithm_outcomes (H:=ascii_db) classic_store "correctness_test"
                classic_store_reachable) as Hrun.
  rewrite classic_store_lookup in Hrun.
  destruct (decide (classic_session.(status) ≠ collecting)) as [Hne|_];
    [exfalso; apply Hne; reflexivity|].
  destruct (decide (length classic_session.(preferences)
                    < length classic_session.(items))%nat) as [Hlt|_];
    [exfalso; simpl in Hlt; lia|].
  destruct Hrun as (M & _ & _ & _ & HM). exists M. exact HM.
Defined.

Lemma completed_session_stays_witness :
  ∃ sessions',
    (make_final_assignments
       {["g" := with_probabilities crowded_session [[1 # 2; 1 # 2]; [1 # 2; 1 # 2]; [1 # 2; 1 # 2]]]}
       "g" (λ _, 1 # 4)).1.1 = sessions'
    ∧ (start_session sessions' "g" ["X"; "Y"]).2 = false.
Proof.
  destruct (completed_session_stays (H:=ascii_db)
              {["g" := with_probabilities crowded_session
                         [[1 # 2; 1 # 2]; [1 # 2; 1 # 2]; [1 # 2; 1 # 2]]]}
              "g"
              (with_probabilities crowded_session
                 [[1 # 2; 1 # 2]; [1 # 2; 1 # 2]; [1 # 2; 1 # 2]])
              [[1 # 2; 1 # 2]; [1 # 2; 1 # 2]; [1 # 2; 1 # 2]]
              (λ _, 1 # 4) [0; 0; 0]%nat (λ _, 1 # 4))
    as (sessions' & Hmake & _ & _ & Hstart & _).
  - apply lookup_singleton_eq.
  - reflexivity.
  - reflexivity.
  - vm_compute. reflexivity.
  - exists sessions'. split; [exact Hmake|]. by rewrite Hstart.
Defined.

End Witnesses.

(** * Further properties *)

(** ** The store *)


Section StoreExtras.
Context `{CharDB}.

Lemma step_other_group w c g :
  command_group c ≠ g → (step w c).1 !! g = w.1 !! g.
Proof.
  intros Hne. destruct c as [g' its|g'|g' u text|g'|g'|g']; simpl in *.
  - unfold start_session. destruct (w.1 !! g'); simpl; [done|].
    by rewrite lookup_insert_ne.
  - unfold cancel_session. destruct (w.1 !! g'); simpl; [|done].
    by rewrite lookup_delete_ne.
  - destruct (submit_ranking_cases w.1 g' u text)
      as [->|(s0 & ranking & _ & _ & _ & _ & ->)]; [done|].
    by rewrite lookup_insert_ne.
  - done.
  - destruct (run_algorithm_cases w.1 g')
      as [->|(s0 & M & _ & _ & _ & _ & ->)]; [done|].
    simpl. by rewrite lookup_insert_ne.
  - destruct (make_final_assignments_cases w.1 g' w.2)
      as [->|(s0 & M & a & rng' & _ & _ & _ & _ & ->)]; [done|].
    simpl. by rewrite lookup_insert_ne.
Qed.

(** One command, seen from a session that is not cancelled: what it may
    change. *)
Lemma step_frozen w c g s :
  w.1 !! g = Some s → c ≠ CancelSession g →
  ∃ s', (step w c).1 !! g = Some s'
    ∧ s'.(items) = s.(items)
    ∧ keys s.(preferences) `prefix_of` keys s'.(preferences)
    ∧ status_rank s.(status) ≤ status_rank s'.(status)
    ∧ (s.(status) ≠ collecting →
       s'.(preferences) = s.(preferences) ∧ s'.(probabilities) = s.(probabilities))
    ∧ (s.(status) = completed → s' = s).
Proof.
  intros Hg Hc.
  assert (Hsame : ∃ s', w.1 !! g = Some s'
    ∧ s'.(items) = s.(items)
    ∧ keys s.(preferences) `prefix_of` keys s'.(preferences)
    ∧ status_rank s.(status) ≤ status_rank s'.(status)
    ∧ (s.(status) ≠ collecting →
       s'.(preferences) = s.(preferences) ∧ s'.(probabilities) = s.(probabilities))
    ∧ (s.(status) = completed → s' = s)).
  { exists s. by split_and!. }
  destruct (decide (command_group c = g)) as [Hcg|Hcg]; cycle 1.
  { rewrite step_other_group by done. done. }
  destruct c as [g' its|g'|g' u text|g'|g'|g']; simpl in Hcg; subst g'; simpl.
  - unfold start_session. by rewrite Hg.
  - done.
  - destruct (submit_ranking_cases w.1 g u text)
      as [->|(s0 & ranking & Hg' & Hst & _ & _ & ->)]; [done|].
    assert (s0 = s) as -> by congruence.
    eexists. split; [apply lookup_insert_eq|]. simpl. split_and!; [done| |done|done|].
    + destruct (decide (u ∈ keys s.(preferences))).
      * by rewrite dict_set_keys_in.
      * rewrite dict_set_keys_notin by done. by apply prefix_app_r.
    + intros Hcomp. congruence.
  - done.
  - destruct (run_algorithm_cases w.1 g)
      as [->|(s0 & M & Hg' & Hst & _ & _ & ->)]; [done|].
    assert (s0 = s) as -> by congruence. simpl.
    eexists. split; [apply lookup_insert_eq|]. simpl.
    split_and!; [done|done|rewrite Hst; simpl; lia|done|congruence].
  - destruct (make_final_assignments_cases w.1 g w.2)
      as [->|(s0 & M & a & rng' & Hg' & Hst & _ & _ & ->)]; [done|].
    assert (s0 = s) as -> by congruence. simpl.
    eexists. split; [apply lookup_insert_eq|]. simpl.
    split_and!; [done|done|rewrite Hst; simpl; lia|done|congruence].
Qed.


(** X1: starting a session for a group that has none creates a fresh
    collecting session under the group's id; it can be looked up, and
    cancelling it gives back the store as it was, after which a further
    cancel fails. *)
Theorem start_session_then_cancel sessions g its :
  sessions !! g = None →
  start_session sessions g its = (<[g := new_session its]> sessions, true)
  ∧ (start_session sessions g its).1 !! g = Some (new_session its)
  ∧ cancel_session (start_session sessions g its).1 g = (sessions, true)
  ∧ cancel_session sessions g = (sessions, false).
Proof.
  intros Hg. unfold start_session, cancel_session. rewrite Hg. simpl.
  rewrite lookup_insert_eq. split_and!; [done|done| |done].
  by rewrite delete_insert_id.
Qed.

(** X2: sessions of different groups do not interfere: commands addressed to
    other groups leave a group's entry of the store exactly as it was,
    present or absent. *)
Theorem other_groups_untouched w cs g :
  Forall (λ c, command_group c ≠ g) cs → (run_commands w cs).1 !! g = w.1 !! g.
Proof.
  intros Hcs. revert w. induction Hcs as [|c cs Hc _ IH]; intros w; [done|].
  simpl. rewrite IH. by apply step_other_group.
Qed.

(** X3: [submit_ranking] succeeds exactly when the group has a session that is
    collecting and the text is a valid ranking of the session's items; it
    raises exactly when the session is collecting and the validator raises;
    a submission that is refused or raises leaves the store untouched; and
    the second length check is dead code: the reply "Expected n items, got
    k" is never produced. *)
Theorem submit_ranking_verdict sessions g u text :
  (fst <$> (submit_ranking sessions g u text).2 = Some true ↔
     ∃ s, sessions !! g = Some s ∧ s.(status) = collecting
       ∧ is_ranking_format text (Some (length s.(items))) = Some true)
  ∧ ((submit_ranking sessions g u text).2 = None ↔
     ∃ s, sessions !! g = Some s ∧ s.(status) = collecting
       ∧ is_ranking_format text (Some (length s.(items))) = None)
  ∧ (fst <$> (submit_ranking sessions g u text).2 ≠ Some true →
     (submit_ranking sessions g u text).1 = sessions)
  ∧ (∀ success expected got,
       (submit_ranking sessions g u text).2 ≠ Some (success, ExpectedItems expected got)).
Proof.
  destruct (sessions !! g) as [s|] eqn:Hg; cycle 1.
  { unfold submit_ranking. rewrite Hg. simpl. split_and!; [| |done|done].
    - split; [done|]. by intros (s & ? & _).
    - split; [done|]. by intros (s & ? & _). }
  destruct (decide (s.(status) = collecting)) as [Hst|Hst]; cycle 1.
  { unfold submit_ranking. rewrite Hg. rewrite decide_True by done. simpl.
    split_and!; [| |done|done].
    - split; [done|]. intros (s' & ? & ? & _). congruence.
    - split; [done|]. intros (s' & ? & ? & _). congruence. }
  destruct (decide (is_ranking_format (remove_whitespace text)
                      (Some (length s.(items))) = Some true)) as [Hok|Hok].
  - destruct (submit_ranking_accepted _ _ u _ _ Hg Hst Hok) as (ranking & _ & _ & _ & ->).
    rewrite is_ranking_format_cleaned in Hok.
    simpl. split_and!; [| |done|done].
    + split; [|done]. intros _. by exists s.
    + split; [done|]. intros (s' & Hs' & _ & Hok').
      assert (s' = s) as -> by congruence. congruence.
  - rewrite (submit_ranking_refused _ _ u _ s) by done.
    rewrite is_ranking_format_cleaned in *. simpl.
    split_and!; [| |done|].
    + split.
      * by destruct (is_ranking_format text _) as [[|]|].
      * intros (s' & Hs' & _ & Hok'). assert (s' = s) as -> by congruence. done.
    + split.
      * intros Hnone. exists s. split_and!; [done..|].
        by destruct (is_ranking_format text _) as [[|]|].
      * intros (s' & Hs' & _ & Hok'). assert (s' = s) as -> by congruence.
        by rewrite Hok'.
    + intros ???. by destruct (is_ranking_format text _) as [[|]|].
Qed.

(** X4: what an accepted submission stores: the participant's entry becomes
    the typed numbers, each lowered by one, in the order they were typed;
    every other participant's entry is as before; a participant who had no
    entry is appended after the others; the items and the status are
    unchanged. *)
Theorem submit_ranking_stores sessions g u text s :
  sessions !! g = Some s → s.(status) = collecting →
  is_ranking_format text (Some (length s.(items))) = Some true →
  ∃ numbers s',
    mapM py_int (split comma (remove_whitespace text)) = Some numbers
    ∧ (submit_ranking sessions g u text).1 !! g = Some s'
    ∧ dict_get u s'.(preferences) = Some (Nat.pred <$> numbers)
    ∧ (∀ u', u' ≠ u → dict_get u' s'.(preferences) = dict_get u' s.(preferences))
    ∧ (u ∉ keys s.(preferences) →
       keys s'.(preferences) = keys s.(preferences) ++ [u]
       ∧ length s'.(preferences) = S (length s.(preferences)))
    ∧ s'.(items) = s.(items) ∧ s'.(status) = collecting
    ∧ s'.(probabilities) = s.(probabilities)
    ∧ s'.(final_assignments) = s.(final_assignments).
Proof.
  intros Hg Hst Hok.
  destruct (is_ranking_format_accepts _ _ Hok) as (_ & _ & _ & numbers & Hnum & _).
  rewrite <- is_ranking_format_cleaned in Hok.
  destruct (submit_ranking_accepted _ _ u _ _ Hg Hst Hok) as (ranking & Hidx & _ & _ & ->).
  assert (ranking = Nat.pred <$> numbers) as ->.
  { unfold to_indices in Hidx.
    rewrite (mapM_fmap_option _ Nat.pred _ _ Hnum) in Hidx. congruence. }
  exists numbers. eexists. split; [done|]. split; [apply lookup_insert_eq|]. simpl.
  split_and!; try done.
  - apply dict_get_set_eq.
  - intros u' Hu'. by apply dict_get_set_ne.
  - intros Hu. split; [by apply dict_set_keys_notin|by apply dict_set_length_notin].
Qed.

(** X5: as long as a group's session is not cancelled, whatever commands
    arrive: its items never change, no participant is ever removed or
    reordered, once the algorithm has run the rankings and the matrix are
    frozen, and a completed session does not change at all. *)
Theorem session_data_frozen w cs g s :
  w.1 !! g = Some s → CancelSession g ∉ cs →
  ∃ s', (run_commands w cs).1 !! g = Some s'
    ∧ s'.(items) = s.(items)
    ∧ keys s.(preferences) `prefix_of` keys s'.(preferences)
    ∧ (s.(status) ≠ collecting →
       s'.(preferences) = s.(preferences) ∧ s'.(probabilities) = s.(probabilities))
    ∧ (s.(status) = completed → s' = s).
Proof.
  intros Hg Hcs.
  enough (∃ s', (run_commands w cs).1 !! g = Some s'
    ∧ s'.(items) = s.(items)
    ∧ keys s.(preferences) `prefix_of` keys s'.(preferences)
    ∧ status_rank s.(status) ≤ status_rank s'.(status)
    ∧ (s.(status) ≠ collecting →
       s'.(preferences) = s.(preferences) ∧ s'.(probabilities) = s.(probabilities))
    ∧ (s.(status) = completed → s' = s)) as (s' & ? & ? & ? & _ & ? & ?).
  { by exists s'. }
  revert w s Hg. induction cs as [|c cs IH]; intros w s Hg.
  { exists s. by split_and!. }
  apply not_elem_of_cons in Hcs as [Hc Hcs].
  destruct (step_frozen w c g s Hg) as (s1 & Hg1 & Hit1 & Hk1 & Hr1 & Hf1 & Hc1); [done|].
  destruct (IH Hcs (step w c) s1 Hg1) as (s' & Hg' & Hit & Hk & Hr & Hf & Hc').
  exists s'. simpl. split_and!.
  - done.
  - congruence.
  - by etrans.
  - lia.
  - intros Hst. destruct (Hf1 Hst) as [Hp1 HM1].
    destruct Hf as [Hp HM].
    { intros Hs1. destruct (status s); [done|..]; rewrite Hs1 in Hr1; simpl in Hr1; lia. }
    split; congruence.
  - intros Hst. specialize (Hc1 Hst). subst s1. by apply Hc'.
Qed.

End StoreExtras.


(** ** The solver on any input *)

Section SolverExtras.
Local Open Scope Q_scope.

Lemma build_pref_matrix_lookup m prefs pm p u r :
  build_pref_matrix m prefs = Some pm → prefs !! p = Some (u, r) →
  ∃ row, pm !! p = Some row ∧ assign_row m r = Some row.
Proof.
  intros Hpm Hp. apply mapM_Some_1 in Hpm.
  destruct (Forall2_lookup_l _ _ _ _ _ Hpm Hp) as (row & ? & ?). by exists row.
Qed.

(** The loop keeps the invariant on any input. *)
Lemma eat_loop_state_inv pm n m fuel st st' :
  length pm = n → state_inv n m st → eat_loop fuel pm m st = Finished st' →
  state_inv n m st'.
Proof.
  intros Hlen Hinv Hloop.
  destruct (eat_loop_Finished pm m (state_inv n m) fuel st st') as [? _]; [done| |done|done].
  intros s s' Hs _ Hround.
  destruct (eat_round_Next pm n m s s' Hs Hlen Hround) as (tc & dt & _ & Hrf).
  by eapply round_facts_inv.
Qed.

Lemma Qsum_zero_all row : Forall (λ x, 0 <= x) row → Qsum row == 0 → Forall (λ x, x == 0) row.
Proof.
  intros Hnn Hsum. apply Forall_forall. intros x [i Hi]%list_elem_of_lookup.
  pose proof (elem_le_Qsum _ _ _ Hnn Hi).
  assert (0 <= x); [|lra].
  eapply Forall_forall in Hnn; [done|]. apply list_elem_of_lookup. eauto.
Qed.

Lemma normalize_row_zero row :
  Forall (λ x, 0 <= x) row → Qsum row == 0 →
  Forall (λ x, x == 0) (normalize_row row).
Proof.
  intros Hnn Hsum. unfold normalize_row.
  assert (Qeq_bool (Qsum row) 0 = true) as -> by by apply Qeq_bool_iff.
  apply Forall_forall. intros y Hy. apply list_elem_of_In, in_map_iff in Hy as (x & <- & Hx).
  apply list_elem_of_In in Hx.
  pose proof (Qsum_zero_all row Hnn Hsum) as Hall.
  eapply Forall_forall in Hall; [|done]. rewrite Hall. reflexivity.
Qed.

(** Whatever the input, a matrix the solver returns has one row per
    participant and one column per item, nothing negative, and every row
    sums to 1 unless it is all zero. *)
Lemma bogomolnaia_moulin_shape items prefs M :
  _bogomolnaia_moulin items prefs = Some M →
  length M = length prefs
  ∧ ∀ p row, M !! p = Some row →
      length row = length items ∧ Forall (λ x, 0 <= x) row
      ∧ (Qsum row == 1 ∨ Forall (λ x, x == 0) row).
Proof.
  unfold _bogomolnaia_moulin, solve.
  destruct (build_pref_matrix _ prefs) as [pm|] eqn:Hpm; [|done].
  assert (Hlen : length pm = length prefs) by (symmetry; by eapply length_mapM).
  destruct (eat_loop _ _ _ _) as [st| |] eqn:Hloop; [|done..]. intros [= <-].
  pose proof (eat_loop_state_inv _ _ _ _ _ _ Hlen (initial_state_inv _ _) Hloop) as Hinv.
  split.
  - by rewrite normalize_length, (inv_prob _ _ _ Hinv).
  - intros p row'. rewrite normalize_lookup.
    intros (row & Hrow & ->)%fmap_Some.
    destruct (inv_rows _ _ _ Hinv p row Hrow) as (Hl & Hnn & r & Hr & Hsum).
    pose proof (Qsum_nonneg _ Hnn) as Hs.
    destruct (Qlt_le_dec 0 (Qsum row)) as [Hpos|Hz].
    + destruct (normalize_row_distribution row Hnn Hpos) as (-> & ? & ?). auto.
    + assert (Qsum row == 0) as Hz' by lra.
      rewrite map_clamp0_nonneg by done. split_and!.
      * unfold normalize_row. by rewrite length_map.
      * eapply Forall_impl; [by apply normalize_row_zero|]. simpl. intros x ->. lra.
      * right. by apply normalize_row_zero.
Qed.

(** Two participants with the same ranking are in the same position at
    every round. *)
Lemma top_choice_same pm st tc p q :
  top_choice pm st = Some tc →
  st.(person_remaining) !! p = st.(person_remaining) !! q →
  pm !! p = pm !! q →
  tc !! p = tc !! q.
Proof.
  intros Htc Hpr Hpm. apply mapM_Some_1 in Htc.
  assert (Hz : zip st.(person_remaining) pm !! p = zip st.(person_remaining) pm !! q).
  { by rewrite !lookup_zip_with, Hpr, Hpm. }
  destruct (zip st.(person_remaining) pm !! p) as [x|] eqn:Hx.
  - destruct (Forall2_lookup_l _ _ _ _ _ Htc Hx) as (t & -> & Ht).
    symmetry in Hz. destruct (Forall2_lookup_l _ _ _ _ _ Htc Hz) as (t' & -> & Ht').
    congruence.
  - symmetry in Hz. apply Forall2_length in Htc.
    apply lookup_ge_None in Hx, Hz.
    rewrite !lookup_ge_None_2; [done|lia..].
Qed.

Lemma equal_treatment_loop pm n m fuel st st' p q :
  length pm = n → state_inv n m st → pm !! p = pm !! q →
  st.(person_remaining) !! p = st.(person_remaining) !! q →
  st.(prob) !! p = st.(prob) !! q →
  eat_loop fuel pm m st = Finished st' →
  st'.(prob) !! p = st'.(prob) !! q.
Proof.
  intros Hlen Hinv Hpm Hpr Hprob Hloop.
  destruct (eat_loop_Finished pm m
    (λ s, state_inv n m s
          ∧ s.(person_remaining) !! p = s.(person_remaining) !! q
          ∧ s.(prob) !! p = s.(prob) !! q) fuel st st') as [(_ & _ & ?) _];
    [done| |done|done].
  intros s s' (Hs & Hpr' & Hprob') _ Hround.
  destruct (eat_round_Next pm n m s s' Hs Hlen Hround) as (tc & dt & Htc & Hrf).
  split; [by eapply round_facts_inv|].
  pose proof (top_choice_same _ _ _ p q Htc Hpr' Hpm) as Ht.
  rewrite (rf_persons _ _ _ _ _ Hrf), (rf_prob _ _ _ _ _ Hrf).
  by rewrite !lookup_zip_with, Hpr', Hprob', Ht.
Qed.

(** In the first round every participant eats the item the ranking puts
    first. *)
Lemma top_choice_initial pm n m tc p j rest :
  top_choice pm (initial_state n m) = Some tc →
  pm !! p = Some (j :: rest) → (p < n)%nat → (j < m)%nat →
  tc !! p = Some (Some j).
Proof.
  intros Htc Hp Hpn Hj. apply mapM_Some_1 in Htc.
  assert (Hz : zip (initial_state n m).(person_remaining) pm !! p = Some (1, j :: rest)).
  { apply lookup_zip_Some. split; [|done]. simpl. by apply lookup_replicate_2. }
  destruct (Forall2_lookup_l _ _ _ _ _ Htc Hz) as (t & -> & Ht).
  unfold top_choice_of in Ht. simpl in Ht. rewrite lookup_replicate_2 in Ht by done.
  simpl in Ht. destruct (Qlt_le_dec eps 1) as [_|Hbad]; [|by exfalso]. done.
Qed.

(** With a hungry participant whose ranking starts with an item of the
    session, the first round eats. *)
Lemma first_round pm n m p j rest :
  length pm = n → Forall (Forall (λ j, (j < m)%nat)) pm →
  pm !! p = Some (j :: rest) →
  ∃ st tc dt, eat_round pm m (initial_state n m) = Next st
    ∧ top_choice pm (initial_state n m) = Some tc
    ∧ round_facts m (initial_state n m) st tc dt
    ∧ py_min (dt_candidates (initial_state n m) tc (eaters_per_item m tc)) = Some dt.
Proof.
  intros Hlen Hrange Hp.
  assert (Hpn : (p < n)%nat) by (rewrite <- Hlen; by eapply lookup_lt_Some).
  assert (Hj : (j < m)%nat).
  { eapply Forall_lookup_1 in Hrange; [|done]. by apply Forall_cons in Hrange as [? _]. }
  destruct (eat_round pm m (initial_state n m)) as [| |st] eqn:Hround.
  - by apply (eat_round_not_Raised pm n m Hrange) in Hround; [|apply initial_state_inv].
  - exfalso. apply (eat_round_Broke pm n m Hlen) in Hround; [|apply initial_state_inv].
    assert (Hp1 : (initial_state n m).(person_remaining) !! p = Some 1)
      by by apply lookup_replicate_2.
    assert (Hj1 : j ∈ j :: rest) by by left.
    destruct (Hround p 1 (j :: rest) Hp1 Hp eq_refl j Hj1) as (r & Hr & Hle).
    simpl in Hr. apply lookup_replicate in Hr as [-> _]. by apply Hle.
  - destruct (eat_round_Next_min pm n m _ st (initial_state_inv n m) Hlen Hround)
      as (tc & dt & Htc & Hmin & Hrf).
    by exists st, tc, dt.
Qed.

Lemma length_le_1 {A} (l : list A) :
  NoDup l → (∀ x y, x ∈ l → y ∈ l → x = y) → (length l ≤ 1)%nat.
Proof.
  intros Hnd Hall. destruct l as [|x [|y l]]; simpl; [lia..|].
  exfalso. apply NoDup_cons in Hnd as [Hx _]. apply Hx.
  rewrite (Hall x y); [by left|by left|by right; left].
Qed.


Lemma full_rankings_first m prefs p u r :
  full_rankings m prefs → (0 < m)%nat → prefs !! p = Some (u, r) →
  ∃ j rest, r = j :: rest ∧ (j < m)%nat ∧ prefs.*2 !! p = Some (j :: rest).
Proof.
  intros Hfull Hm Hp.
  assert (r ≡ₚ seq 0 m) as Hperm.
  { apply (Hfull (u, r)), list_elem_of_lookup. eauto. }
  destruct r as [|j rest].
  - apply Permutation_nil_l in Hperm. destruct m; [lia|done].
  - exists j, rest. split_and!; [done| |by rewrite list_lookup_fmap, Hp].
    assert (j ∈ seq 0 m) as Hj by (rewrite <- Hperm; by left).
    apply elem_of_seq in Hj. lia.
Qed.

Lemma initial_hungry n m p : (p < n)%nat → hungry (initial_state n m) = true.
Proof.
  intros Hp. apply hungry_true. exists p, 1. split; [|done].
  simpl. by apply lookup_replicate_2.
Qed.

(** When no two participants put the same item first, the first round
    lasts one unit of time and leaves nobody hungry. *)
Lemma no_conflict_solve (items : list string) prefs :
  full_rankings (length items) prefs → items ≠ [] → prefs ≠ [] →
  NoDup ((λ kv, first_choice kv.2) <$> prefs) →
  ∃ st tc dt,
    solve (length prefs + length items) items prefs = Finished st
    ∧ tc = (λ kv, first_choice kv.2) <$> prefs
    ∧ round_facts (length items) (initial_state (length prefs) (length items)) st tc dt
    ∧ dt == 1
    ∧ top_choice prefs.*2 (initial_state (length prefs) (length items)) = Some tc
    ∧ py_min (dt_candidates (initial_state (length prefs) (length items)) tc
                (eaters_per_item (length items) tc)) = Some dt
    ∧ eat_round prefs.*2 (length items) (initial_state (length prefs) (length items))
      = Next st
    ∧ hungry st = false.
Proof.
  intros Hfull Hitems Hprefs Hnd.
  set (n := length prefs). set (m := length items). set (pm := prefs.*2).
  assert (Hm : (0 < m)%nat) by (unfold m; destruct items; [done|simpl; lia]).
  assert (Hlen : length pm = n) by apply length_fmap.
  pose proof (full_rankings_range _ _ Hfull) as Hrange. fold m pm in Hrange.
  assert (Hn : (0 < n)%nat) by (unfold n; destruct prefs; [done|simpl; lia]).
  destruct (lookup_lt_is_Some_2 prefs 0%nat Hn) as [[u0 r0] Hp0].
  destruct (full_rankings_first _ _ _ _ _ Hfull Hm Hp0) as (j0 & rest0 & -> & Hj0 & Hpm0).
  destruct (first_round pm n m 0%nat j0 rest0 Hlen Hrange Hpm0)
    as (st & tc & dt & Hround & Htc & Hrf & Hmin).
  assert (Htc' : tc = (λ kv, first_choice kv.2) <$> prefs).
  { apply list_eq_same_length with n.
    - apply length_fmap.
    - rewrite (rf_length _ _ _ _ _ Hrf). simpl. apply length_replicate.
    - intros q t t' Hq Ht. rewrite list_lookup_fmap.
      destruct (lookup_lt_is_Some_2 prefs q Hq) as [[u r] Hr]. rewrite Hr. simpl.
      destruct (full_rankings_first _ _ _ _ _ Hfull Hm Hr) as (j & rest & -> & Hj & Hpmq).
      rewrite (top_choice_initial pm n m tc q j rest Htc Hpmq Hq Hj) in Ht.
      intros [= <-]. by injection Ht. }
  assert (Hdt : dt == 1).
  { destruct (rf_event _ _ _ _ _ Hrf) as [(j & r & Hr & Hne & Hz)|(p & r & j & Hr & _ & Hz)].
    - simpl in Hr. apply lookup_replicate in Hr as [-> _].
      assert (length (eaters_of tc j) ≤ 1)%nat as Hle.
      { apply length_le_1.
        - unfold eaters_of. apply NoDup_filter, NoDup_seq.
        - intros x y Hx%elem_of_eaters_of Hy%elem_of_eaters_of.
          rewrite <- Htc' in Hnd. by eapply NoDup_alt in Hnd. }
      destruct (eaters_of tc j) as [|e [|e' es]]; [done| |simpl in Hle; lia].
      change (of_nat (length [e])) with 1 in Hz. lra.
    - simpl in Hr. apply lookup_replicate in Hr as [-> _]. lra. }
  assert (hungry st = false) as Hfull'.
  { apply hungry_false. intros p r. rewrite (rf_persons _ _ _ _ _ Hrf).
    intros (r1 & t & -> & Hr1 & Ht)%lookup_zip_with_Some.
    simpl in Hr1. apply lookup_replicate in Hr1 as [-> Hp].
    rewrite Htc', list_lookup_fmap in Ht.
    destruct (lookup_lt_is_Some_2 prefs p Hp) as [[u r] Hr]. rewrite Hr in Ht.
    destruct (full_rankings_first _ _ _ _ _ Hfull Hm Hr) as (j & rest & -> & _).
    injection Ht as <-. simpl. assert (0 < eps) by done. lra. }
  exists st, tc, dt. split_and!; [|done..].
  unfold solve. rewrite build_pref_matrix_full by done. fold n m pm.
  assert (n + m = S (n - 1 + m))%nat as -> by lia.
  cbn [eat_loop]. rewrite (initial_hungry n m 0%nat) by done.
  rewrite Hround.
  destruct (n - 1 + m)%nat; simpl; by rewrite Hfull'.
Qed.

(** X6: two participants who submitted the same ranking get the same row of
    the matrix, on any input on which the solver returns. *)
Theorem equal_rankings_equal_rows items prefs M p q u u' r :
  _bogomolnaia_moulin items prefs = Some M →
  prefs !! p = Some (u, r) → prefs !! q = Some (u', r) →
  ∃ row, M !! p = Some row ∧ M !! q = Some row.
Proof.
  intros HM Hp Hq.
  destruct (bogomolnaia_moulin_shape _ _ _ HM) as [HlenM _].
  revert HM. unfold _bogomolnaia_moulin, solve.
  destruct (build_pref_matrix _ prefs) as [pm|] eqn:Hpm; [|done].
  assert (Hlen : length pm = length prefs) by (symmetry; by eapply length_mapM).
  destruct (eat_loop _ _ _ _) as [st| |] eqn:Hloop; [|done..]. intros [= <-].
  pose proof (lookup_lt_Some _ _ _ Hp) as Hpn. pose proof (lookup_lt_Some _ _ _ Hq) as Hqn.
  assert (Hrows : pm !! p = pm !! q).
  { destruct (build_pref_matrix_lookup _ _ _ _ _ _ Hpm Hp) as (row & -> & Hrow).
    destruct (build_pref_matrix_lookup _ _ _ _ _ _ Hpm Hq) as (row' & -> & Hrow').
    congruence. }
  assert (Heq : st.(prob) !! p = st.(prob) !! q).
  { eapply (equal_treatment_loop pm _ _ _ _ st p q Hlen (initial_state_inv _ _) Hrows);
      [..|done]; simpl; by rewrite !lookup_replicate_2. }
  rewrite !normalize_lookup, Heq.
  destruct (lookup_lt_is_Some_2 (normalize st.(prob)) q) as [row Hrow]; [lia|].
  rewrite normalize_lookup in Hrow. rewrite Hrow. by exists row.
Qed.

(** X7: on full rankings every participant has a positive probability of
    getting the item they ranked first. *)
Theorem first_choice_positive items prefs :
  full_rankings (length items) prefs →
  ∃ M, _bogomolnaia_moulin items prefs = Some M
    ∧ ∀ p u r j, prefs !! p = Some (u, r) → first_choice r = Some j →
        ∃ row x, M !! p = Some row ∧ row !! j = Some x ∧ 0 < x.
Proof.
  intros Hfull.
  destruct (bogomolnaia_moulin_full items prefs Hfull) as (st & HM & Hsolve & Hinv & _).
  exists (normalize st.(prob)). split; [done|]. intros p u r j Hp Hj.
  set (n := length prefs) in *. set (m := length items) in *. set (pm := prefs.*2).
  assert (Hlen : length pm = n) by apply length_fmap.
  pose proof (full_rankings_range _ _ Hfull) as Hrange. fold m pm in Hrange.
  pose proof (lookup_lt_Some _ _ _ Hp) as Hpn. fold n in Hpn.
  destruct r as [|j' rest]; [done|]. injection Hj as ->.
  assert (Hpmp : pm !! p = Some (j :: rest)) by (unfold pm; by rewrite list_lookup_fmap, Hp).
  assert (Hjm : (j < m)%nat).
  { eapply Forall_lookup_1 in Hrange; [|done]. by apply Forall_cons in Hrange as [? _]. }
  unfold solve in Hsolve. rewrite build_pref_matrix_full in Hsolve by done.
  fold n m pm in Hsolve.
  set (Q := λ s : eat_state, ∃ prow x, s.(prob) !! p = Some prow ∧ prow !! j = Some x ∧ 0 < x).
  destruct (eat_loop_Finished pm m
              (λ s, state_inv n m s ∧ (s = initial_state n m ∨ Q s))
              (n + m) (initial_state n m) st) as [[_ HQ] Hexit]; [| |done|].
  { split; [apply initial_state_inv|by left]. }
  { intros s s' [Hs HQ] _ Hround.
    destruct (eat_round_Next pm n m s s' Hs Hlen Hround) as (tc & dt & Htc & Hrf).
    split; [by eapply round_facts_inv|]. right.
    pose proof (rf_pos _ _ _ _ _ Hrf) as Hpos. unfold Q.
    rewrite (rf_prob _ _ _ _ _ Hrf), lookup_zip_with.
    destruct HQ as [->|(prow & x & Hprow & Hx & Hxpos)].
    - rewrite (top_choice_initial pm n m tc p j rest Htc Hpmp Hpn Hjm). simpl.
      rewrite lookup_replicate_2 by done. simpl.
      eexists _, (0 + dt). split_and!; [done| |lra].
      rewrite list_lookup_alter, decide_True by done.
      by rewrite lookup_replicate_2.
    - rewrite Hprow. simpl.
      destruct (lookup_lt_is_Some_2 tc p) as [t Ht].
      { rewrite (rf_length _ _ _ _ _ Hrf), (inv_persons _ _ _ Hs). done. }
      rewrite Ht. simpl. destruct t as [j'|]; [|by exists prow, x].
      destruct (decide (j' = j)) as [->|Hne].
      + eexists _, (x + dt). split_and!; [done| |lra].
        by rewrite list_lookup_alter, decide_True, Hx.
      + eexists _, x. split_and!; [done| |done].
        by rewrite list_lookup_alter_ne. }
  destruct HQ as [->|(prow & x & Hprow & Hx & Hxpos)].
  { exfalso. destruct Hexit as [Hh|[_ Hbroke]].
    - rewrite (initial_hungry n m p) in Hh; done.
    - destruct (first_round pm n m p j rest Hlen Hrange Hpmp) as (? & ? & ? & Hnext & _).
      congruence. }
  destruct (inv_rows _ _ _ Hinv p prow Hprow) as (_ & Hnn & _).
  pose proof (elem_le_Qsum _ _ _ Hnn Hx) as Hle.
  exists (normalize_row (map clamp0 prow)), (x / Qsum prow). split_and!.
  - by rewrite normalize_lookup, Hprow.
  - rewrite map_clamp0_nonneg, normalize_row_pos by (done || lra).
    change (map (λ x, x / Qsum prow) prow) with ((λ x, x / Qsum prow) <$> prow).
    by rewrite list_lookup_fmap, Hx.
  - apply Qlt_shift_div_l; lra.
Qed.

(** X8: on full rankings of at least one item of which no two put the same
    item first: the first round of the eating loop (there is one as soon as
    there is a participant) has every participant eat the first choice, it
    lasts one unit of time and leaves nobody hungry, so the loop ends
    there; the solver gives every participant the first choice with
    probability 1 and every other item with probability 0, and the rounding
    step then assigns everyone that first choice whatever the random
    draws. *)
Theorem distinct_first_choices_served items prefs g :
  full_rankings (length items) prefs → items ≠ [] →
  NoDup ((λ kv, first_choice kv.2) <$> prefs) → uniform g →
  (prefs ≠ [] →
   ∃ st dt,
     top_choice prefs.*2 (initial_state (length prefs) (length items))
       = Some ((λ kv, first_choice kv.2) <$> prefs)
     ∧ py_min (dt_candidates (initial_state (length prefs) (length items))
                 ((λ kv, first_choice kv.2) <$> prefs)
                 (eaters_per_item (length items) ((λ kv, first_choice kv.2) <$> prefs)))
       = Some dt
     ∧ dt == 1
     ∧ eat_round prefs.*2 (length items) (initial_state (length prefs) (length items))
       = Next st
     ∧ hungry st = false
     ∧ solve (length prefs + length items) items prefs = Finished st)
  ∧ ∃ M assignments g',
    _bogomolnaia_moulin items prefs = Some M
    ∧ (∀ p u r j, prefs !! p = Some (u, r) → first_choice r = Some j →
         ∃ row, M !! p = Some row ∧ length row = length items ∧ sure_of j row)
    ∧ _probabilities_to_assignments M g = Some (assignments, g')
    ∧ Some <$> assignments = (λ kv, first_choice kv.2) <$> prefs.
Proof.
  intros Hfull Hitems Hnd Hg. split.
  { intros Hprefs.
    destruct (no_conflict_solve items prefs Hfull Hitems Hprefs Hnd)
      as (st & tc & dt & Hsolve & -> & _ & Hdt & Htc & Hmin & Hround & Hh).
    by exists st, dt. }
  destruct (bogomolnaia_moulin_rows items prefs Hfull Hitems) as (M & HM & HlenM & Hrows).
  assert (Hsure : ∀ p u r j, prefs !! p = Some (u, r) → first_choice r = Some j →
            ∃ row, M !! p = Some row ∧ length row = length items ∧ sure_of j row).
  { intros p u r j Hp Hj.
    assert (Hprefs : prefs ≠ []) by (intros ->; by rewrite lookup_nil in Hp).
    destruct (no_conflict_solve items prefs Hfull Hitems Hprefs Hnd)
      as (st & tc & dt & Hsolve & Htc & Hrf & Hdt & _).
    unfold _bogomolnaia_moulin in HM. rewrite Hsolve in HM. injection HM as <-.
    pose proof (lookup_lt_Some _ _ _ Hp) as Hpn.
    assert (Hrow : st.(prob) !! p
              = Some (alter (λ x, x + dt) j (replicate (length items) 0))).
    { rewrite (rf_prob _ _ _ _ _ Hrf), lookup_zip_with. simpl.
      rewrite lookup_replicate_2 by done. simpl.
      by rewrite Htc, list_lookup_fmap, Hp; simpl; rewrite Hj. }
    destruct (lookup_lt_is_Some_2 (normalize st.(prob)) p) as [row' Hrow']; [lia|].
    exists row'. split; [done|]. destruct (Hrows p row' Hrow') as (Hl & _). split; [done|].
    rewrite normalize_lookup, Hrow in Hrow'. injection Hrow' as <-.
    assert (Hjm : (j < length items)%nat).
    { assert (0 < length items)%nat as Hm by (destruct items; [done|simpl; lia]).
      destruct (full_rankings_first _ _ _ _ _ Hfull Hm Hp) as (j' & rest & -> & ? & _).
      by injection Hj as <-. }
    assert (Hnn : Forall (λ x, 0 <= x) (alter (λ x, x + dt) j (replicate (length items) 0))).
    { apply Forall_alter; [apply Forall_replicate; lra|]. intros x _ Hx. simpl in Hx. lra. }
    assert (Hsum : Qsum (alter (λ x, x + dt) j (replicate (length items) 0)) == 1).
    { rewrite Qsum_alter_add by (by rewrite length_replicate).
      rewrite Qsum_replicate_0. lra. }
    rewrite map_clamp0_nonneg, normalize_row_pos by (done || lra).
    intros k x. 
    change (map ?f ?l) with (f <$> l). rewrite list_lookup_fmap.
    intros (y & Hy & ->)%fmap_Some. rewrite Hsum.
    rewrite list_lookup_alter in Hy.
    destruct (decide (j = k)) as [->|Hne].
    - rewrite decide_True by done.
      rewrite lookup_replicate_2 in Hy by done. injection Hy as <-.
      rewrite Hdt. reflexivity.
    - rewrite decide_False by done.
      apply lookup_replicate in Hy as [-> _]. reflexivity. }
  assert (Hdist : Forall (distribution (n_columns M)) M).
  { assert (Forall (distribution (length items)) M) as Hd.
    { apply Forall_forall. intros row [p Hp]%list_elem_of_lookup.
      destruct (Hrows p row Hp) as (? & ? & ?). by split. }
    destruct M as [|row M]; [constructor|]. simpl.
    pose proof Hd as [(-> & _) _]%Forall_cons. done. }
  destruct (sample_rows_spec (n_columns M) M g Hdist Hg)
    as (assignments & g' & Ha & _ & Hlen & Hall).
  exists M, assignments, g'. split_and!; [done|done|done|].
  apply list_eq_same_length with (length prefs); [apply length_fmap|rewrite length_fmap; lia|].
  intros p a t Hp. rewrite !list_lookup_fmap.
  destruct (lookup_lt_is_Some_2 assignments p) as [a0 Ha0]; [lia|].
  destruct (lookup_lt_is_Some_2 prefs p Hp) as [[u r] Hr].
  rewrite Ha0, Hr. simpl. intros [= <-] [= <-].
  destruct (Hall p a0 Ha0) as (_ & row & x & Hrow & Hx & Hpos).
  assert (0 < length items)%nat as Hm by (destruct items; [done|simpl; lia]).
  destruct (full_rankings_first _ _ _ _ _ Hfull Hm Hr) as (j & rest & -> & _).
  destruct (Hsure p u (j :: rest) j Hr eq_refl) as (row' & Hrow' & _ & Hs).
  assert (row' = row) as -> by congruence.
  specialize (Hs a0 x Hx). destruct (decide (a0 = j)) as [->|]; [done|]. lra.
Qed.

(** A malformed ranking among the stored preferences makes the solver
    raise. *)
Lemma malformed_raises items prefs u r :
  (u, r) ∈ prefs → malformed (length items) r →
  _bogomolnaia_moulin items prefs = None.
Proof.
  intros [p Hp]%list_elem_of_lookup Hbad. unfold _bogomolnaia_moulin, solve.
  destruct (build_pref_matrix _ prefs) as [pm|] eqn:Hpm; [|done].
  destruct (build_pref_matrix_lookup _ _ _ _ _ _ Hpm Hp) as (row & Hrow & Hassign).
  assert (Hlen : length pm = length prefs) by (symmetry; by eapply length_mapM).
  pose proof (lookup_lt_Some _ _ _ Hp) as Hpn.
  set (n := length prefs) in *. set (m := length items) in *.
  unfold assign_row in Hassign.
  destruct Hbad as [[Hl Hl1]|(j & rest & -> & Hj & Hm)].
  { rewrite decide_False in Hassign by done. by destruct r as [|? [|? ?]]. }
  assert (∃ rest', row = j :: rest') as [rest' ->].
  { destruct (decide _); [injection Hassign as <-; eauto|].
    destruct rest; [|done]. injection Hassign as <-.
    destruct m; [lia|]. simpl. eauto. }
  assert (top_choice pm (initial_state n m) = None) as Htc.
  { apply mapM_None, Exists_exists. exists (1, j :: rest'). split.
    - apply list_elem_of_lookup. exists p. apply lookup_zip_Some. split; [|done].
      simpl. by apply lookup_replicate_2.
    - unfold top_choice_of. simpl.
      destruct (Qlt_le_dec eps 1) as [_|Hbad]; [|by exfalso].
      by rewrite lookup_ge_None_2 by (rewrite length_replicate; lia). }
  destruct (n + m)%nat as [|fuel] eqn:Hfuel; [lia|]. simpl.
  rewrite (initial_hungry n m p Hpn). unfold eat_round. by rewrite Htc.
Qed.

(** X9: [run_algorithm] on a session that holds a malformed ranking: the
    solver raises, the reply is the error message, and the session is left
    as it was, still collecting. *)
Theorem malformed_ranking_error sessions g s u r :
  sessions !! g = Some s → s.(status) = collecting →
  (length s.(items) ≤ length s.(preferences))%nat →
  (u, r) ∈ s.(preferences) → malformed (length s.(items)) r →
  _bogomolnaia_moulin s.(items) s.(preferences) = None
  ∧ run_algorithm sessions g = (sessions, ErrorRunningAlgorithm).
Proof.
  intros Hg Hst Hlen Hin Hbad.
  pose proof (malformed_raises _ _ _ _ Hin Hbad) as HM. split; [done|].
  unfold run_algorithm. rewrite Hg.
  rewrite decide_False by (by rewrite Hst; intros ?).
  rewrite decide_False by lia. by rewrite HM.
Qed.

(** X10: whatever the stored preferences, a matrix the solver returns has one
    row per participant and one entry per item, every entry lies between 0
    and 1, and every row sums to 1 unless it is all zero (the guard
    against a division by zero). *)
Theorem solver_rows_normalized items prefs M :
  _bogomolnaia_moulin items prefs = Some M →
  length M = length prefs
  ∧ ∀ p row, M !! p = Some row →
      length row = length items
      ∧ Forall (λ x, 0 <= x ∧ x <= 1) row
      ∧ (Qsum row == 1 ∨ Forall (λ x, x == 0) row).
Proof.
  intros HM. destruct (bogomolnaia_moulin_shape _ _ _ HM) as [Hlen Hrows].
  split; [done|]. intros p row Hrow.
  destruct (Hrows p row Hrow) as (Hl & Hnn & Hsum). split_and!; [done| |done].
  apply Forall_forall. intros x [i Hi]%list_elem_of_lookup. split.
  - eapply Forall_forall in Hnn; [done|]. apply list_elem_of_lookup. eauto.
  - destruct Hsum as [Hsum|Hz].
    + pose proof (elem_le_Qsum _ _ _ Hnn Hi). lra.
    + eapply Forall_forall in Hz; [|apply list_elem_of_lookup; eauto]. lra.
Qed.

End SolverExtras.


(** ** The rounding step *)

Section SamplerExtras.
Local Open Scope Q_scope.

Lemma searchsorted_right_le cdf u : (searchsorted_right cdf u ≤ length cdf)%nat.
Proof.
  induction cdf as [|c cdf IH]; simpl; [lia|]. destruct (Qlt_le_dec u c); lia.
Qed.

Lemma length_cumsum_from acc p : length (cumsum_from acc p) = length p.
Proof. revert acc. induction p as [|x p IH]; intros acc; simpl; [done|]. by rewrite IH. Qed.

Lemma random_choice_draw a p g i g' :
  random_choice a p g = Some (i, g') →
  (i ≤ a)%nat ∧ (∀ k, g' k = g (S k))
  ∧ ∀ h, h 0%nat = g 0%nat → fst <$> random_choice a p h = Some i.
Proof.
  unfold random_choice.
  destruct (decide (a = 0%nat)); [done|].
  destruct (decide (length p ≠ a)) as [|Hlen%dec_stable]; [done|].
  destruct (existsb _ p); [done|].
  destruct (Qlt_le_dec atol _); [done|].
  unfold random_sample. intros [= <- <-]. split_and!.
  - etrans; [apply searchsorted_right_le|].
    unfold cumsum. by rewrite length_map, length_cumsum_from, Hlen.
  - done.
  - intros h Hh. simpl. by rewrite Hh.
Qed.

Lemma sample_rows_draws m rows g assignments g' :
  sample_rows m rows g = Some (assignments, g') →
  length assignments = length rows
  ∧ (∀ k, g' k = g (length rows + k)%nat)
  ∧ ∀ p row, rows !! p = Some row →
      ∃ a, assignments !! p = Some a ∧ (a ≤ m)%nat
        ∧ fst <$> random_choice m row (λ k, g (p + k)%nat) = Some a.
Proof.
  revert g assignments g'. induction rows as [|row rows IH]; intros g assignments g'.
  { intros [= <- <-]. split_and!; [done|done|]. intros p row Hp. by rewrite lookup_nil in Hp. }
  simpl. destruct (random_choice m row g) as [[a g1]|] eqn:Ha; [|done]. simpl.
  destruct (sample_rows m rows g1) as [[rest g2]|] eqn:Hrest; [|done]. simpl.
  intros [= <- <-].
  destruct (random_choice_draw _ _ _ _ _ Ha) as (Hle & Hg1 & Hdep).
  destruct (IH _ _ _ Hrest) as (Hlen & Hg2 & Hall).
  split_and!.
  - simpl. by rewrite Hlen.
  - intros k. rewrite Hg2, Hg1. f_equal.
  - intros [|p] row' Hp; simpl in Hp.
    + injection Hp as <-. exists a. split_and!; [done|done|]. by apply Hdep.
    + destruct (Hall p row' Hp) as (a' & Ha' & Hle' & Hdraw).
      exists a'. split_and!; [done|done|].
      destruct (random_choice m row' (λ k, g1 (p + k)%nat)) as [[a'' g'']|] eqn:Hc; [|done].
      simpl in Hdraw. injection Hdraw as ->.
      destruct (random_choice_draw _ _ _ _ _ Hc) as (_ & _ & Hdep').
      apply Hdep'. simpl. by rewrite Hg1.
Qed.

(** X11: the rounding step draws exactly one variate per participant, in
    order: the list has one entry per row, the generator is advanced by the
    number of rows, and the entry of participant [p] is the draw from row
    [p] with the [p]-th variate alone. *)
Theorem sampler_one_draw_each M g assignments g' :
  _probabilities_to_assignments M g = Some (assignments, g') →
  length assignments = length M
  ∧ (∀ k, g' k = g (length M + k)%nat)
  ∧ ∀ p row, M !! p = Some row →
      ∃ a, assignments !! p = Some a ∧ (a ≤ n_columns M)%nat
        ∧ fst <$> random_choice (n_columns M) row (λ k, g (p + k)%nat) = Some a.
Proof. apply sample_rows_draws. Qed.

End SamplerExtras.

Section FormatFacts.
Local Open Scope Q_scope.







End FormatFacts.

Section ReachableExtras.
Context `{CharDB}.
Local Open Scope Q_scope.

Lemma step_assignments_wf w c :
  bot_wf w.1 → assignments_wf w.1 → assignments_wf (step w c).1.
Proof.
  intros Hwf Ha. destruct c as [g its|g|g u text|g|g|g]; simpl.
  - unfold start_session. destruct (w.1 !! g) eqn:Hg; [done|]. simpl.
    intros g' s' a. destruct (decide (g = g')) as [->|Hne].
    + rewrite lookup_insert_eq. by intros [= <-].
    + rewrite lookup_insert_ne by done. apply Ha.
  - unfold cancel_session. destruct (w.1 !! g) eqn:Hg; [|done]. simpl.
    intros g' s' a [_ Hl]%lookup_delete_Some. by apply (Ha g').
  - destruct (submit_ranking_cases w.1 g u text)
      as [->|(s & ranking & Hg & Hst & _ & _ & ->)]; [done|].
    intros g' s' a. destruct (decide (g = g')) as [->|Hne].
    + rewrite lookup_insert_eq. intros [= <-]. simpl.
      destruct (wf_collecting _ (Hwf _ _ Hg) Hst) as [_ ->]. done.
    + rewrite lookup_insert_ne by done. apply Ha.
  - done.
  - destruct (run_algorithm_cases w.1 g)
      as [->|(s & M & Hg & Hst & _ & _ & ->)]; [done|]. simpl.
    intros g' s' a. destruct (decide (g = g')) as [->|Hne].
    + rewrite lookup_insert_eq. intros [= <-]. simpl.
      destruct (wf_collecting _ (Hwf _ _ Hg) Hst) as [_ ->]. done.
    + rewrite lookup_insert_ne by done. apply Ha.
  - destruct (make_final_assignments_cases w.1 g w.2)
      as [->|(s & M & a0 & rng' & Hg & Hst & HM & Hdraw & ->)]; [done|]. simpl.
    intros g' s' a. destruct (decide (g = g')) as [->|Hne].
    + rewrite lookup_insert_eq. intros [= <-]. simpl. intros [= <-].
      destruct (sample_rows_draws _ _ _ _ _ Hdraw) as (-> & _).
      destruct (wf_algorithm_run _ (Hwf _ _ Hg)) as (_ & _ & Hbm); [by rewrite Hst|].
      rewrite HM in Hbm. symmetry in Hbm.
      by destruct (bogomolnaia_moulin_shape _ _ _ Hbm).
    + rewrite lookup_insert_ne by done. apply Ha.
Qed.

Lemma reachable_assignments_wf sessions : reachable sessions → assignments_wf sessions.
Proof.
  intros (cs & rng & <-).
  enough (∀ w, bot_wf w.1 → assignments_wf w.1 →
            bot_wf (run_commands w cs).1 ∧ assignments_wf (run_commands w cs).1) as Hrun.
  { apply Hrun; intros g s; simpl; by rewrite lookup_empty. }
  induction cs as [|c cs IH]; intros w Hwf Ha; [done|].
  simpl. apply IH; [by apply step_wf|by apply step_assignments_wf].
Qed.

(** The matrix a well-formed session holds: one distribution over the
    items per participant. *)
Lemma session_wf_matrix s M :
  session_wf s → s.(probabilities) = Some M →
  length M = length s.(preferences)
  ∧ Forall (distribution (length s.(items))) M
  ∧ (M ≠ [] → n_columns M = length s.(items)).
Proof.
  intros Hs HM.
  destruct (wf_algorithm_run _ Hs) as (_ & _ & Hbm).
  { intros Hst. destruct (wf_collecting _ Hs Hst). congruence. }
  rewrite HM in Hbm. symmetry in Hbm.
  destruct (bogomolnaia_moulin_shape _ _ _ Hbm) as [Hlen _].
  assert (Hdist : Forall (distribution (length s.(items))) M).
  { destruct (decide (s.(items) = [])) as [Hnil|Hne].
    - assert (s.(preferences) = []) as Hp.
      { destruct (decide (s.(preferences) = [])) as [|Hp]; [done|].
        by destruct (wf_items _ Hs Hp). }
      rewrite Hp in Hlen. destruct M; [constructor|done].
    - destruct (bogomolnaia_moulin_rows _ _ (wf_rankings _ Hs) Hne) as (M' & HM' & _ & Hrows).
      assert (M' = M) as -> by congruence.
      apply Forall_forall. intros row [p Hp]%list_elem_of_lookup.
      destruct (Hrows p row Hp) as (? & ? & ?). by split. }
  split_and!; [done|done|].
  destruct M as [|row M]; [done|]. intros _. simpl.
  by apply Forall_cons in Hdist as [(-> & _) _].
Qed.

Lemma reachable_matrix sessions g s M :
  reachable sessions → sessions !! g = Some s → s.(probabilities) = Some M →
  length M = length s.(preferences)
  ∧ Forall (distribution (length s.(items))) M
  ∧ (M ≠ [] → n_columns M = length s.(items)).
Proof.
  intros Hreach Hg. apply session_wf_matrix. by apply (reachable_wf _ Hreach g).
Qed.

(** In the algorithm_run state of a well-formed session, with uniform
    draws, [make_final_assignments] raises nothing. *)
Lemma make_final_assignments_wf sessions g gen :
  bot_wf sessions → uniform gen →
  ∃ sessions' r gen',
    make_final_assignments sessions g gen = (sessions', Some r, gen') ∧ uniform gen'.
Proof.
  intros Hwf Hgen. unfold make_final_assignments.
  destruct (sessions !! g) as [s|] eqn:Hg; [|by eexists _, _, _].
  destruct (decide (s.(status) ≠ algorithm_run)) as [|Hst%dec_stable]; [by eexists _, _, _|].
  pose proof (Hwf g s Hg) as Hs.
  destruct (wf_algorithm_run _ Hs) as (_ & [M HM] & _); [by rewrite Hst|].
  destruct (session_wf_matrix s M Hs HM) as (HlenM & Hdist & Hcols).
  assert (Hd : Forall (distribution (n_columns M)) M).
  { destruct M as [|row M]; [constructor|]. by rewrite Hcols. }
  destruct (sample_rows_spec (n_columns M) M gen Hd Hgen)
    as (assignments & gen' & Ha & Hgen' & Hlen & Hall).
  rewrite HM. simpl. unfold _probabilities_to_assignments. rewrite Ha. simpl.
  assert (is_Some (_format_assignments assignments s.(items) s.(preferences)))
    as [shown ->]; [|by eexists _, _, _].
  unfold _format_assignments. apply mapM_is_Some, Forall_forall.
  intros [i u] (i' & u' & [= -> ->] & Hu)%elem_of_lookup_imap. simpl.
  destruct (lookup_lt_is_Some_2 assignments i') as [a Hi].
  { rewrite Hlen, HlenM. apply lookup_lt_Some in Hu. unfold keys in Hu.
    by rewrite length_fmap in Hu. }
  rewrite Hi. simpl. destruct (Hall i' a Hi) as [Hlt _].
  rewrite Hcols in Hlt.
  - destruct (lookup_lt_is_Some_2 s.(items) a Hlt) as [item ->]. by eexists.
  - intros ->. simpl in Hlen. destruct assignments; [|done].
    by rewrite lookup_nil in Hi.
Qed.

(** X12: what every session of a store the bot can reach satisfies: participants
    are listed once, every stored ranking is a permutation of the item
    indices, a matrix is stored exactly when the session is past
    collecting, and it is the solver's answer on the stored items and
    rankings, of which there are then at least as many as items; final
    assignments are stored exactly when the session is completed, one per
    participant. *)
Theorem reachable_store_consistent sessions g s :
  reachable sessions → sessions !! g = Some s →
  NoDup (keys s.(preferences))
  ∧ (∀ u r, (u, r) ∈ s.(preferences) → r ≡ₚ seq 0 (length s.(items)))
  ∧ (s.(status) = collecting ↔ s.(probabilities) = None)
  ∧ (s.(status) ≠ collecting →
     (length s.(items) ≤ length s.(preferences))%nat
     ∧ s.(probabilities) = _bogomolnaia_moulin s.(items) s.(preferences))
  ∧ (s.(status) = completed ↔ is_Some s.(final_assignments))
  ∧ (∀ a, s.(final_assignments) = Some a → length a = length s.(preferences)).
Proof.
  intros Hreach Hg. pose proof (reachable_wf _ Hreach g s Hg) as Hs.
  split_and!.
  - apply Hs.
  - intros u r Hin. by apply (wf_rankings _ Hs (u, r)).
  - split; [by intros [? _]%(wf_collecting _ Hs)|].
    intros Hnone. destruct (decide (s.(status) = collecting)) as [|Hst]; [done|].
    destruct (wf_algorithm_run _ Hs Hst) as (_ & [M HM] & _). congruence.
  - intros Hst. by destruct (wf_algorithm_run _ Hs Hst) as (? & _ & ?).
  - symmetry. apply Hs.
  - intros a. by apply (reachable_assignments_wf _ Hreach g s).
Qed.





End ReachableExtras.


(** ** The validator and the loop, once more *)

Section ValidatorExtras.
Context `{CharDB}.

Lemma remove_whitespace_app text1 text2 :
  remove_whitespace (text1 ++ text2) = remove_whitespace text1 ++ remove_whitespace text2.
Proof. unfold remove_whitespace. apply List.filter_app. Qed.

Lemma remove_whitespace_drop text1 c text2 :
  is_space c = true →
  remove_whitespace (text1 ++ c :: text2) = remove_whitespace (text1 ++ text2).
Proof.
  intros Hc. rewrite !remove_whitespace_app. f_equal.
  unfold remove_whitespace. simpl. by rewrite Hc.
Qed.

(** X16: whitespace is dropped before anything is parsed, wherever it stands,
    also inside a number: a text with a whitespace character and the text
    without it are the same ranking to the validator and the same
    submission to the store. *)
Theorem whitespace_is_ignored sessions g u text1 c text2 n :
  is_space c = true →
  is_ranking_format (text1 ++ c :: text2) n = is_ranking_format (text1 ++ text2) n
  ∧ submit_ranking sessions g u (text1 ++ c :: text2)
    = submit_ranking sessions g u (text1 ++ text2).
Proof.
  intros Hc. split.
  - unfold is_ranking_format. by rewrite remove_whitespace_drop.
  - unfold submit_ranking. by rewrite remove_whitespace_drop.
Qed.

(** X17: without an expected length the validator accepts a text exactly when
    it accepts it for some length, which is then the number of
    comma-separated tokens and is at least 1, and it raises on the same
    texts in both modes: the length check is the only difference between
    the two. *)
Theorem validator_without_length text :
  (is_ranking_format text None = Some true ↔
     ∃ n, is_ranking_format text (Some n) = Some true)
  ∧ (∀ n, is_ranking_format text (Some n) = Some true ↔
       is_ranking_format text None = Some true
       ∧ length (split comma (remove_whitespace text)) = n ∧ 0 < n)
  ∧ (∀ n, is_ranking_format text (Some n) = None ↔ is_ranking_format text None = None).
Proof.
  assert (Hn : ∀ n, is_ranking_format text (Some n) = Some true ↔
      is_ranking_format text None = Some true
      ∧ length (split comma (remove_whitespace text)) = n ∧ 0 < n).
  { intros n. unfold is_ranking_format.
    destruct (match_ranking_re false (remove_whitespace text)); simpl;
      [|split; [done|by intros [? _]]].
    destruct (mapM py_int (split comma (remove_whitespace text))) as [numbers|] eqn:Hnum;
      [|split; [done|by intros [? _]]].
    pose proof (length_mapM _ _ _ Hnum) as Hlen. simpl.
    assert (0 < length numbers) as Hpos.
    { rewrite <- Hlen. pose proof (split_not_nil comma (remove_whitespace text)).
      destruct (split _ _); [done|simpl; lia]. }
    destruct (decide (length numbers ≠ n)) as [Hne|Heq%dec_stable].
    - split; [done|]. intros (_ & ? & _). lia.
    - split; [|by intros [? _]]. intros ?. split_and!; [done|lia|lia]. }
  split_and!; [|done|].
  - split.
    + intros Hok. exists (length (split comma (remove_whitespace text))).
      apply Hn. split; [done|]. split; [done|].
      pose proof (split_not_nil comma (remove_whitespace text)).
      destruct (split _ _); [done|simpl; lia].
    + intros [n Hok]. by apply Hn in Hok as [? _].
  - intros n. by rewrite !is_ranking_format_raises.
Qed.

End ValidatorExtras.

Section TerminationExtras.

(** X18: on any rankings made of item indices that are not negative,
    whatever their lengths and however large the indices, the eating loop
    stops within [n_participants + n_items] rounds: it finishes or raises,
    and a larger budget of rounds gives the same answer. *)
Theorem eating_loop_stops_on_natural_indices items (prefs : list (string * list nat)) fuel :
  length prefs + length items ≤ fuel →
  solve fuel items prefs = solve (length prefs + length items) items prefs
  ∧ (solve fuel items prefs = Failed ∨ ∃ st, solve fuel items prefs = Finished st).
Proof.
  intros Hfuel. destruct (solve_fuel items prefs fuel Hfuel) as [Heq Hne].
  split; [done|]. destruct (solve fuel items prefs); [right; by eexists|by left|done].
Qed.

End TerminationExtras.


(** ** Every combination of the rounding *)

Section SamplerSupport.
Local Open Scope Q_scope.

Lemma Qsum_take_le row j : Forall (λ x, 0 <= x) row → 0 <= Qsum (take j row).
Proof. intros Hnn. apply Qsum_nonneg. by apply Forall_take. Qed.

Lemma Qsum_take_lookup row j x :
  Forall (λ x, 0 <= x) row → row !! j = Some x → Qsum (take j row) + x <= Qsum row.
Proof.
  intros Hnn. revert j. induction Hnn as [|y row Hy Hnn IH]; intros j Hj.
  { by rewrite lookup_nil in Hj. }
  destruct j as [|j]; simpl in Hj.
  - injection Hj as ->. cbn [take]. rewrite Qsum_cons. change (Qsum []) with 0.
    pose proof (Qsum_nonneg _ Hnn). lra.
  - specialize (IH j Hj). cbn [take]. rewrite !Qsum_cons. lra.
Qed.

Lemma searchsorted_right_at s acc row j x u :
  s == 1 → Forall (λ x, 0 <= x) row → row !! j = Some x → 0 < x →
  u == acc + Qsum (take j row) →
  searchsorted_right (map (λ c, c / s) (cumsum_from acc row)) u = j.
Proof.
  intros Hs Hnn. revert acc j. induction Hnn as [|y row Hy Hnn IH]; intros acc j Hj Hx Hu.
  { by rewrite lookup_nil in Hj. }
  assert (Hc : (acc + y) / s == acc + y) by (rewrite Hs; field).
  destruct j as [|j]; simpl in Hj.
  - injection Hj as ->. cbn [take] in Hu. change (Qsum []) with 0 in Hu.
    simpl. destruct (Qlt_le_dec u ((acc + x) / s)); [done|lra].
  - cbn [take] in Hu. rewrite Qsum_cons in Hu. simpl.
    pose proof (Qsum_take_le row j Hnn).
    destruct (Qlt_le_dec u ((acc + y) / s)); [lra|].
    f_equal. apply IH; [done|done|lra].
Qed.

Lemma random_choice_at m row h j x :
  distribution m row → row !! j = Some x → 0 < x →
  h 0%nat = Qsum (take j row) →
  fst <$> random_choice m row h = Some j.
Proof.
  intros (Hlen & Hnn & Hsum) Hj Hx Hh. unfold random_choice.
  destruct row as [|x0 row]; [by rewrite lookup_nil in Hj|].
  rewrite decide_False by (simpl in Hlen; lia).
  rewrite decide_False by (intros ?; done).
  assert (existsb (λ x, if Qlt_le_dec x 0 then true else false) (x0 :: row) = false) as ->.
  { apply not_true_is_false. intros (y & Hin & Hy)%existsb_exists.
    apply list_elem_of_In in Hin. eapply Forall_forall in Hnn; [|done].
    destruct (Qlt_le_dec y 0); [lra|done]. }
  destruct (Qlt_le_dec atol (Qabs (Qsum (x0 :: row) - 1))) as [Hbad|_].
  { exfalso. assert (Qabs (Qsum (x0 :: row) - 1) <= 0) as Hz.
    { apply Qabs_Qle_condition. lra. }
    assert (0 < atol) by done. lra. }
  unfold cumsum. destruct (last_cumsum_from 0 x0 row) as (v & -> & Hv).
  simpl default. unfold random_sample. simpl. f_equal.
  apply (searchsorted_right_at v 0 (x0 :: row) j x); [lra|done|done|done|].
  rewrite Hh. lra.
Qed.

Lemma draws_for_uniform m M want :
  Forall (distribution m) M →
  (∀ p row j, M !! p = Some row → want !! p = Some j → ∃ x, row !! j = Some x ∧ 0 < x) →
  uniform (draws_for M want).
Proof.
  intros Hdist Hwant p. unfold draws_for.
  destruct (M !! p) as [row|] eqn:Hrow; [|done].
  destruct (want !! p) as [j|] eqn:Hj; [|done].
  eapply Forall_lookup_1 in Hdist as (_ & Hnn & Hsum); [|done].
  destruct (Hwant p row j Hrow Hj) as (x & Hx & Hpos).
  pose proof (Qsum_take_le row j Hnn). pose proof (Qsum_take_lookup row j x Hnn Hx).
  split; lra.
Qed.

(** X19: every combination of items of positive probability is a possible
    outcome of the rounding step: whatever item [want] names for each
    participant among those the participant's row gives a positive share,
    some uniform draws make the sampler return exactly [want].  In
    particular two participants can be assigned the same item. *)
Theorem every_positive_combination_is_drawn M want :
  Forall (distribution (n_columns M)) M → length want = length M →
  (∀ p row j, M !! p = Some row → want !! p = Some j → ∃ x, row !! j = Some x ∧ 0 < x) →
  uniform (draws_for M want)
  ∧ ∃ g', _probabilities_to_assignments M (draws_for M want) = Some (want, g').
Proof.
  intros Hdist Hlen Hwant.
  pose proof (draws_for_uniform _ M want Hdist Hwant) as Hg. split; [done|].
  destruct (sample_rows_spec (n_columns M) M _ Hdist Hg)
    as (assignments & g' & Hs & _ & Hlen' & _).
  exists g'. unfold _probabilities_to_assignments. rewrite Hs. do 2 f_equal.
  destruct (sample_rows_draws _ _ _ _ _ Hs) as (_ & _ & Hall).
  apply list_eq_same_length with (length M); [done|done|].
  intros p a j Hp Ha Hj.
  destruct (lookup_lt_is_Some_2 M p Hp) as [row Hrow].
  destruct (Hall p row Hrow) as (a' & Ha' & _ & Hdraw).
  assert (a' = a) as -> by congruence.
  destruct (Hwant p row j Hrow Hj) as (x & Hx & Hpos).
  rewrite (random_choice_at (n_columns M) row _ j x) in Hdraw.
  - congruence.
  - by eapply Forall_lookup_1 in Hdist.
  - done.
  - done.
  - unfold draws_for. by rewrite Nat.add_0_r, Hrow, Hj.
Qed.

End SamplerSupport.


(** ** The message handlers *)

Section AdapterFacts.
Context `{CharDB} `{TextOps}.
Local Open Scope Q_scope.

Lemma in_group_Some group_id g : in_group group_id = Some g → g ≠ EmptyString.
Proof.
  unfold in_group. destruct group_id as [g'|]; [|done].
  destruct (decide (g' = EmptyString)); [done|]. by intros [= <-].
Qed.

(** Every handler does at most one thing to the bot: it leaves it alone or
    it runs one command, and a session it starts has at least two items
    and a non-empty group id. *)
Lemma handle_message_step w e :
  (handle_message w e).1 = w
  ∨ ∃ c, (handle_message w e).1 = step w c
      ∧ command_group c ≠ EmptyString
      ∧ ∀ g its, c = StartSession g its → (2 ≤ length its)%nat.
Proof.
  assert (Hrank : ∀ text,
    (handle_ranking w text e.(source_user_id) e.(source_group_id)).1 = w
    ∨ ∃ c, (handle_ranking w text e.(source_user_id) e.(source_group_id)).1 = step w c
        ∧ command_group c ≠ EmptyString
        ∧ ∀ g its, c = StartSession g its → (2 ≤ length its)%nat).
  { intros text. unfold handle_ranking.
    destruct (in_group _) as [g|] eqn:Hg; [|left; by destruct w].
    right. set (ranking_text := if startswith _ _ then _ else _).
    exists (SubmitRanking g e.(source_user_id) ranking_text). simpl.
    destruct (submit_ranking _ _ _ _) as [sessions result] eqn:Hs.
    simpl. split_and!; [done|by eapply in_group_Some|done]. }
  unfold handle_message.
  destruct (startswith _ _).
  { unfold handle_start_assignment.
    destruct (in_group _) as [g|] eqn:Hg; [|left; by destruct w].
    destruct (strip _) as [|c0 items_text]; [left; by destruct w|].
    destruct (decide _) as [|Hlen]; [left; by destruct w|].
    right. set (its := _ <$> split comma _) in *.
    exists (StartSession g its). simpl.
    destruct (start_session _ _ _) as [sessions success] eqn:Hs. simpl.
    split_and!; [done|by eapply in_group_Some|].
    intros g' its' [= <- <-]. lia. }
  destruct (decide _); [left; by destruct w|].
  destruct (decide _).
  { unfold handle_status. left. destruct (in_group _); by destruct w. }
  destruct (decide _).
  { unfold handle_run_algorithm.
    destruct (in_group _) as [g|] eqn:Hg; [|left; by destruct w].
    right. exists (RunAlgorithm g). simpl.
    destruct (run_algorithm _ _) as [sessions result] eqn:Hs. simpl.
    split_and!; [done|by eapply in_group_Some|done]. }
  destruct (decide _).
  { unfold handle_make_assignments.
    destruct (in_group _) as [g|] eqn:Hg; [|left; by destruct w].
    right. exists (MakeFinalAssignments g). simpl.
    destruct (make_final_assignments _ _ _) as [[sessions result] g'] eqn:Hs. simpl.
    split_and!; [done|by eapply in_group_Some|done]. }
  destruct (decide _).
  { unfold handle_cancel.
    destruct (in_group _) as [g|] eqn:Hg; [|left; by destruct w].
    right. exists (CancelSession g). simpl.
    destruct (cancel_session _ _) as [sessions success] eqn:Hs. simpl.
    split_and!; [done|by eapply in_group_Some|done]. }
  destruct (startswith _ _); [apply Hrank|].
  destruct (in_group _); [|left; by destruct w].
  destruct (is_ranking_format _ _) as [[|]|]; [apply Hrank|left; by destruct w..].
Qed.

Lemma step_chat_wf w c :
  command_group c ≠ EmptyString →
  (∀ g its, c = StartSession g its → (2 ≤ length its)%nat) →
  chat_wf w.1 → chat_wf (step w c).1.
Proof.
  intros Hg Hits Hwf g s Hs.
  destruct (decide (command_group c = g)) as [<-|Hne]; cycle 1.
  { rewrite step_other_group in Hs by done. by apply Hwf. }
  split; [done|].
  destruct (w.1 !! command_group c) as [s0|] eqn:Hs0.
  - assert (Hfrozen : c ≠ CancelSession (command_group c) → (2 ≤ length s.(items))%nat).
    { intros Hc. destruct (step_frozen w c _ s0 Hs0 Hc) as (s' & Hs' & Hit & _).
      assert (s' = s) as -> by congruence. rewrite Hit. by apply (Hwf _ _ Hs0). }
    destruct c as [g' its|g'|g' u text|g'|g'|g']; try (by apply Hfrozen).
    simpl in *. unfold cancel_session in Hs.
    rewrite Hs0 in Hs. simpl in Hs. by rewrite lookup_delete_eq in Hs.
  - destruct c as [g' its|g'|g' u text|g'|g'|g']; simpl in *.
    + unfold start_session in Hs. rewrite Hs0 in Hs. simpl in Hs.
      rewrite lookup_insert_eq in Hs. injection Hs as <-. simpl. by eapply Hits.
    + unfold cancel_session in Hs. rewrite Hs0 in Hs. simpl in Hs. congruence.
    + unfold submit_ranking in Hs. rewrite Hs0 in Hs. simpl in Hs. congruence.
    + congruence.
    + unfold run_algorithm in Hs. rewrite Hs0 in Hs. simpl in Hs. congruence.
    + unfold make_final_assignments in Hs. rewrite Hs0 in Hs. simpl in Hs. congruence.
Qed.

Lemma handle_messages_reachable es rng0 :
  reachable (handle_messages (∅, rng0) es).1
  ∧ chat_wf (handle_messages (∅, rng0) es).1
  ∧ ∃ cs, handle_messages (∅, rng0) es = run_commands (∅, rng0) cs.
Proof.
  enough (∃ cs, handle_messages (∅, rng0) es = run_commands (∅, rng0) cs
                ∧ chat_wf (run_commands (∅, rng0) cs).1) as (cs & Heq & Hwf).
  { rewrite Heq. split_and!; [by exists cs, rng0|done|by exists cs]. }
  induction es as [|e es IH] using rev_ind.
  { exists []. split; [done|]. intros g s. simpl. by rewrite lookup_empty. }
  destruct IH as (cs & Heq & Hwf). unfold handle_messages in *.
  rewrite foldl_app. simpl. rewrite Heq.
  destruct (handle_message_step (run_commands (∅, rng0) cs) e)
    as [->|(c & -> & Hg & Hits)].
  - by exists cs.
  - exists (cs ++ [c]). unfold run_commands. rewrite foldl_app. simpl. split; [done|].
    by apply step_chat_wf.
Qed.


Lemma lstrip_length s : (length (lstrip s) ≤ length s)%nat.
Proof.
  induction s as [|c s IH]; [done|]. simpl. destruct (is_space c); simpl; lia.
Qed.

Lemma strip_length s : (length (strip s) ≤ length s)%nat.
Proof.
  unfold strip, rstrip. rewrite length_reverse.
  etrans; [apply lstrip_length|]. rewrite length_reverse. apply lstrip_length.
Qed.

Lemma remove_from_length skip old s : (length (remove_from skip old s) ≤ length s)%nat.
Proof.
  revert skip. induction s as [|c s IH]; intros skip; [done|].
  cbn [remove_from]. destruct skip as [|k].
  - destruct (startswith (c :: s) old); cbn [length].
    + specialize (IH (length old - 1)%nat). lia.
    + specialize (IH 0%nat). lia.
  - specialize (IH k). cbn [length]. lia.
Qed.

Lemma join_length_token sep tokens t : t ∈ tokens → (length t ≤ length (join sep tokens))%nat.
Proof.
  induction tokens as [|t' ts IH]; [by intros ?%elem_of_nil|].
  intros [->|Hin]%elem_of_cons.
  - destruct ts as [|t'' ts]; [simpl; lia|].
    change (join sep (t' :: t'' :: ts)) with (t' ++ sep :: join sep (t'' :: ts)).
    rewrite length_app. apply Nat.le_add_r.
  - specialize (IH Hin). destruct ts as [|t'' ts]; [by apply elem_of_nil in Hin|].
    change (join sep (t' :: t'' :: ts)) with (t' ++ sep :: join sep (t'' :: ts)).
    rewrite length_app. cbn [length]. lia.
Qed.

(** The validator raises only on a text of more than 4300 characters. *)
Lemma is_ranking_format_raises_long text n :
  is_ranking_format text n = None → (int_max_str_digits < length text)%nat.
Proof.
  intros (tokens & (_ & _ & Hjoin) & (t & Ht & Hlong)%Exists_exists)%is_ranking_format_raises.
  pose proof (join_length_token comma tokens t Ht) as Hle. rewrite <- Hjoin in Hle.
  assert (length (remove_whitespace text) ≤ length text)%nat; [|lia].
  unfold remove_whitespace. apply List.filter_length_le.
Qed.

Lemma submit_ranking_raises sessions g u text :
  (submit_ranking sessions g u text).2 = None →
  (submit_ranking sessions g u text).1 = sessions ∧ (int_max_str_digits < length text)%nat.
Proof.
  destruct (sessions !! g) as [s|] eqn:Hg; [|unfold submit_ranking; by rewrite Hg].
  destruct (decide (s.(status) = collecting)) as [Hst|Hst]; cycle 1.
  { unfold submit_ranking. rewrite Hg. by rewrite decide_True. }
  destruct (decide (is_ranking_format (remove_whitespace text)
                      (Some (length s.(items))) = Some true)) as [Hok|Hok].
  - by destruct (submit_ranking_accepted _ _ u _ _ Hg Hst Hok) as (ranking & _ & _ & _ & ->).
  - rewrite (submit_ranking_refused _ _ u _ s) by done. simpl.
    destruct (is_ranking_format _ _) as [b|] eqn:Hrf; [done|]. intros _. split; [done|].
    rewrite is_ranking_format_cleaned in Hrf. by eapply is_ranking_format_raises_long.
Qed.

(** On a well-formed store and with uniform draws a handler leaves the
    draws uniform, and it raises only on a group message of more than 4300
    characters, without having touched the store. *)
Lemma handle_message_reply w e :
  bot_wf w.1 → uniform w.2 →
  uniform (handle_message w e).1.2
  ∧ ((handle_message w e).2 = None →
     (int_max_str_digits < length e.(message_text))%nat
     ∧ in_group e.(source_group_id) ≠ None
     ∧ (handle_message w e).1 = w).
Proof.
  intros Hwf Hgen.
  pose proof (strip_length e.(message_text)) as Hstrip.
  assert (Hrank :
    uniform (handle_ranking w (strip e.(message_text)) e.(source_user_id)
               e.(source_group_id)).1.2
    ∧ ((handle_ranking w (strip e.(message_text)) e.(source_user_id)
          e.(source_group_id)).2 = None →
       (int_max_str_digits < length e.(message_text))%nat
       ∧ in_group e.(source_group_id) ≠ None
       ∧ (handle_ranking w (strip e.(message_text)) e.(source_user_id)
            e.(source_group_id)).1 = w)).
  { unfold handle_ranking. destruct (in_group _) as [g|]; [|by split].
    set (ranking_text := if startswith _ _ then _ else _).
    assert (length ranking_text ≤ length (strip e.(message_text)))%nat as Hlen.
    { unfold ranking_text. destruct (startswith _ _); [|done].
      etrans; [apply strip_length|]. apply remove_from_length. }
    pose proof (submit_ranking_raises w.1 g e.(source_user_id) ranking_text) as Hraise.
    destruct (submit_ranking _ _ _ _) as [sessions [result|]]; simpl; [by split|].
    split; [done|]. intros _. destruct (Hraise eq_refl) as [Hs Hlong].
    simpl in Hs. subst sessions. split_and!; [lia|done|by destruct w]. }
  unfold handle_message.
  destruct (startswith _ _).
  { unfold handle_start_assignment. destruct (in_group _); [|by split].
    destruct (strip (replace_with_empty _ _)); [by split|].
    destruct (decide _); [by split|].
    destruct (start_session _ _ _). by split. }
  destruct (decide _); [by split|].
  destruct (decide _); [unfold handle_status; destruct (in_group _); by split|].
  destruct (decide _).
  { unfold handle_run_algorithm. destruct (in_group _); [|by split].
    destruct (run_algorithm _ _). by split. }
  destruct (decide _).
  { unfold handle_make_assignments. destruct (in_group _) as [g|]; [|by split].
    destruct (make_final_assignments_wf w.1 g w.2 Hwf Hgen) as (? & ? & ? & -> & ?).
    by split. }
  destruct (decide _).
  { unfold handle_cancel. destruct (in_group _); [|by split].
    destruct (cancel_session _ _). by split. }
  destruct (startswith _ _); [apply Hrank|].
  destruct (in_group _) eqn:Hg; [|by split].
  destruct (is_ranking_format _ _) as [[|]|] eqn:Hrf; [|by split|].
  { destruct Hrank as [? Hr]. split; [done|]. intros Hn.
    destruct (Hr Hn) as (? & ? & ?). by split_and!. }
  split; [done|]. intros _. apply is_ranking_format_raises_long in Hrf.
  split_and!; [lia|done|done].
Qed.

Lemma handle_message_wf w e : bot_wf w.1 → bot_wf (handle_message w e).1.1.
Proof.
  intros Hwf. destruct (handle_message_step w e) as [->|(c & -> & _)]; [done|].
  by apply step_wf.
Qed.

(** X20: whatever messages arrive, in whatever chats, from the empty
    store: every session the store comes to hold is filed
    under a non-empty group id and has at least two items; the store is
    one the bot's own commands can build; and a stored matrix has one row
    per participant, each a probability distribution over the items. *)
Theorem chat_sessions_have_two_items sessions g s :
  chat_reachable sessions → sessions !! g = Some s →
  g ≠ EmptyString ∧ (2 ≤ length s.(items))%nat ∧ reachable sessions
  ∧ ∀ M, s.(probabilities) = Some M →
      length M = length s.(preferences)
      ∧ ∀ p row, M !! p = Some row →
          (2 ≤ length row)%nat ∧ Forall (λ x, 0 <= x) row ∧ Qsum row == 1.
Proof.
  intros (es & rng0 & <-) Hg.
  destruct (handle_messages_reachable es rng0) as (Hreach & Hcwf & _).
  destruct (Hcwf g s Hg) as [Hne Hlen]. split_and!; [done..|].
  intros M HM. destruct (reachable_matrix _ _ _ _ Hreach Hg HM) as (HlenM & Hdist & _).
  split; [done|]. intros p row Hrow.
  eapply Forall_lookup_1 in Hdist as (Hl & ? & ?); [|done]. by rewrite Hl.
Qed.

(** X21: from the empty store and with uniform draws, whatever messages
    came before (from senders whose user id is a string): a message of at
    most 4300 characters gets a reply; a handler raises only on a message
    sent in a group, and then it leaves the store and the generator as they
    were. *)
Theorem handlers_raise_only_on_long_numbers rng0 es e :
  uniform rng0 →
  ((length e.(message_text) ≤ int_max_str_digits)%nat →
   is_Some (handle_message (handle_messages (∅, rng0) es) e).2)
  ∧ ((handle_message (handle_messages (∅, rng0) es) e).2 = None →
     in_group e.(source_group_id) ≠ None
     ∧ (handle_message (handle_messages (∅, rng0) es) e).1 = handle_messages (∅, rng0) es).
Proof.
  intros Hgen.
  assert (Hw : bot_wf (handle_messages (∅, rng0) es).1
               ∧ uniform (handle_messages (∅, rng0) es).2).
  { unfold handle_messages. induction es as [|e' es IH] using rev_ind.
    - split; [|done]. intros g s. simpl. by rewrite lookup_empty.
    - rewrite foldl_app. simpl. destruct IH as [Hwf Hu]. split.
      + by apply handle_message_wf.
      + by apply handle_message_reply. }
  destruct Hw as [Hwf Hu].
  destruct (handle_message_reply _ e Hwf Hu) as [_ Hraise]. split.
  - intros Hshort. destruct (handle_message _ e).2 as [r|] eqn:Hr; [by eexists|].
    destruct (Hraise eq_refl) as [Hlong _]. lia.
  - intros Hnone. by destruct (Hraise Hnone) as (_ & ? & ?).
Qed.

(** X22: outside a group chat (no group id, or an empty one) no message changes
    the store or the generator, and the reply is one of "only in group
    chats", the help text and "I didn't understand". *)
Theorem direct_chat_changes_nothing w e :
  in_group e.(source_group_id) = None →
  (handle_message w e).1 = w
  ∧ ((handle_message w e).2 = Some OnlyInGroupChats
     ∨ (handle_message w e).2 = Some HelpText
     ∨ (handle_message w e).2 = Some DidNotUnderstand).
Proof.
  intros Hg. unfold handle_message, handle_start_assignment, handle_status,
    handle_run_algorithm, handle_make_assignments, handle_cancel, handle_ranking.
  rewrite Hg. repeat (destruct (startswith _ _) || destruct (decide _)); simpl; auto.
Qed.

End AdapterFacts.

Section AdapterExamples.

(** The handlers on ASCII text: a session is started with the items that
    follow the command; the command is recognised in any case but removed
    only in lower case, so that otherwise its words end up in the first
    item. *)
Example start_assignment_items :
  (handle_message (H:=ascii_db) (H0:=ascii_text) (∅, λ _, 0%Q)
     (Event "U1" (Some "G1") (codes " start assignment Research, Writing "))).2
  = Some (StartingSession ["Research"; "Writing"])
  ∧ (handle_message (H:=ascii_db) (H0:=ascii_text) (∅, λ _, 0%Q)
       (Event "U1" (Some "G1") (codes "Start Assignment Research, Writing"))).2
    = Some (StartingSession ["Start Assignment Research"; "Writing"])
  ∧ (handle_message (H:=ascii_db) (H0:=ascii_text) (∅, λ _, 0%Q)
       (Event "U1" (Some "G1") (codes "start assignment Research"))).2
    = Some AtLeastTwoItems
  ∧ (handle_message (H:=ascii_db) (H0:=ascii_text) (∅, λ _, 0%Q)
       (Event "U1" None (codes "start assignment Research, Writing"))).2
    = Some OnlyInGroupChats.
Proof. vm_compute. done. Qed.

(** A ranking arrives as [rank 2,1] or as the bare [2,1]. *)
Example ranking_messages :
  let w := (handle_message (H:=ascii_db) (H0:=ascii_text) (∅, λ _, 0%Q)
              (Event "U1" (Some "G1") (codes "start assignment A, B"))).1 in
  (handle_message (H:=ascii_db) (H0:=ascii_text) w
     (Event "U1" (Some "G1") (codes "rank 2,1"))).2
  = Some (BotReply (RankingSubmitted 1 2))
  ∧ (handle_message (H:=ascii_db) (H0:=ascii_text) w
       (Event "U2" (Some "G1") (codes "2, 1"))).2
    = Some (BotReply (RankingSubmitted 1 2))
  ∧ (handle_message (H:=ascii_db) (H0:=ascii_text) w
       (Event "U2" (Some "G1") (codes "hello"))).2
    = Some DidNotUnderstand.
Proof. vm_compute. done. Qed.

End AdapterExamples.

(** ** The further properties at concrete inputs *)

Section FurtherWitnesses.
Local Open Scope Q_scope.

(** A session whose two participants rank different items first. *)
Lemma no_conflict_full :
  full_rankings 2 [("user1", [0; 1]); ("user2", [1; 0])]%nat.
Proof.
  intros kv Hkv.
  repeat (apply elem_of_cons in Hkv as [->|Hkv]); simpl; try done.
  - apply perm_swap.
  - by apply elem_of_nil in Hkv.
Qed.

Lemma start_session_then_cancel_witness :
  cancel_session (start_session ∅ "g1" ["A"; "B"]).1 "g1" = (∅, true).
Proof.
  destruct (start_session_then_cancel ∅ "g1" ["A"; "B"]) as (_ & _ & Hcancel & _).
  - apply lookup_empty.
  - exact Hcancel.
Defined.

Lemma other_groups_untouched_witness :
  (run_commands (H:=ascii_db) (classic_store, λ _, 0)
     [StartSession "other" ["X"; "Y"]; SubmitRanking "other" "user1" (codes "2,1");
      CancelSession "other"]).1 !! "correctness_test"
  = classic_store !! "correctness_test".
Proof.
  apply (other_groups_untouched (H:=ascii_db) (classic_store, λ _, 0)).
  repeat constructor; simpl; discriminate.
Defined.

Lemma submit_ranking_stores_witness :
  ∃ s', (submit_ranking (H:=ascii_db) classic_store "correctness_test" "user4"
           (codes "3, 1, 2")).1 !! "correctness_test" = Some s'
    ∧ dict_get "user4" s'.(preferences) = Some [2; 0; 1]%nat
    ∧ length s'.(preferences) = 4%nat.
Proof.
  destruct (submit_ranking_stores (H:=ascii_db) classic_store "correctness_test" "user4"
              (codes "3, 1, 2") classic_session)
    as (numbers & s' & Hnum & Hs' & Hget & _ & Hnew & _).
  - apply classic_store_lookup.
  - reflexivity.
  - vm_compute. reflexivity.
  - vm_compute in Hnum. injection Hnum as <-.
    exists s'. split; [exact Hs'|]. split; [exact Hget|].
    destruct Hnew as [_ Hlen]; [|exact Hlen].
    vm_compute. intros Hin. repeat (apply elem_of_cons in Hin as [Hin|Hin]; [discriminate Hin|]).
    by apply elem_of_nil in Hin.
Defined.

Lemma session_data_frozen_witness :
  ∃ s', (run_commands (H:=ascii_db) ({["g" := classic_session]}, λ _, 1 # 2)
           [RunAlgorithm "g"; SubmitRanking "g" "user4" (codes "1,2,3");
            MakeFinalAssignments "g"]).1 !! "g" = Some s'
    ∧ s'.(items) = ["A"; "B"; "C"].
Proof.
  destruct (session_data_frozen (H:=ascii_db) ({["g" := classic_session]}, λ _, 1 # 2)
              [RunAlgorithm "g"; SubmitRanking "g" "user4" (codes "1,2,3");
               MakeFinalAssignments "g"] "g" classic_session)
    as (s' & Hs' & Hitems & _).
  - apply lookup_singleton_eq.
  - intros Hin. repeat (apply elem_of_cons in Hin as [Hin|Hin]; [discriminate Hin|]).
    by apply elem_of_nil in Hin.
  - exists s'. split; [exact Hs'|exact Hitems].
Defined.

Lemma equal_rankings_equal_rows_witness :
  ∃ M row, _bogomolnaia_moulin classic_session.(items) classic_session.(preferences) = Some M
    ∧ M !! 0%nat = Some row ∧ M !! 1%nat = Some row.
Proof.
  destruct (bogomolnaia_moulin_full _ _ classic_session_full) as (st & HM & _).
  destruct (equal_rankings_equal_rows _ _ _ 0%nat 1%nat "user1" "user2" [0; 1; 2]%nat HM)
    as (row & H0 & H1); [reflexivity..|].
  exists (normalize st.(prob)), row. split; [exact HM|]. split; [exact H0|exact H1].
Defined.

Lemma first_choice_positive_witness :
  ∃ M row x, _bogomolnaia_moulin classic_session.(items) classic_session.(preferences) = Some M
    ∧ M !! 2%nat = Some row ∧ row !! 1%nat = Some x ∧ 0 < x.
Proof.
  destruct (first_choice_positive _ _ classic_session_full) as (M & HM & Hpos).
  destruct (Hpos 2%nat "user3" [1; 0; 2]%nat 1%nat) as (row & x & Hrow & Hx & Hlt);
    [reflexivity..|].
  exists M, row, x. split; [exact HM|]. split; [exact Hrow|]. split; [exact Hx|exact Hlt].
Defined.

Lemma distinct_first_choices_served_witness :
  ∃ M g', _bogomolnaia_moulin ["A"; "B"] [("user1", [0; 1]); ("user2", [1; 0])]%nat = Some M
    ∧ _probabilities_to_assignments M (λ _, 1 # 2) = Some ([0; 1]%nat, g').
Proof.
  destruct (distinct_first_choices_served ["A"; "B"]
              [("user1", [0; 1]); ("user2", [1; 0])]%nat (λ _, 1 # 2))
    as (_ & M & assignments & g' & HM & _ & Ha & Heq).
  - apply no_conflict_full.
  - discriminate.
  - simpl. apply NoDup_cons. split; [|apply NoDup_singleton].
    intros Hin. apply list_elem_of_singleton in Hin. discriminate Hin.
  - intros i. split; [discriminate|reflexivity].
  - exists M, g'. split; [exact HM|].
    destruct assignments as [|a0 [|a1 [|a2 rest]]]; try discriminate Heq.
    injection Heq as -> ->. exact Ha.
Defined.

Lemma malformed_ranking_error_witness :
  run_algorithm
    {["g" := {| items := ["A"; "B"];
                preferences := [("user1", [5; 0]); ("user2", [0; 1])]%nat;
                status := collecting; probabilities := None;
                final_assignments := None |}]} "g"
  = ({["g" := {| items := ["A"; "B"];
                 preferences := [("user1", [5; 0]); ("user2", [0; 1])]%nat;
                 status := collecting; probabilities := None;
                 final_assignments := None |}]}, ErrorRunningAlgorithm).
Proof.
  eapply (malformed_ranking_error _ "g" _ "user1" [5; 0]%nat).
  - apply lookup_singleton_eq.
  - reflexivity.
  - simpl. lia.
  - simpl. by left.
  - right. exists 5%nat, [0%nat]. simpl. split; [reflexivity|lia].
Defined.

Lemma solver_rows_normalized_witness :
  ∃ M, _bogomolnaia_moulin classic_session.(items) classic_session.(preferences) = Some M
    ∧ length M = 3%nat.
Proof.
  destruct (bogomolnaia_moulin_full _ _ classic_session_full) as (st & HM & _).
  destruct (solver_rows_normalized _ _ _ HM) as [Hlen _].
  exists (normalize st.(prob)). split; [exact HM|exact Hlen].
Defined.

Lemma sampler_one_draw_each_witness :
  ∃ assignments g',
    _probabilities_to_assignments [[1 # 2; 1 # 2]; [0; 1]] (λ k, 1 # (Pos.of_nat (k + 2)))
      = Some (assignments, g')
    ∧ g' 0%nat = 1 # 4.
Proof.
  destruct (_probabilities_to_assignments [[1 # 2; 1 # 2]; [0; 1]]
              (λ k, 1 # (Pos.of_nat (k + 2)))) as [[assignments g']|] eqn:Ha.
  - destruct (sampler_one_draw_each _ _ _ _ Ha) as (_ & Hg' & _).
    exists assignments, g'. split; [reflexivity|]. rewrite Hg'. reflexivity.
  - vm_compute in Ha. discriminate Ha.
Defined.

Lemma reachable_store_consistent_witness :
  NoDup (keys classic_session.(preferences))
  ∧ (classic_session.(status) = collecting ↔ classic_session.(probabilities) = None).
Proof.
  destruct (reachable_store_consistent (H:=ascii_db) classic_store "correctness_test"
              classic_session) as (Hnd & _ & Hst & _).
  - apply classic_store_reachable.
  - apply classic_store_lookup.
  - split; [exact Hnd|exact Hst].
Defined.




Lemma whitespace_is_ignored_witness :
  is_ranking_format (H:=ascii_db) (codes "1 2,3,4,5,6,7,8,9,10,11") (Some 11%nat)
  = is_ranking_format (H:=ascii_db) (codes "12,3,4,5,6,7,8,9,10,11") (Some 11%nat).
Proof.
  apply (whitespace_is_ignored (H:=ascii_db) ∅ "g" "u" (codes "1") 32%N
           (codes "2,3,4,5,6,7,8,9,10,11") (Some 11%nat)).
  reflexivity.
Defined.

Lemma eating_loop_stops_on_natural_indices_witness :
  solve 100 ["A"; "B"] [("user1", [0; 5]); ("user2", [0; 1])]%nat
  = solve 4 ["A"; "B"] [("user1", [0; 5]); ("user2", [0; 1])]%nat.
Proof.
  apply (eating_loop_stops_on_natural_indices ["A"; "B"]
           [("user1", [0; 5]); ("user2", [0; 1])]%nat 100).
  simpl. lia.
Defined.

Lemma every_positive_combination_is_drawn_witness :
  ∃ g g', uniform g
    ∧ _probabilities_to_assignments [[1 # 2; 1 # 2]; [1 # 2; 1 # 2]] g
      = Some ([0; 0]%nat, g').
Proof.
  destruct (every_positive_combination_is_drawn
              [[1 # 2; 1 # 2]; [1 # 2; 1 # 2]] [0; 0]%nat) as (Hg & g' & Ha).
  - repeat constructor; simpl; try lra; reflexivity.
  - reflexivity.
  - intros [|[|p]] row j Hrow Hj; simpl in Hrow, Hj; try discriminate.
    + injection Hrow as <-. injection Hj as <-. exists (1 # 2). split; reflexivity.
    + injection Hrow as <-. injection Hj as <-. exists (1 # 2). split; reflexivity.
  - exists (draws_for [[1 # 2; 1 # 2]; [1 # 2; 1 # 2]] [0; 0]%nat), g'.
    split; [exact Hg|exact Ha].
Defined.

Lemma chat_sessions_have_two_items_witness :
  ∃ s, (handle_messages (H:=ascii_db) (H0:=ascii_text) (∅, λ _, 0)
          [Event "U1" (Some "G1") (codes "start assignment Research, Writing")]).1
         !! "G1" = Some s
    ∧ (2 ≤ length s.(items))%nat.
Proof.
  set (sessions := (handle_messages (H:=ascii_db) (H0:=ascii_text) (∅, λ _, 0)
          [Event "U1" (Some "G1") (codes "start assignment Research, Writing")]).1).
  destruct (sessions !! "G1") as [s|] eqn:Hs; [|vm_compute in Hs; discriminate Hs].
  destruct (chat_sessions_have_two_items (H:=ascii_db) (H0:=ascii_text) sessions "G1" s)
    as (_ & Hlen & _).
  - by exists [Event "U1" (Some "G1") (codes "start assignment Research, Writing")], (λ _, 0).
  - exact Hs.
  - exists s. split; [reflexivity|exact Hlen].
Defined.

Lemma handlers_raise_only_on_long_numbers_witness :
  is_Some
    (handle_message (H:=ascii_db) (H0:=ascii_text)
       (handle_messages (H:=ascii_db) (H0:=ascii_text) (∅, λ _, 1 # 2)
          [Event "U1" (Some "G1") (codes "start assignment A, B");
           Event "U1" (Some "G1") (codes "1,2"); Event "U2" (Some "G1") (codes "rank 1,2");
           Event "U2" (Some "G1") (codes "run algorithm")])
       (Event "U1" (Some "G1") (codes "make assignments"))).2.
Proof.
  apply (handlers_raise_only_on_long_numbers (H:=ascii_db) (H0:=ascii_text) (λ _, 1 # 2)
           [Event "U1" (Some "G1") (codes "start assignment A, B");
            Event "U1" (Some "G1") (codes "1,2"); Event "U2" (Some "G1") (codes "rank 1,2");
            Event "U2" (Some "G1") (codes "run algorithm")]
           (Event "U1" (Some "G1") (codes "make assignments"))).
  - intros i. split; [discriminate|reflexivity].
  - unfold int_max_str_digits. simpl. lia.
Defined.

Lemma direct_chat_changes_nothing_witness :
  (handle_message (H:=ascii_db) (H0:=ascii_text) (classic_store, λ _, 0)
     (Event "U1" None (codes "cancel"))).1 = (classic_store, λ _, 0).
Proof.
  apply (direct_chat_changes_nothing (H:=ascii_db) (H0:=ascii_text)).
  reflexivity.
Defined.

End FurtherWitnesses.
